(** * Spine dashboard: the analysis core of [spine_dashboard.py]

    A shallow embedding of [compute_angle_from_accel],
    [build_spine_from_angles] and [load_and_analyze_csv].

    Conventions of the embedding.
    - Python [int] is [Z] (unbounded).
    - Python [float] is idealised as a real number [R]: rounding is not
      modelled.  What is modelled is the one way in which a float operation
      of this program can fail: converting an [int] that is too large
      raises [OverflowError] ([float_of_int]).
    - A function that may raise returns [res]; the bare [try/except] of the
      row parser is an [option].
    - A Python [dict] is an association list in insertion order ([Dict]).
    - A [str] cell of the file is the list of its code points ([text]);
      column names and header values are [string]s. *)

From Stdlib Require Import String Ascii DecimalString ZArith List Bool Lia Lra Reals.
From Stdlib Require Import Permutation Sorted.
Import ListNotations.

Local Open Scope Z_scope.

(** ** Exceptions *)

Inductive exn : Set :=
| OverflowError
| ValueError
| IndexError
| OSError
| UnicodeDecodeError
| CsvError.

Inductive res (A : Type) : Type :=
| Ok (a : A)
| Raise (e : exn).

Arguments Ok {A} a.
Arguments Raise {A} e.

Definition bind {A B : Type} (m : res A) (k : A -> res B) : res B :=
  match m with
  | Ok a => k a
  | Raise e => Raise e
  end.

Notation "x <- m ;; k" := (bind m (fun x => k))
  (at level 61, m at next level, right associativity).

(** ** Floats *)

(** The least magnitude of an [int] that rounds (to nearest, ties to even)
    beyond the largest finite double: converting it raises. *)
Definition DBL_OVERFLOW : Z := 2 ^ 1024 - 2 ^ 970.

(** Implicit conversion of an [int] operand to [float]. *)
Definition float_of_int (n : Z) : res R :=
  if Z.abs n <? DBL_OVERFLOW then Ok (IZR n) else Raise OverflowError.

(** [int(x)] on a float: truncation toward zero. *)
Definition int_of_float (x : R) : Z :=
  if Rle_dec 0 x then Int_part x else (- Int_part (- x))%Z.

(** [math.sqrt] applied to an [int]. *)
Definition math_sqrt (n : Z) : res R :=
  x <- float_of_int n ;;
  if n <? 0 then Raise ValueError else Ok (sqrt x).

(** [math.atan2] on reals. *)
Definition math_atan2 (y x : R) : R :=
  if Rlt_dec 0 x then atan (y / x)
  else if Rlt_dec x 0 then
         if Rle_dec 0 y then (atan (y / x) + PI)%R else (atan (y / x) - PI)%R
       else if Rlt_dec 0 y then (PI / 2)%R
            else if Rlt_dec y 0 then (- (PI / 2))%R else 0%R.

(** [math.radians]. *)
Definition math_radians (a : R) : R := (a * (PI / 180))%R.

(** Truthiness of a float, and [any] over a list of them. *)
Definition truthy (x : R) : bool := if Req_dec_T x 0 then false else true.

Definition any (l : list R) : bool := existsb truthy l.

(** ** Angle estimator *)

Definition scale : R := 8192.

(** [deadzoneRaw = int(0.03 * scale)] and the pole threshold
    [int(0.98 * scale)], as the integers they evaluate to
    (see [deadzoneRaw_int] and [poleRaw_int]). *)
Definition deadzoneRaw : Z := 245.
Definition poleRaw : Z := 8028.

Definition compute_angle_from_accel (ax ay az : Z) : res R :=
  let xRaw := if ax =? 0 then 10 else ax in
  let yUsed := if Z.abs ay <? deadzoneRaw then 0 else ay in
  let zUsed := if Z.abs az <? deadzoneRaw then 0 else az in
  s <- math_sqrt (yUsed * yUsed + zUsed * zUsed) ;;
  x <- float_of_int (Z.abs xRaw) ;;
  let angle := (math_atan2 s x * 180 / PI)%R in
  let angle := if xRaw <? 0 then (180 - angle)%R else angle in
  let angle := if az <? 0 then (- angle)%R else angle in
  let angle :=
    if (Z.abs xRaw >? poleRaw) && (Z.abs yUsed <? deadzoneRaw)
       && (Z.abs zUsed <? deadzoneRaw)
    then if xRaw <? 0 then 180%R else 0%R
    else angle in
  Ok angle.

(** The snap zone as the specification words it: [|y|] and [|z|] below
    [0.03 * 8192] and [|x|] at least [0.98 * 8192]. *)
Definition spec_snap_zone (x y z : Z) : Prop :=
  100 * Z.abs y < 3 * 8192 /\ 100 * Z.abs z < 3 * 8192 /\
  98 * 8192 <= 100 * Z.abs x.


(** ** Python containers *)

(** A [dict] keyed by integers: an association list in insertion order
    with at most one entry per key once built with [set]. *)
Module Dict.

Definition t (V : Type) : Type := list (Z * V).

Definition empty {V : Type} : t V := [].

Fixpoint get {V : Type} (d : t V) (k : Z) : option V :=
  match d with
  | [] => None
  | (k', v) :: d' => if k' =? k then Some v else get d' k
  end.

(** [k in d] *)
Definition mem {V : Type} (k : Z) (d : t V) : bool :=
  match get d k with Some _ => true | None => false end.

(** [d.get(k, default)] *)
Definition get_default {V : Type} (d : t V) (k : Z) (default : V) : V :=
  match get d k with Some v => v | None => default end.

(** [d[k] = v]: an existing key keeps its position. *)
Fixpoint set {V : Type} (d : t V) (k : Z) (v : V) : t V :=
  match d with
  | [] => [(k, v)]
  | (k', v') :: d' =>
      if k' =? k then (k', v) :: d' else (k', v') :: set d' k v
  end.

Definition keys {V : Type} (d : t V) : list Z := map fst d.
Definition values {V : Type} (d : t V) : list V := map snd d.

(** A dict comprehension [{k: v for ...}] over a sequence of pairs. *)
Definition of_list {V : Type} (l : list (Z * V)) : t V :=
  fold_left (fun d kv => set d (fst kv) (snd kv)) l empty.

End Dict.

(** [sorted] on integers. *)
Fixpoint insert_sorted (x : Z) (l : list Z) : list Z :=
  match l with
  | [] => [x]
  | y :: l' => if x <=? y then x :: l else y :: insert_sorted x l'
  end.

Definition sorted (l : list Z) : list Z := fold_right insert_sorted [] l.

(** [min] and [max] of a non-empty list of integers ([0] stands for the
    [ValueError] of the empty case, which every caller guards). *)
Definition min_int (l : list Z) : Z :=
  match l with [] => 0 | x :: l' => fold_left Z.min l' x end.

Definition max_int (l : list Z) : Z :=
  match l with [] => 0 | x :: l' => fold_left Z.max l' x end.

(** [min], [max] and [sum] of floats; [max_float] and [min_float] are only
    called on non-empty lists. *)
Definition max_float (l : list R) : R :=
  match l with [] => 0%R | x :: l' => fold_left Rmax l' x end.

Definition min_float (l : list R) : R :=
  match l with [] => 0%R | x :: l' => fold_left Rmin l' x end.

Definition sum_float (l : list R) : R := fold_left Rplus l 0%R.

(** [max(l) - min(l) if l else 0] *)
Definition rom (l : list R) : R :=
  match l with [] => 0%R | _ => (max_float l - min_float l)%R end.

(** [l[::k]] for a step [k >= 1]: [skip] counts the elements still to
    pass over before the next one is taken. *)
Fixpoint every_from {A : Type} (k skip : nat) (l : list A) : list A :=
  match l with
  | [] => []
  | x :: l' =>
      match skip with
      | O => x :: every_from k (k - 1) l'
      | S s => every_from k s l'
      end
  end.

Definition slice_step {A : Type} (l : list A) (k : nat) : list A :=
  every_from k 0 l.

(** [l[i:j]] for [0 <= i], [0 <= j]. *)
Definition slice {A : Type} (l : list A) (i j : nat) : list A :=
  firstn (j - i) (skipn i l).

(** [l[1:-1]] *)
Definition interior {A : Type} (l : list A) : list A :=
  removelast (tl l).

(** ** Curve builder *)

Definition point : Type := (R * R)%type.

(** The integration loop: [locs] in the order the points are appended. *)
Fixpoint integrate (radius curr_x curr_y : R) (angles : list R) : list point :=
  match angles with
  | [] => []
  | a :: angles' =>
      let rad := math_radians a in
      let dx := (radius * sin rad)%R in
      let dy := (radius * cos rad)%R in
      let curr_x := (curr_x + dx)%R in
      let curr_y := (curr_y + dy)%R in
      (curr_x, curr_y) :: integrate radius curr_x curr_y angles'
  end.

(** [locs] after the loop and [list(reversed(locs))]. *)
Definition spine_locs (angles : list R) (spacing_cm : R) : list point :=
  let n := length angles in
  let radius := (spacing_cm / 100)%R in
  let angles_rev := rev angles in
  let angles_centered := map (fun a => (a - 0)%R) angles_rev in
  (* for i in range(n - 1, -1, -1): angles_centered[i] *)
  let locs :=
    integrate radius 0%R (- INR n * radius * (5 / 10))%R
              (rev angles_centered) in
  rev locs.

(** The block under [# Center]. *)
Definition center (locs : list point) : list point :=
  match locs with
  | [] => locs
  | _ =>
      let avg_x := (sum_float (map fst locs) / INR (length locs))%R in
      let avg_y := (sum_float (map snd locs) / INR (length locs))%R in
      map (fun loc => (fst loc - avg_x, snd loc - avg_y)%R) locs
  end.

(** [[(x * 100, y * 100) for x, y in locs]] *)
Definition to_cm (locs : list point) : list point :=
  map (fun loc => (fst loc * 100, snd loc * 100)%R) locs.

Definition build_spine_from_angles_spaced (angles : list R) (spacing_cm : R)
  : list point :=
  match angles with
  | [] => []
  | _ => to_cm (center (spine_locs angles spacing_cm))
  end.

(** The default [spacing_cm=9.0]. *)
Definition build_spine_from_angles (angles : list R) : list point :=
  build_spine_from_angles_spaced angles 9.

(** Mean of a list of floats, for stating the centring property. *)
Definition mean (l : list R) : R := (sum_float l / INR (length l))%R.

(** ** Record loader *)

(** A cell of the file: the code points of a [str]. *)
Definition text : Type := list Z.

Definition text_of_string (s : string) : text :=
  map (fun c => Z.of_nat (nat_of_ascii c)) (list_ascii_of_string s).

(** One row of [csv.DictReader]: column name to cell.  A column the header
    lacks, or a cell a short line leaves as [None], has no entry: both
    make the conversion raise and the row is skipped. *)
Definition csv_row : Type := list (string * text).

Fixpoint field (row : csv_row) (name : string) : option text :=
  match row with
  | [] => None
  | (n, v) :: row' => if String.eqb n name then Some v else field row' name
  end.

(** The blanks beyond ASCII ([Py_UNICODE_ISSPACE] from 127 on), which
    [int] turns into spaces before it reads its argument. *)
Definition unicode_blanks : list Z :=
  [133; 160; 5760; 8192; 8193; 8194; 8195; 8196; 8197; 8198; 8199; 8200;
   8201; 8202; 8232; 8233; 8239; 8287; 12288].

(** The blanks [int] passes over at both ends of its argument: tab to
    carriage return, the space, and the blanks beyond ASCII.  The
    separators U+001C to U+001F are not among them. *)
Definition is_space (c : Z) : bool :=
  ((9 <=? c) && (c <=? 13)) || (c =? 32) || existsb (Z.eqb c) unicode_blanks.

Fixpoint lstrip (s : text) : text :=
  match s with
  | c :: s' => if is_space c then lstrip s' else s
  | [] => s
  end.

Definition strip (s : text) : text := rev (lstrip (rev (lstrip s))).

(** The code points of the digit zero of every decimal digit range
    (category [Nd]) of the interpreter's Unicode database, version 14.0:
    ASCII first, the nine others of a range follow their zero. *)
Definition decimal_zeros : list Z :=
  [48; 1632; 1776; 1984; 2406; 2534; 2662; 2790; 2918; 3046; 3174; 3302;
   3430; 3558; 3664; 3792; 3872; 4160; 4240; 6112; 6160; 6470; 6608; 6784;
   6800; 6992; 7088; 7232; 7248; 42528; 43216; 43264; 43472; 43504; 43600;
   44016; 65296; 66720; 68912; 69734; 69872; 69942; 70096; 70384; 70736;
   70864; 71248; 71360; 71472; 71904; 72016; 72784; 73040; 73120; 92768;
   92864; 93008; 120782; 120792; 120802; 120812; 120822; 123200; 123632;
   125264; 130032].

(** [Py_UNICODE_TODECIMAL] *)
Definition digit_of (c : Z) : option Z :=
  option_map (fun zero => c - zero)
             (find (fun zero => (zero <=? c) && (c <=? zero + 9)) decimal_zeros).

(** Decimal digits, single underscores allowed between digits. *)
Fixpoint digits_value (acc : Z) (after_digit : bool) (s : text) : option Z :=
  match s with
  | [] => if after_digit then Some acc else None
  | c :: s' =>
      if c =? 95
      then if after_digit then digits_value acc false s' else None
      else match digit_of c with
           | Some d => digits_value (10 * acc + d) true s'
           | None => None
           end
  end.

(** The interpreter's limit on the digits of a decimal text
    ([sys.get_int_max_str_digits()], by default). *)
Definition MAX_STR_DIGITS : nat := 4300.

Fixpoint count_digits (s : text) : nat :=
  match s with
  | [] => 0
  | c :: s' =>
      match digit_of c with
      | Some _ => S (count_digits s')
      | None => count_digits s'
      end
  end.

(** The digits after the sign: more than [MAX_STR_DIGITS] of them (leading
    zeros count, underscores do not) are a [ValueError] too. *)
Definition decimal_value (s : text) : option Z :=
  if (MAX_STR_DIGITS <? count_digits s)%nat then None
  else digits_value 0 false s.

(** [int(s)] on a [str] in base 10 ([None] is [ValueError]): blanks at
    both ends, a sign, digits. *)
Definition int_of_text (s : text) : option Z :=
  match strip s with
  | c :: s' =>
      if c =? 45 then option_map Z.opp (decimal_value s')
      else if c =? 43 then decimal_value s'
      else decimal_value (c :: s')
  | [] => None
  end.

(** The same on a text of code points below 256, such as a header value. *)
Definition int_of_string (s : string) : option Z :=
  int_of_text (text_of_string s).

(** The tuple [(ts, sid, ax, ay, az)]. *)
Record row : Set := mk_row {
  row_ts : Z;
  row_sid : Z;
  row_ax : Z;
  row_ay : Z;
  row_az : Z
}.

Definition int_field (r : csv_row) (name : string) : option Z :=
  match field r name with
  | Some s => int_of_text s
  | None => None
  end.

(** The body of [try: ... except: continue]. *)
Definition parse_row (r : csv_row) : option row :=
  match int_field r "Timestamp_ms" with
  | None => None
  | Some ts =>
  match int_field r "Sensor_ID" with
  | None => None
  | Some sid =>
  match int_field r "Accel_X" with
  | None => None
  | Some ax =>
  match int_field r "Accel_Y" with
  | None => None
  | Some ay =>
  match int_field r "Accel_Z" with
  | None => None
  | Some az => Some (mk_row ts sid ax ay az)
  end end end end end.

Fixpoint load_rows (reader : list csv_row) : list row :=
  match reader with
  | [] => []
  | r :: reader' =>
      match parse_row r with
      | Some x => x :: load_rows reader'
      | None => load_rows reader'
      end
  end.

(** ** Trimming *)

Definition FIVE_MINUTES_MS : Z := 5 * 60 * 1000.

(** Which of the two messages the trimming step prints. *)
Inductive trim_message : Set :=
| Removed (removed_count remaining : nat)
| WarnLessThanTenMinutes.

Definition trim (rows : list row) : list row * trim_message :=
  let timestamps := map row_ts rows in
  let first_timestamp := min_int timestamps in
  let last_timestamp := max_int timestamps in
  let start_cutoff := first_timestamp + FIVE_MINUTES_MS in
  let end_cutoff := last_timestamp - FIVE_MINUTES_MS in
  let original_count := length rows in
  let rows' :=
    filter (fun r => (start_cutoff <=? row_ts r) && (row_ts r <=? end_cutoff))
           rows in
  let removed_count := (original_count - length rows')%nat in
  (rows',
   if (0 <? removed_count)%nat
   then Removed removed_count (length rows')
   else WarnLessThanTenMinutes).

(** ** Cycle reconstructor *)

Definition CYCLE_WINDOW_MS : Z := 100.

(** One cycle's readings: [sid -> (ts, angle)]. *)
Definition cycle : Type := Dict.t (Z * R).

Record cycle_state : Type := mk_state {
  reading_cycles : list (Z * cycle);
  current_cycle : cycle;
  current_cycle_start_time : option Z
}.

Definition init_state : cycle_state := mk_state [] Dict.empty None.

(** The condition of the loop's [if]. *)
Definition starts_new_cycle (st : cycle_state) (ts sid : Z) : bool :=
  match current_cycle_start_time st with
  | None => true
  | Some start =>
      Dict.mem sid (current_cycle st) || (ts - start >? CYCLE_WINDOW_MS)
  end.

(** [reading_cycles.append((current_cycle_start_time, dict(current_cycle)))]
    under [if current_cycle:].  A non-empty open cycle always has a start
    time; the [None] branch stands for a key that never occurs. *)
Definition flush (st : cycle_state) : list (Z * cycle) :=
  match current_cycle st, current_cycle_start_time st with
  | _ :: _, Some start => reading_cycles st ++ [(start, current_cycle st)]
  | _, _ => reading_cycles st
  end.

(** One iteration of the loop, the angle already computed. *)
Definition cycle_step (st : cycle_state) (ts sid : Z) (angle : R)
  : cycle_state :=
  if starts_new_cycle st ts sid
  then mk_state (flush st) [(sid, (ts, angle))] (Some ts)
  else mk_state (reading_cycles st)
                (Dict.set (current_cycle st) sid (ts, angle))
                (current_cycle_start_time st).

Fixpoint cycle_loop (st : cycle_state) (rows : list row) : res cycle_state :=
  match rows with
  | [] => Ok st
  | r :: rows' =>
      angle <- compute_angle_from_accel (row_ax r) (row_ay r) (row_az r) ;;
      cycle_loop (cycle_step st (row_ts r) (row_sid r) angle) rows'
  end.

Definition group_reading_cycles (rows : list row) : res (list (Z * cycle)) :=
  st <- cycle_loop init_state rows ;;
  Ok (flush st).

(** ** Frames, series and metrics *)

(** [time_frames[cycle_time] = {sid: angle for sid, (ts, angle) in ...}] *)
Definition time_frames_of (cycles : list (Z * cycle)) : Dict.t (Dict.t R) :=
  fold_left
    (fun tf c =>
       Dict.set tf (fst c)
                (Dict.of_list (map (fun e => (fst e, snd (snd e))) (snd c))))
    cycles Dict.empty.

(** [{'time': ts/1000.0, 'angle': angle, 'ts_ms': ts}] *)
Record reading : Type := mk_reading {
  rd_time : R;
  rd_angle : R;
  rd_ts_ms : Z
}.

(** [sensor_data[sid].append(x)] on the [defaultdict(list)]. *)
Definition series_append (sd : Dict.t (list reading)) (sid : Z) (x : reading)
  : Dict.t (list reading) :=
  Dict.set sd sid (Dict.get_default sd sid [] ++ [x]).

Fixpoint series_of_cycle (sd : Dict.t (list reading)) (c : list (Z * (Z * R)))
  : res (Dict.t (list reading)) :=
  match c with
  | [] => Ok sd
  | (sid, (ts, angle)) :: c' =>
      t <- float_of_int ts ;;
      series_of_cycle
        (series_append sd sid (mk_reading (t / 1000)%R angle ts)) c'
  end.

Fixpoint sensor_data_from (sd : Dict.t (list reading))
                          (cycles : list (Z * cycle))
  : res (Dict.t (list reading)) :=
  match cycles with
  | [] => Ok sd
  | (_, cycle_data) :: cycles' =>
      sd' <- series_of_cycle sd cycle_data ;;
      sensor_data_from sd' cycles'
  end.

Definition sensor_data_of (cycles : list (Z * cycle))
  : res (Dict.t (list reading)) :=
  sensor_data_from Dict.empty cycles.

(** [[d['angle'] for d in sensor_data[sid]]] *)
Definition angles_of (sd : Dict.t (list reading)) (sid : Z) : list R :=
  map rd_angle (Dict.get_default sd sid []).

(** [timestamps[::max(1, len(timestamps)//500)]] *)
Definition sampled_timestamps (timestamps : list Z) : list Z :=
  slice_step timestamps (Nat.max 1 (length timestamps / 500)).

Record frame : Type := mk_frame {
  fr_time : R;
  fr_points : list point;
  fr_angles : list R
}.

(** [[time_frames[ts].get(sid, 0) for sid in sensor_order]] *)
Definition frame_angles_at (tf : Dict.t (Dict.t R)) (sensor_order : list Z)
                           (ts : Z) : list R :=
  map (fun sid => Dict.get_default (Dict.get_default tf ts Dict.empty) sid 0%R)
      sensor_order.

(** The loop that fills [spine_curves], over the timestamps it is given. *)
Fixpoint spine_curves_of (tf : Dict.t (Dict.t R)) (sensor_order : list Z)
                         (tss : list Z) : res (list frame) :=
  match tss with
  | [] => Ok []
  | ts :: tss' =>
      if Dict.mem ts tf then
        let frame_angles := frame_angles_at tf sensor_order ts in
        if any frame_angles then
          let spine_points := build_spine_from_angles frame_angles in
          t <- float_of_int ts ;;
          rest <- spine_curves_of tf sensor_order tss' ;;
          Ok (mk_frame (t / 1000)%R spine_points frame_angles :: rest)
        else spine_curves_of tf sensor_order tss'
      else spine_curves_of tf sensor_order tss'
  end.

Definition point_eq_dec (p q : point) : {p = q} + {p <> q}.
Proof.
  destruct p as [px py], q as [qx qy].
  destruct (Req_dec_T px qx) as [Hx | Hx].
  - destruct (Req_dec_T py qy) as [Hy | Hy].
    + left. now rewrite Hx, Hy.
    + right. intro H. apply Hy. now inversion H.
  - right. intro H. apply Hx. now inversion H.
Defined.

(** The distance of [p] to the chord, [0] when the end points coincide. *)
Definition chord_dist (first last p : point) : R :=
  if point_eq_dec first last then 0%R
  else (Rabs ((snd last - snd first) * fst p - (fst last - fst first) * snd p
              + fst last * snd first - snd last * fst first)
        / sqrt ((snd last - snd first) ^ 2 + (fst last - fst first) ^ 2))%R.

Definition curve_max (max_curvature : R) (points : list point) : R :=
  match points with
  | first :: _ :: _ =>
      let last := List.last points first in
      fold_left (fun m p => Rmax m (chord_dist first last p))
                (interior points) max_curvature
  | _ => max_curvature
  end.

Definition max_curvature_of (spine_curves : list frame) : R :=
  fold_left (fun m c => curve_max m (fr_points c)) spine_curves 0%R.

(** [str(sid)] *)
Definition str (n : Z) : string := NilZero.string_of_int (Z.to_int n).

Record analysis_result : Type := mk_result {
  filename : string;
  sensors : nat;
  samples : nat;
  duration : R;
  total_rom : R;
  upper_rom : R;
  middle_rom : R;
  lower_rom : R;
  avg_angle : R;
  movement_score : R;
  max_curvature : R;
  sensor_roms : list (string * R);
  spine_curves : list frame;
  avg_spine : list point;
  sensor_order : list string
}.

(** [timestamps[0]] and [timestamps[-1]] *)
Definition first_item (l : list Z) : res Z :=
  match l with [] => Raise IndexError | x :: _ => Ok x end.

Definition last_item (l : list Z) : res Z :=
  match l with [] => Raise IndexError | x :: _ => Ok (List.last l x) end.

(** The body of [load_and_analyze_csv] from the grouping loop on, with the
    selection of the frame timestamps as a parameter [select]; the program
    runs it with [sampled_timestamps]. *)
Definition analyze_with (select : list Z -> list Z) (name : string)
                        (rows : list row) : res analysis_result :=
  cycles <- group_reading_cycles rows ;;
  let time_frames := time_frames_of cycles in
  sensor_data <- sensor_data_of cycles ;;
  let timestamps := sorted (Dict.keys time_frames) in
  let sensor_order := sorted (Dict.keys sensor_data) in
  curves <- spine_curves_of time_frames sensor_order (select timestamps) ;;
  let avg_angles :=
    map (fun sid =>
           let angles_for_sensor := angles_of sensor_data sid in
           match angles_for_sensor with
           | [] => 0%R
           | _ => (sum_float angles_for_sensor
                   / INR (length angles_for_sensor))%R
           end) sensor_order in
  let avg_spine := build_spine_from_angles avg_angles in
  let all_angles := flat_map (fun e => map rd_angle (snd e)) sensor_data in
  let sensor_roms :=
    map (fun e => (fst e, rom (map rd_angle (snd e)))) sensor_data in
  t_last <- last_item timestamps ;;
  t_first <- first_item timestamps ;;
  span <- float_of_int (t_last - t_first) ;;
  let duration := (span / 1000)%R in
  let total_rom := rom all_angles in
  let n := length sensor_order in
  let upper := firstn (n / 3) sensor_order in
  let middle := slice sensor_order (n / 3) (2 * n / 3) in
  let lower := skipn (2 * n / 3) sensor_order in
  let upper_angles := flat_map (angles_of sensor_data) upper in
  let middle_angles := flat_map (angles_of sensor_data) middle in
  let lower_angles := flat_map (angles_of sensor_data) lower in
  Ok {| filename := name;
        sensors := length sensor_data;
        samples := length rows;
        duration := duration;
        total_rom := total_rom;
        upper_rom := rom upper_angles;
        middle_rom := rom middle_angles;
        lower_rom := rom lower_angles;
        avg_angle :=
          match all_angles with
          | [] => 0%R
          | _ => (sum_float all_angles / INR (length all_angles))%R
          end;
        movement_score :=
          if Rlt_dec 0 duration then (total_rom / duration)%R else 0%R;
        max_curvature := max_curvature_of curves;
        sensor_roms := map (fun e => (str (fst e), snd e)) sensor_roms;
        spine_curves := curves;
        avg_spine := avg_spine;
        sensor_order := map str sensor_order |}.

(** [load_and_analyze_csv]: [name] is [Path(file_path).name] and [reader]
    the rows [csv.DictReader] yields.  [Ok None] is [return None]. *)
Definition load_and_analyze_with (select : list Z -> list Z) (name : string)
                                 (reader : list csv_row)
  : res (option analysis_result) :=
  match load_rows reader with
  | [] => Ok None
  | rows =>
      match fst (trim rows) with
      | [] => Ok None
      | rows' => r <- analyze_with select name rows' ;; Ok (Some r)
      end
  end.

Definition load_and_analyze_csv (name : string) (reader : list csv_row)
  : res (option analysis_result) :=
  load_and_analyze_with sampled_timestamps name reader.

(** *** Reading the file

    [open], the decoding of the bytes of the file and the csv reader run
    outside the [try] of the row parser: when one of them raises, the
    function raises, whatever the rows read before hold. *)

(** What reading the file gives: the rows [csv.DictReader] yields, and the
    exception that ends the reading, if one does ([OSError] from [open],
    [UnicodeDecodeError] from the decoding, [csv.Error] from the reader). *)
Record csv_file : Type := mk_file {
  file_rows : list csv_row;
  file_error : option exn
}.

(** [load_and_analyze_csv] from its first line; [load_and_analyze_csv]
    above is the function on a file read to its end. *)
Definition load_and_analyze_file (name : string) (file : csv_file)
  : res (option analysis_result) :=
  match file_error file with
  | Some e => Raise e
  | None => load_and_analyze_csv name (file_rows file)
  end.

(** The same analysis with every cycle timestamp turned into a frame, that
    is without the sampling step. *)
Definition analyze_unsampled (name : string) (reader : list csv_row)
  : res (option analysis_result) :=
  load_and_analyze_with (fun timestamps => timestamps) name reader.

(** ** Auxiliary definitions for the proofs *)

(** The value [compute_angle_from_accel] returns when it returns. *)
Definition angle_value (ax ay az : Z) : R :=
  let xRaw := if ax =? 0 then 10 else ax in
  let yUsed := if Z.abs ay <? deadzoneRaw then 0 else ay in
  let zUsed := if Z.abs az <? deadzoneRaw then 0 else az in
  let angle :=
    (math_atan2 (sqrt (IZR (yUsed * yUsed + zUsed * zUsed)))
                (IZR (Z.abs xRaw)) * 180 / PI)%R in
  let angle := if xRaw <? 0 then (180 - angle)%R else angle in
  let angle := if az <? 0 then (- angle)%R else angle in
  if (Z.abs xRaw >? poleRaw) && (Z.abs yUsed <? deadzoneRaw)
     && (Z.abs zUsed <? deadzoneRaw)
  then if xRaw <? 0 then 180%R else 0%R
  else angle.

(** The two conversions of [compute_angle_from_accel] do not overflow. *)
Definition accel_in_range (ax ay az : Z) : bool :=
  let xRaw := if ax =? 0 then 10 else ax in
  let yUsed := if Z.abs ay <? deadzoneRaw then 0 else ay in
  let zUsed := if Z.abs az <? deadzoneRaw then 0 else az in
  (yUsed * yUsed + zUsed * zUsed <? DBL_OVERFLOW)
  && (Z.abs xRaw <? DBL_OVERFLOW).

Definition angle_of_row (r : row) : R :=
  angle_value (row_ax r) (row_ay r) (row_az r).

Definition row_in_range (r : row) : bool :=
  accel_in_range (row_ax r) (row_ay r) (row_az r).

(** The grouping loop over rows whose angles are given by [f]. *)
Definition step_with (f : row -> R) (st : cycle_state) (r : row)
  : cycle_state :=
  cycle_step st (row_ts r) (row_sid r) (f r).

Definition cycles_with (f : row -> R) (rows : list row) : list (Z * cycle) :=
  flush (fold_left (step_with f) rows init_state).

(** The reading a row contributes: [sid -> (ts, angle)]. *)
Definition reading_of_row (r : row) : Z * (Z * R) :=
  (row_sid r, (row_ts r, angle_of_row r)).

(** The properties the specification gives a reading cycle. *)
Definition no_sensor_repeats (c : Z * cycle) : Prop :=
  NoDup (Dict.keys (snd c)).

Definition within_window (c : Z * cycle) : Prop :=
  Forall (fun e => Z.abs (fst (snd e) - fst c) <= CYCLE_WINDOW_MS) (snd c).

(** What the loop guarantees instead, whatever the order of the rows. *)
Definition closes_on_timeout (c : Z * cycle) : Prop :=
  Forall (fun e => fst (snd e) - fst c <= CYCLE_WINDOW_MS) (snd c).

Definition not_before_start (c : Z * cycle) : Prop :=
  Forall (fun e => fst c <= fst (snd e)) (snd c).

Definition ts_in_range (t : Z) : bool := Z.abs t <? DBL_OVERFLOW.

(** The record a cycle entry contributes to its sensor's series. *)
Definition reading_of_entry (e : Z * (Z * R)) : reading :=
  mk_reading (IZR (fst (snd e)) / 1000)%R (snd (snd e)) (fst (snd e)).

Definition series_with (sd : Dict.t (list reading)) (entries : list (Z * (Z * R)))
  : Dict.t (list reading) :=
  fold_left (fun sd e => series_append sd (fst e) (reading_of_entry e))
            entries sd.

(** All readings of all cycles, in the order of emission. *)
Definition readings_of (cycles : list (Z * cycle)) : list (Z * (Z * R)) :=
  flat_map snd cycles.

(** All angles of all cycles. *)
Definition cycle_angles (cycles : list (Z * cycle)) : list R :=
  map (fun e => snd (snd e)) (readings_of cycles).

(** The invariant of the loop for a property [P] of cycles: the emitted
    cycles and the open one satisfy [P], and a cycle is open exactly when a
    start time is set. *)
Definition cycle_inv (P : Z * cycle -> Prop) (st : cycle_state) : Prop :=
  Forall P (reading_cycles st) /\
  match current_cycle_start_time st with
  | None => current_cycle st = []
  | Some t0 => current_cycle st <> [] /\ P (t0, current_cycle st)
  end.

(** A cycle is keyed by the timestamp of its first reading. *)
Definition keyed_by_first (c : Z * cycle) : Prop :=
  exists e rest, snd c = e :: rest /\ fst (snd e) = fst c.

(** Bounds under which no conversion to float can overflow. *)
Definition TS_BOUND : Z := 2 ^ 1000.
Definition ACCEL_BOUND : Z := 2 ^ 500.

Definition row_float_safe (r : row) : bool :=
  (Z.abs (row_ts r) <? TS_BOUND) && (Z.abs (row_ax r) <? ACCEL_BOUND)
  && (Z.abs (row_ay r) <? ACCEL_BOUND) && (Z.abs (row_az r) <? ACCEL_BOUND).

(** A frame selection that only picks among the timestamps it is given. *)
Definition selects_among (select : list Z -> list Z) : Prop :=
  forall l x, In x (select l) -> In x l.

(** Maximum and minimum of a multiset of floats, by what they are. *)
Definition is_max_of (m : R) (l : list R) : Prop :=
  In m l /\ forall a, In a l -> (a <= m)%R.

Definition is_min_of (m : R) (l : list R) : Prop :=
  In m l /\ forall a, In a l -> (m <= a)%R.

Definition required_columns : list string :=
  ["Timestamp_ms"; "Sensor_ID"; "Accel_X"; "Accel_Y"; "Accel_Z"]%string.

(** The timestamps the frame loop finds in [time_frames], each with its
    frame angles. *)
Definition frames_list (tf : Dict.t (Dict.t R)) (sensor_order tss : list Z)
  : list (Z * list R) :=
  map (fun ts => (ts, frame_angles_at tf sensor_order ts))
      (filter (fun ts => Dict.mem ts tf) tss).

(** The frame the loop appends for one of them, if any. *)
Definition frame_of_entry (p : Z * list R) : list frame :=
  if any (snd p)
  then [mk_frame (IZR (fst p) / 1000)%R (build_spine_from_angles (snd p)) (snd p)]
  else [].

(** Angles by a table: [theta] for a sample lying flat on [z], [0]
    otherwise. *)
Definition table_angle (theta : R) (r : row) : R :=
  if row_az r =? 8192 then theta else 0%R.

(** The entries of the frame loop for rows whose angles are given by [f]
    and a selection of the timestamps. *)
Definition frames_with (f : row -> R) (select : list Z -> list Z)
                       (rows : list row) : list (Z * list R) :=
  let cycles := cycles_with f rows in
  let tf := time_frames_of cycles in
  let sd := series_with Dict.empty (readings_of cycles) in
  frames_list tf (sorted (Dict.keys sd)) (select (sorted (Dict.keys tf))).

(** The angle of a sample lying flat on [z]. *)
Definition flat_angle : R := angle_value 0 0 8192.

(** A row of the long logs: upright or lying flat. *)
Definition upright_or_flat (r : row) : bool :=
  ((row_ax r =? 8192) && (row_ay r =? 0) && (row_az r =? 0))
  || ((row_ax r =? 0) && (row_ay r =? 0) && (row_az r =? 8192)).

(** ** Sample logs *)

(** A well-formed line of the log. *)
Definition csv_line (ts sid ax ay az : Z) : csv_row :=
  [("Timestamp_ms"%string, text_of_string (str ts));
   ("Sensor_ID"%string, text_of_string (str sid));
   ("Accel_X"%string, text_of_string (str ax));
   ("Accel_Y"%string, text_of_string (str ay));
   ("Accel_Z"%string, text_of_string (str az))].

(** A session of eight minutes: two samples, 480 s apart. *)
Definition eight_minute_log : list csv_row :=
  [csv_line 0 0 8192 0 0; csv_line 480000 0 8192 0 0].

(** A log whose retained part goes back in time: the rows at 0 and
    1000000 ms only set the trimming bounds. *)
Definition out_of_order_log : list csv_row :=
  [csv_line 0 0 8192 0 0; csv_line 400000 0 8192 0 0;
   csv_line 350000 1 8192 0 0; csv_line 1000000 0 8192 0 0].

(** A log whose one retained row has an acceleration of 10^200. *)
Definition overflow_log : list csv_row :=
  [csv_line 0 0 8192 0 0; csv_line 300000 0 8192 (10 ^ 200) 0;
   csv_line 600000 0 8192 0 0].

(** The timestamp of the [i]-th cycle of the long logs: one cycle per
    second from the fifth minute on. *)
Definition cycle_ts (i : nat) : Z := 300000 + 1000 * Z.of_nat i.

(** A log of 1000 retained cycles.  Every cycle reads sensor 0 upright
    (angle 0) except the second one, which reads sensors 0 and 1 upright
    and sensor 2 lying flat.  The first and last rows only set the
    trimming bounds. *)
Definition bent_log : list csv_row :=
  csv_line 0 0 8192 0 0
  :: csv_line (cycle_ts 0) 0 8192 0 0
  :: csv_line (cycle_ts 1) 0 8192 0 0
  :: csv_line (cycle_ts 1 + 4) 1 8192 0 0
  :: csv_line (cycle_ts 1 + 8) 2 0 0 8192
  :: map (fun i => csv_line (cycle_ts i) 0 8192 0 0) (seq 2 998)
  ++ [csv_line 1599000 0 8192 0 0].

Definition bent_rows : list row :=
  mk_row (cycle_ts 0) 0 8192 0 0
  :: mk_row (cycle_ts 1) 0 8192 0 0
  :: mk_row (cycle_ts 1 + 4) 1 8192 0 0
  :: mk_row (cycle_ts 1 + 8) 2 0 0 8192
  :: map (fun i => mk_row (cycle_ts i) 0 8192 0 0) (seq 2 998).

(** A log of 501 retained cycles, each reading sensor 0 lying flat. *)
Definition long_log : list csv_row :=
  csv_line 0 0 0 0 8192
  :: map (fun i => csv_line (cycle_ts i) 0 0 0 8192) (seq 0 501)
  ++ [csv_line 1100000 0 0 0 8192].

Definition long_rows : list row :=
  map (fun i => mk_row (cycle_ts i) 0 0 0 8192) (seq 0 501).

(** ** Auxiliary definitions for the further properties *)

(** Reflection of a point in the vertical axis, and translation. *)
Definition mirror (p : point) : point := ((- fst p)%R, snd p).

Definition translate (u v : R) (p : point) : point :=
  ((fst p + u)%R, (snd p + v)%R).

(** The polyline of the integration loop drawn from the origin: the
    starting point, then one step per angle after the first. *)
Definition spine_shape (angles : list R) (radius : R) : list point :=
  rev ((0%R, 0%R)
       :: integrate radius 0 0 (map (fun a => (a - 0)%R) (tl angles))).

(** ** Upload handler

    [DashboardHandler.do_POST].  Header values and the request body are
    strings of 8-bit characters.  What the handler gets from outside is a
    parameter: what [self.rfile.read] returns, the rows [csv.DictReader]
    yields on the saved file, and [json.dumps].  Writing the temporary
    file is taken to succeed. *)

Definition CR : ascii := "013".
Definition LF : ascii := "010".
Definition CRLF : string := String CR (String LF EmptyString).
Definition CRLFCRLF : string := (CRLF ++ CRLF)%string.

(** [s] without its leading [sep], when it starts with it. *)
Fixpoint after_prefix (sep s : string) : option string :=
  match sep, s with
  | EmptyString, _ => Some s
  | String a sep', String b s' =>
      if Ascii.eqb a b then after_prefix sep' s' else None
  | String _ _, EmptyString => None
  end.

(** [s.split(sep, 1)[1]]: what follows the first occurrence of [sep];
    [None] is the [IndexError] when there is none. *)
Fixpoint after_first (sep s : string) : option string :=
  match after_prefix sep s with
  | Some rest => Some rest
  | None =>
      match s with
      | EmptyString => None
      | String _ s' => after_first sep s'
      end
  end.

(** [sep in s] *)
Definition contains (sep s : string) : bool :=
  match after_first sep s with Some _ => true | None => false end.

(** [s.split(sep)] for a non-empty [sep], from left to right: [skip]
    counts the characters of a separator just found that are still to be
    passed over. *)
Fixpoint split_from (sep : string) (skip : nat) (s : string) : list string :=
  match s with
  | EmptyString => [EmptyString]
  | String c s' =>
      match skip with
      | S k => split_from sep k s'
      | O =>
          match after_prefix sep s with
          | Some _ =>
              EmptyString :: split_from sep (String.length sep - 1) s'
          | None =>
              match split_from sep 0 s' with
              | piece :: pieces => String c piece :: pieces
              | [] => [String c EmptyString]
              end
          end
      end
  end.

Definition split (s sep : string) : list string := split_from sep 0 s.

(** What precedes the last occurrence of [sep] in [s], if there is one. *)
Fixpoint before_last (sep s : string) : option string :=
  match s with
  | EmptyString =>
      match sep with EmptyString => Some EmptyString | _ => None end
  | String c s' =>
      match before_last sep s' with
      | Some t => Some (String c t)
      | None =>
          match after_prefix sep s with
          | Some _ => Some EmptyString
          | None => None
          end
      end
  end.

(** [s.rsplit(sep, 1)[0]] *)
Definition rsplit_head (s sep : string) : string :=
  match before_last sep s with Some t => t | None => s end.

(** [str.encode()] (UTF-8) on code points below 256. *)
Definition encode_char (c : ascii) : string :=
  let n := nat_of_ascii c in
  if (n <? 128)%nat then String c EmptyString
  else String (ascii_of_nat (192 + n / 64))
              (String (ascii_of_nat (128 + n mod 64)) EmptyString).

Fixpoint encode (s : string) : string :=
  match s with
  | EmptyString => EmptyString
  | String c s' => (encode_char c ++ encode s')%string
  end.

(** The exceptions the [except Exception] clause of [do_POST] can catch. *)
Inductive post_error : Set :=
| ContentLengthError
| ReadError
| PartIndexError
| SavedFileError
| AnalysisError (e : exn).

(** What the handler sends: [send_response(200)] with the JSON body,
    [send_error(code, message)] from the body of the [try], or
    [send_error(500, ...)] from its [except] clause. *)
Inductive response : Set :=
| JsonResponse (body : string)
| ErrorResponse (code : Z) (message : string)
| ServerError (e : post_error).

(** [Path(temp_path).name] for [temp_path = '/tmp/spine_upload.csv']. *)
Definition temp_name : string := "spine_upload.csv".

(** The CSV content of a part: [part.split(b'\r\n\r\n', 1)[1]] and then
    [.rsplit(b'\r\n', 1)[0]]. *)
Definition csv_content_of (part : string) : option string :=
  match after_first CRLFCRLF part with
  | Some csv_content => Some (rsplit_head csv_content CRLF)
  | None => None
  end.

Section Handler.

(** [self.rfile.read(n)]; [None] when it raises. *)
Variable rfile_read : Z -> option string.

(** The rows [csv.DictReader] yields on a file of the given content;
    [None] when opening or reading it raises. *)
Variable csv_reader : string -> option (list csv_row).

(** [json.dumps(result).encode()] *)
Variable json_dumps : analysis_result -> string.

(** The loop over the parts: the response it ends with, and the content of
    the temporary file ([file] is its content before the loop). *)
Fixpoint upload_parts (parts : list string) (file : option string)
  : response * option string :=
  match parts with
  | [] => (ErrorResponse 400 "No valid file uploaded", file)
  | part :: parts' =>
      if contains "filename=" part then
        match csv_content_of part with
        | None => (ServerError PartIndexError, file)
        | Some csv_content =>
            match csv_reader csv_content with
            | None => (ServerError SavedFileError, Some csv_content)
            | Some reader =>
                match load_and_analyze_csv temp_name reader with
                | Raise e => (ServerError (AnalysisError e), Some csv_content)
                | Ok (Some result) =>
                    (JsonResponse (json_dumps result), Some csv_content)
                | Ok None => upload_parts parts' (Some csv_content)
                end
            end
        end
      else upload_parts parts' file
  end.

(** [do_POST]: the response sent, if any, and the content of the temporary
    file after the request, if it was written.  [content_length] and
    [content_type] are the two headers, [None] when absent. *)
Definition do_POST (path : string) (content_length content_type : option string)
  : option response * option string :=
  if String.eqb path "/upload" then
    match content_length with
    | None => (Some (ServerError ContentLengthError), None)
    | Some text =>
        match int_of_string text with
        | None => (Some (ServerError ContentLengthError), None)
        | Some n =>
            match rfile_read n with
            | None => (Some (ServerError ReadError), None)
            | Some post_data =>
                let content_type :=
                  match content_type with Some t => t | None => EmptyString end in
                if negb (contains "boundary=" content_type)
                then (Some (ErrorResponse 400 "Invalid Content-Type"), None)
                else
                  match split content_type "boundary=" with
                  | _ :: after :: _ =>
                      let boundary := encode after in
                      let parts := split post_data ("--" ++ boundary) in
                      let out := upload_parts parts None in
                      (Some (fst out), snd out)
                  | _ => (Some (ServerError PartIndexError), None)
                  end
            end
        end
    end
  else (None, None).

End Handler.

(** *** Well-formed parts, for stating properties of the handler *)

(** A header line: not empty and without a carriage return. *)
Definition header_line (l : string) : Prop :=
  l <> EmptyString /\ ~ In CR (list_ascii_of_string l).

(** Header lines as they stand in a part: each after a line break. *)
Fixpoint header_block (lines : list string) : string :=
  match lines with
  | [] => EmptyString
  | l :: lines' => (CRLF ++ l ++ header_block lines')%string
  end.

(** A part of a multipart body: the header lines, an empty line, the
    content and a line break. *)
Definition file_part (lines : list string) (content : string) : string :=
  (header_block lines ++ CRLFCRLF ++ content ++ CRLF)%string.

(** [sep] occurs in [a ++ sep] at its end only: a split at [sep] of a text
    that starts with [a ++ sep] cuts it right after [a]. *)
Definition delimits (sep a : string) : Prop :=
  after_first sep (a ++ sep)%string = Some EmptyString.

(** A sample upload of one file, as a browser sends it with the boundary
    [XYZ]. *)
Definition sample_lines : list string :=
  ["Content-Disposition: form-data; name=file; filename=a.csv";
   "Content-Type: text/csv"]%string.

Definition sample_content : string :=
  ("Timestamp_ms,Sensor_ID,Accel_X,Accel_Y,Accel_Z" ++ CRLF
   ++ "0,0,8192,0,0")%string.

Definition sample_body : string :=
  (("--" ++ encode "XYZ") ++ file_part sample_lines sample_content
   ++ ("--" ++ encode "XYZ") ++ "--" ++ CRLF)%string.
(** ** Facts about the float layer *)

Lemma int_of_float_nonneg (x : R) (n : Z) :
  (IZR n <= x < IZR n + 1)%R -> (0 <= x)%R -> int_of_float x = n.
Proof.
  intros [Hlo Hhi] Hx. unfold int_of_float.
  destruct (Rle_dec 0 x) as [_ | Hn]; [| contradiction].
  symmetry. apply Int_part_spec. split; lra.
Qed.

Lemma deadzoneRaw_int : deadzoneRaw = int_of_float (3 / 100 * scale).
Proof.
  symmetry. apply int_of_float_nonneg; unfold scale, deadzoneRaw; lra.
Qed.

Lemma poleRaw_int : poleRaw = int_of_float (98 / 100 * scale).
Proof.
  symmetry. apply int_of_float_nonneg; unfold scale, poleRaw; lra.
Qed.

Lemma float_of_int_small (n : Z) :
  Z.abs n < DBL_OVERFLOW -> float_of_int n = Ok (IZR n).
Proof.
  intro H. unfold float_of_int.
  apply Z.ltb_lt in H. now rewrite H.
Qed.

Lemma DBL_OVERFLOW_big : 2 ^ 1000 < DBL_OVERFLOW.
Proof. reflexivity. Qed.

Lemma math_atan2_pos (y x : R) :
  (0 < x)%R -> math_atan2 y x = atan (y / x).
Proof.
  intro H. unfold math_atan2. destruct (Rlt_dec 0 x); [reflexivity | contradiction].
Qed.

Lemma atan_pos (t : R) : (0 < t)%R -> (0 < atan t)%R.
Proof.
  intro H. rewrite <- atan_0. now apply atan_increasing.
Qed.

Lemma compute_angle_in_range (ax ay az : Z) :
  accel_in_range ax ay az = true ->
  compute_angle_from_accel ax ay az = Ok (angle_value ax ay az).
Proof.
  unfold accel_in_range, compute_angle_from_accel, angle_value, math_sqrt,
    float_of_int.
  set (xRaw := if ax =? 0 then 10 else ax).
  set (yUsed := if Z.abs ay <? deadzoneRaw then 0 else ay).
  set (zUsed := if Z.abs az <? deadzoneRaw then 0 else az).
  intro H. apply andb_true_iff in H. destruct H as [Hs Hx].
  assert (Hnn : 0 <= yUsed * yUsed + zUsed * zUsed) by nia.
  rewrite (Z.abs_eq _ Hnn), Hs. cbn [bind].
  destruct (yUsed * yUsed + zUsed * zUsed <? 0) eqn:Hneg.
  - apply Z.ltb_lt in Hneg. lia.
  - rewrite Z.abs_idemp, Hx. reflexivity.
Qed.

Lemma compute_angle_out_of_range (ax ay az : Z) :
  accel_in_range ax ay az = false ->
  compute_angle_from_accel ax ay az = Raise OverflowError.
Proof.
  unfold accel_in_range, compute_angle_from_accel, math_sqrt, float_of_int.
  set (xRaw := if ax =? 0 then 10 else ax).
  set (yUsed := if Z.abs ay <? deadzoneRaw then 0 else ay).
  set (zUsed := if Z.abs az <? deadzoneRaw then 0 else az).
  intro H. apply andb_false_iff in H.
  assert (Hnn : 0 <= yUsed * yUsed + zUsed * zUsed) by nia.
  rewrite (Z.abs_eq _ Hnn), Z.abs_idemp.
  destruct (yUsed * yUsed + zUsed * zUsed <? DBL_OVERFLOW) eqn:Hs; cbn [bind].
  - destruct (yUsed * yUsed + zUsed * zUsed <? 0) eqn:Hneg.
    + apply Z.ltb_lt in Hneg. lia.
    + destruct H as [H | H]; [discriminate |]. now rewrite H.
  - reflexivity.
Qed.

Lemma compute_angle_value (ax ay az : Z) (a : R) :
  compute_angle_from_accel ax ay az = Ok a -> a = angle_value ax ay az.
Proof.
  intro H. destruct (accel_in_range ax ay az) eqn:Hr.
  - rewrite (compute_angle_in_range _ _ _ Hr) in H. now inversion H.
  - rewrite (compute_angle_out_of_range _ _ _ Hr) in H. discriminate.
Qed.

(** ** Angle estimator: the snap at the pole *)

(** C5 (as amended): for [|y|] and [|z|] strictly below
    [deadzoneRaw = int(0.03 * 8192) = 245] and [|x|] strictly above
    [int(0.98 * 8192) = 8028] (and small enough to convert to a float),
    the estimator returns exactly [0] for positive [x] and exactly [180]
    for negative [x], whatever the sign of [z]. *)
Theorem compute_angle_snaps_at_pole (x y z : Z) :
  Z.abs y < deadzoneRaw -> Z.abs z < deadzoneRaw ->
  poleRaw < Z.abs x -> Z.abs x < DBL_OVERFLOW ->
  compute_angle_from_accel x y z = Ok (if 0 <? x then 0%R else 180%R).
Proof.
  intros Hy Hz Hx Hfin.
  assert (Hx0 : (x =? 0) = false) by (apply Z.eqb_neq; unfold poleRaw in Hx; lia).
  rewrite compute_angle_in_range.
  - unfold angle_value. rewrite Hx0.
    apply Z.ltb_lt in Hy, Hz. rewrite Hy, Hz.
    change (Z.abs 0 <? deadzoneRaw) with true.
    assert (Hp : (Z.abs x >? poleRaw) = true) by (apply Z.gtb_lt; exact Hx).
    rewrite Hp. cbn [andb].
    destruct (x <? 0) eqn:Hneg.
    + apply Z.ltb_lt in Hneg.
      assert (H0 : (0 <? x) = false) by (apply Z.ltb_ge; lia).
      now rewrite H0.
    + apply Z.ltb_ge in Hneg.
      assert (H0 : (0 <? x) = true).
      { apply Z.ltb_lt. apply Z.eqb_neq in Hx0. lia. }
      now rewrite H0.
  - unfold accel_in_range. rewrite Hx0.
    apply Z.ltb_lt in Hy, Hz, Hfin. now rewrite Hy, Hz, Hfin.
Qed.

Lemma compute_angle_snaps_at_pole_witness :
  compute_angle_from_accel (-8192) 10 (-20) = Ok 180%R.
Proof.
  apply (compute_angle_snaps_at_pole (-8192) 10 (-20)); reflexivity.
Defined.

(** C5 as stated fails on the edge of the dead zone: [|y| = 245] is below
    [0.03 * 8192 = 245.76], yet no snap happens. *)
Lemma spec_snap_zone_edge_not_snapped :
  spec_snap_zone 8192 245 0 /\
  compute_angle_from_accel 8192 245 0 <> Ok 0%R.
Proof.
  split.
  - unfold spec_snap_zone. cbn. lia.
  - rewrite compute_angle_in_range by reflexivity.
    unfold angle_value. cbn -[math_atan2 sqrt PI IZR Rmult Rdiv].
    intro H. inversion H as [H0]. clear H.
    assert (Hs : (0 < sqrt (IZR 60025))%R) by (apply sqrt_lt_R0; lra).
    rewrite math_atan2_pos in H0 by lra.
    assert (Ha : (0 < atan (sqrt (IZR 60025) / IZR 8192))%R).
    { apply atan_pos. apply Rdiv_lt_0_compat; lra. }
    assert (HPI := PI_RGT_0).
    assert (Hq : (0 < atan (sqrt (IZR 60025) / IZR 8192) * 180 / PI)%R).
    { apply Rdiv_lt_0_compat; lra. }
    lra.
Qed.

(** ** Trimming *)

Lemma fold_min_le_init (l : list Z) (x : Z) : fold_left Z.min l x <= x.
Proof.
  revert x. induction l as [| y l IH]; intro x; cbn.
  - lia.
  - specialize (IH (Z.min x y)). lia.
Qed.

Lemma fold_min_le_in (l : list Z) (x y : Z) :
  In y l -> fold_left Z.min l x <= y.
Proof.
  revert x. induction l as [| z l IH]; intros x Hin; cbn.
  - contradiction.
  - destruct Hin as [-> | Hin].
    + pose proof (fold_min_le_init l (Z.min x y)). lia.
    + now apply IH.
Qed.

Lemma fold_min_in (l : list Z) (x : Z) :
  fold_left Z.min l x = x \/ In (fold_left Z.min l x) l.
Proof.
  revert x. induction l as [| y l IH]; intro x; cbn.
  - now left.
  - destruct (IH (Z.min x y)) as [H | H].
    + rewrite H. destruct (Z.min_spec x y) as [[_ E] | [_ E]]; rewrite E; auto.
    + auto.
Qed.

Lemma min_int_in (l : list Z) : l <> [] -> In (min_int l) l.
Proof.
  destruct l as [| x l]; [congruence |]. intros _. cbn.
  destruct (fold_min_in l x) as [H | H]; [left; now rewrite H | now right].
Qed.

Lemma min_int_le (l : list Z) (y : Z) : In y l -> min_int l <= y.
Proof.
  destruct l as [| x l]; [contradiction |]. intros [-> | H]; cbn.
  - apply fold_min_le_init.
  - now apply fold_min_le_in.
Qed.

Lemma filter_length_lt {A : Type} (f : A -> bool) (l : list A) (x : A) :
  In x l -> f x = false -> (length (filter f l) < length l)%nat.
Proof.
  induction l as [| y l IH]; intros Hin Hf; [contradiction |].
  cbn. pose proof (filter_length_le f l).
  destruct Hin as [-> | Hin].
  - rewrite Hf. lia.
  - specialize (IH Hin Hf). destruct (f y); cbn; lia.
Qed.

Lemma filter_none {A : Type} (f : A -> bool) (l : list A) :
  (forall x, In x l -> f x = false) -> filter f l = [].
Proof.
  induction l as [| y l IH]; intro H; [reflexivity |].
  cbn. rewrite (H y (or_introl eq_refl)). apply IH.
  intros x Hx. apply H. now right.
Qed.

(** A session shorter than ten minutes loses every row. *)
Lemma trim_short_session (rows : list row) :
  max_int (map row_ts rows) - min_int (map row_ts rows) < 2 * FIVE_MINUTES_MS ->
  fst (trim rows) = [].
Proof.
  intro H. unfold trim. cbn [fst]. apply filter_none.
  intros r _. apply andb_false_iff.
  destruct (Z.leb_spec (min_int (map row_ts rows) + FIVE_MINUTES_MS) (row_ts r));
    [right | now left].
  apply Z.leb_gt. lia.
Qed.

(** The earliest row never survives, so the branch that prints the
    "less than 10 minutes, no data removed" warning is never taken. *)
Lemma trim_never_warns (rows : list row) :
  rows <> [] -> snd (trim rows) <> WarnLessThanTenMinutes.
Proof.
  intro Hne. unfold trim. cbn [snd].
  set (f := fun r : row => _).
  assert (Hin : In (min_int (map row_ts rows)) (map row_ts rows)).
  { apply min_int_in. destruct rows; [congruence | discriminate]. }
  apply in_map_iff in Hin. destruct Hin as [r [Hr Hin]].
  assert (Hf : f r = false).
  { unfold f. apply andb_false_iff. left. apply Z.leb_gt.
    rewrite Hr. unfold FIVE_MINUTES_MS. lia. }
  pose proof (filter_length_lt f rows r Hin Hf) as Hlt.
  destruct (0 <? length rows - length (filter f rows))%nat eqn:E.
  - discriminate.
  - apply Nat.ltb_ge in E. lia.
Qed.

(** C1: on a session of eight minutes the trimming step removes every row
    (it reports two rows removed, none remaining) and the analysis returns
    no result, where the claim has all rows kept and processed. *)
Theorem eight_minute_session_is_dropped :
  let rows := load_rows eight_minute_log in
  map row_ts rows = [0; 480000] /\
  trim rows = ([], Removed 2 0) /\
  load_and_analyze_csv "session.csv" eight_minute_log = Ok None.
Proof.
  vm_compute. repeat split.
Qed.

(** ** Cycle reconstructor *)

Lemma cycle_loop_eval (rows : list row) (st : cycle_state) :
  cycle_loop st rows =
  if forallb row_in_range rows
  then Ok (fold_left (step_with angle_of_row) rows st)
  else Raise OverflowError.
Proof.
  revert st. induction rows as [| r rows IH]; intro st; cbn [cycle_loop forallb fold_left].
  - reflexivity.
  - unfold row_in_range at 1. destruct (accel_in_range _ _ _) eqn:Hr.
    + rewrite (compute_angle_in_range _ _ _ Hr). cbn [bind andb]. apply IH.
    + rewrite (compute_angle_out_of_range _ _ _ Hr). reflexivity.
Qed.

Lemma group_reading_cycles_eval (rows : list row) :
  group_reading_cycles rows =
  if forallb row_in_range rows
  then Ok (cycles_with angle_of_row rows)
  else Raise OverflowError.
Proof.
  unfold group_reading_cycles. rewrite cycle_loop_eval.
  now destruct (forallb row_in_range rows).
Qed.

Lemma group_reading_cycles_ok (rows : list row) (cycles : list (Z * cycle)) :
  group_reading_cycles rows = Ok cycles ->
  forallb row_in_range rows = true /\ cycles = cycles_with angle_of_row rows.
Proof.
  rewrite group_reading_cycles_eval.
  destruct (forallb row_in_range rows); intro H; [| discriminate].
  inversion H. now split.
Qed.

Lemma fold_step_with_ext (f g : row -> R) (rows : list row) (st : cycle_state) :
  (forall r, In r rows -> f r = g r) ->
  fold_left (step_with f) rows st = fold_left (step_with g) rows st.
Proof.
  revert st. induction rows as [| r rows IH]; intros st H; cbn.
  - reflexivity.
  - unfold step_with at 2 4. rewrite (H r (or_introl eq_refl)).
    apply IH. intros r' Hr'. apply H. now right.
Qed.

Lemma cycles_with_ext (f g : row -> R) (rows : list row) :
  (forall r, In r rows -> f r = g r) ->
  cycles_with f rows = cycles_with g rows.
Proof.
  intro H. unfold cycles_with. now rewrite (fold_step_with_ext f g rows _ H).
Qed.

(** *** The dictionary *)

Lemma dict_mem_in {V : Type} (k : Z) (d : Dict.t V) :
  Dict.mem k d = true <-> In k (Dict.keys d).
Proof.
  unfold Dict.mem, Dict.keys. induction d as [| [k' v] d IH]; cbn.
  - split; [discriminate | contradiction].
  - destruct (Z.eqb_spec k' k) as [-> | Hne].
    + split; auto.
    + rewrite IH. split; [auto | intros [H | H]; [contradiction | exact H]].
Qed.

Lemma dict_set_absent {V : Type} (k : Z) (v : V) (d : Dict.t V) :
  Dict.mem k d = false -> Dict.set d k v = d ++ [(k, v)].
Proof.
  unfold Dict.mem. induction d as [| [k' v'] d IH]; cbn.
  - reflexivity.
  - destruct (k' =? k); [discriminate |]. intro H. now rewrite IH.
Qed.

Lemma dict_set_keys_present {V : Type} (k : Z) (v : V) (d : Dict.t V) :
  Dict.mem k d = true -> Dict.keys (Dict.set d k v) = Dict.keys d.
Proof.
  unfold Dict.mem, Dict.keys. induction d as [| [k' v'] d IH]; cbn.
  - discriminate.
  - destruct (k' =? k); cbn; [reflexivity |]. intro H. now rewrite IH.
Qed.

Lemma dict_mem_false_not_in {V : Type} (k : Z) (d : Dict.t V) :
  Dict.mem k d = false <-> ~ In k (Dict.keys d).
Proof.
  rewrite <- dict_mem_in. destruct (Dict.mem k d); split; intro H;
    try reflexivity; try discriminate; try congruence.
Qed.

(** *** The rule of the loop *)

Lemma starts_new_cycle_iff (st : cycle_state) (ts sid : Z) :
  starts_new_cycle st ts sid = true <->
  current_cycle_start_time st = None \/
  In sid (Dict.keys (current_cycle st)) \/
  exists start, current_cycle_start_time st = Some start /\
                ts - start > CYCLE_WINDOW_MS.
Proof.
  unfold starts_new_cycle.
  destruct (current_cycle_start_time st) as [start |].
  - rewrite orb_true_iff, dict_mem_in, Z.gtb_lt. split.
    + intros [H | H]; [right; now left |].
      right; right. exists start. split; [reflexivity | lia].
    + intros [H | [H | [s [Hs H]]]]; [discriminate | now left |].
      inversion Hs. subst. right. lia.
  - split; [now left | reflexivity].
Qed.

(** C2: the five samples of the example make two cycles, keyed 505 and
    1105, the first with one reading for each of the sensors 0, 2, 5, 7 and
    the second with sensor 0; and an iteration starts a new cycle (flushing
    the open one) exactly when no cycle is open, or the sensor is already
    in the open cycle, or the sample is more than 100 ms after its start;
    otherwise the reading joins the open cycle. *)
Theorem cycle_reconstruction_example_and_rule :
  (forall x1 y1 z1 x2 y2 z2 x3 y3 z3 x4 y4 z4 x5 y5 z5 a1 a2 a3 a4 a5,
      compute_angle_from_accel x1 y1 z1 = Ok a1 ->
      compute_angle_from_accel x2 y2 z2 = Ok a2 ->
      compute_angle_from_accel x3 y3 z3 = Ok a3 ->
      compute_angle_from_accel x4 y4 z4 = Ok a4 ->
      compute_angle_from_accel x5 y5 z5 = Ok a5 ->
      group_reading_cycles
        [mk_row 505 0 x1 y1 z1; mk_row 509 2 x2 y2 z2; mk_row 513 5 x3 y3 z3;
         mk_row 529 7 x4 y4 z4; mk_row 1105 0 x5 y5 z5]
      = Ok [(505, [(0, (505, a1)); (2, (509, a2)); (5, (513, a3));
                   (7, (529, a4))]);
            (1105, [(0, (1105, a5))])])
  /\
  (forall st ts sid angle,
      (current_cycle_start_time st = None \/
       In sid (Dict.keys (current_cycle st)) \/
       exists start, current_cycle_start_time st = Some start /\
                     ts - start > CYCLE_WINDOW_MS) ->
      cycle_step st ts sid angle
      = mk_state (flush st) [(sid, (ts, angle))] (Some ts))
  /\
  (forall st ts sid angle,
      ~ (current_cycle_start_time st = None \/
         In sid (Dict.keys (current_cycle st)) \/
         exists start, current_cycle_start_time st = Some start /\
                       ts - start > CYCLE_WINDOW_MS) ->
      cycle_step st ts sid angle
      = mk_state (reading_cycles st)
                 (current_cycle st ++ [(sid, (ts, angle))])
                 (current_cycle_start_time st)).
Proof.
  split; [| split].
  - intros x1 y1 z1 x2 y2 z2 x3 y3 z3 x4 y4 z4 x5 y5 z5 a1 a2 a3 a4 a5
      H1 H2 H3 H4 H5.
    unfold group_reading_cycles. cbn [cycle_loop row_ax row_ay row_az].
    rewrite H1. cbn [bind]. rewrite H2. cbn [bind]. rewrite H3. cbn [bind].
    rewrite H4. cbn [bind]. rewrite H5. cbn [bind].
    reflexivity.
  - intros st ts sid angle H. apply starts_new_cycle_iff in H.
    unfold cycle_step. now rewrite H.
  - intros st ts sid angle H. unfold cycle_step.
    destruct (starts_new_cycle st ts sid) eqn:E.
    + exfalso. apply H. now apply starts_new_cycle_iff.
    + rewrite dict_set_absent; [reflexivity |].
      unfold starts_new_cycle in E.
      destruct (current_cycle_start_time st); [| discriminate].
      now apply orb_false_iff in E.
Qed.

Lemma cycle_reconstruction_example_and_rule_witness :
  group_reading_cycles
    [mk_row 505 0 8192 0 0; mk_row 509 2 8192 0 0; mk_row 513 5 8192 0 0;
     mk_row 529 7 8192 0 0; mk_row 1105 0 8192 0 0]
  = Ok [(505, [(0, (505, 0%R)); (2, (509, 0%R)); (5, (513, 0%R));
               (7, (529, 0%R))]);
        (1105, [(0, (1105, 0%R))])]
  /\ cycle_step init_state 505 0 0%R
     = mk_state (flush init_state) [(0, (505, 0%R))] (Some 505)
  /\ cycle_step (mk_state [] [(0, (505, 0%R))] (Some 505)) 509 2 0%R
     = mk_state [] ([(0, (505, 0%R))] ++ [(2, (509, 0%R))]) (Some 505).
Proof.
  destruct cycle_reconstruction_example_and_rule as [Hex [Hnew Hadd]].
  split; [| split].
  - apply Hex; reflexivity.
  - apply Hnew. left. reflexivity.
  - apply (Hadd (mk_state [] [(0, (505, 0%R))] (Some 505)) 509 2 0%R).
    cbn. intros [H | [[H | H] | [start [Hs H]]]].
    + discriminate.
    + discriminate.
    + exact H.
    + inversion Hs. subst start. vm_compute in H. discriminate.
Defined.

(** *** Invariants of the loop *)

Lemma flush_new (rc : list (Z * cycle)) (x : Z * (Z * R)) (ts : Z) :
  flush (mk_state rc [x] (Some ts)) = rc ++ [(ts, [x])].
Proof. reflexivity. Qed.

(** What one iteration does to the cycles that would be emitted. *)
Lemma flush_step (st : cycle_state) (ts sid : Z) (a : R) :
  let st' := cycle_step st ts sid a in
  flush st' = flush st ++ [(ts, [(sid, (ts, a))])]
  \/
  exists t0 : Z,
    current_cycle_start_time st = Some t0 /\
    ~ In sid (Dict.keys (current_cycle st)) /\
    ts - t0 <= CYCLE_WINDOW_MS /\
    flush st' = reading_cycles st
                ++ [(t0, current_cycle st ++ [(sid, (ts, a))])] /\
    (flush st = reading_cycles st ++ [(t0, current_cycle st)]
     \/ current_cycle st = [] /\ flush st = reading_cycles st).
Proof.
  cbn zeta. unfold cycle_step.
  destruct (starts_new_cycle st ts sid) eqn:E.
  - left. apply flush_new.
  - right. unfold starts_new_cycle in E.
    destruct st as [rc cur start]. cbn in *.
    destruct start as [t0 |]; [| discriminate].
    apply orb_false_iff in E. destruct E as [Hmem Hwin].
    exists t0. split; [reflexivity |].
    split; [now apply dict_mem_false_not_in |].
    split; [rewrite Z.gtb_ltb in Hwin; apply Z.ltb_ge in Hwin; exact Hwin |].
    rewrite (dict_set_absent _ _ _ Hmem). split.
    + unfold flush. cbn. now destruct cur.
    + destruct cur; [right; now split | left; reflexivity].
Qed.

Lemma Forall_flush_rc (P : Z * cycle -> Prop) (st : cycle_state) :
  Forall P (flush st) -> Forall P (reading_cycles st).
Proof.
  unfold flush.
  destruct (current_cycle st); [auto |].
  destruct (current_cycle_start_time st); [| auto].
  intro H. apply Forall_app in H. tauto.
Qed.

Lemma cycle_inv_flush (P : Z * cycle -> Prop) (st : cycle_state) :
  cycle_inv P st -> Forall P (flush st).
Proof.
  intros [Hrc Hcur]. unfold flush.
  destruct (current_cycle_start_time st) as [t0 |].
  - destruct Hcur as [Hne HP].
    destruct (current_cycle st) as [| e cur] eqn:E; [congruence |].
    apply Forall_app. split; [exact Hrc |]. constructor; [exact HP | constructor].
  - rewrite Hcur. exact Hrc.
Qed.

(** A property of cycles that holds of singletons and survives adding a
    reading the loop accepts holds of every emitted cycle.  [ok t0 r] is
    a side condition relating the start of a cycle to a later row. *)
Lemma fold_step_inv (P : Z * cycle -> Prop) (f : row -> R)
      (ok : Z -> row -> Prop) :
  (forall r, P (row_ts r, [(row_sid r, (row_ts r, f r))])) ->
  (forall t0 cur r,
      cur <> [] -> P (t0, cur) -> ~ In (row_sid r) (Dict.keys cur) ->
      row_ts r - t0 <= CYCLE_WINDOW_MS -> ok t0 r ->
      P (t0, cur ++ [(row_sid r, (row_ts r, f r))])) ->
  forall rows st,
    (forall t0 r, current_cycle_start_time st = Some t0 -> In r rows -> ok t0 r) ->
    (forall pre r post r',
        rows = pre ++ r :: post -> In r' post -> ok (row_ts r) r') ->
    cycle_inv P st ->
    cycle_inv P (fold_left (step_with f) rows st).
Proof.
  intros Hsingle Hadd. induction rows as [| r rows IH]; intros st Hok Hord Hinv.
  - exact Hinv.
  - cbn [fold_left].
    assert (Hstep : cycle_inv P (step_with f st r) /\
                    forall t0 r', current_cycle_start_time (step_with f st r) = Some t0 ->
                                  In r' rows -> ok t0 r').
    { unfold step_with, cycle_step.
      destruct (starts_new_cycle st (row_ts r) (row_sid r)) eqn:E.
      - split.
        + split; cbn.
          * now apply cycle_inv_flush.
          * split; [discriminate | apply Hsingle].
        + cbn. intros t0 r' Ht Hin. inversion Ht. subst t0.
          apply (Hord [] r rows r' eq_refl Hin).
      - unfold starts_new_cycle in E. destruct Hinv as [Hrc Hcur].
        destruct (current_cycle_start_time st) as [t0 |] eqn:Hstart; [| discriminate].
        apply orb_false_iff in E. destruct E as [Hmem Hwin].
        destruct Hcur as [Hne HP]. split.
        + split; cbn [reading_cycles current_cycle current_cycle_start_time].
          * exact Hrc.
          * rewrite (dict_set_absent _ _ _ Hmem). split.
            -- intro H. apply app_eq_nil in H. destruct H as [_ H]. discriminate.
            -- apply Hadd; auto.
               ++ now apply dict_mem_false_not_in.
               ++ rewrite Z.gtb_ltb in Hwin. now apply Z.ltb_ge in Hwin.
               ++ apply Hok; [reflexivity | now left].
        + cbn. intros t1 r' Ht Hin. apply Hok; [exact Ht | now right]. }
    destruct Hstep as [Hinv' Hok'].
    apply IH; [exact Hok' | | exact Hinv'].
    intros pre r1 post r' Heq Hin.
    apply (Hord (r :: pre) r1 post r'); [now rewrite Heq | exact Hin].
Qed.

Lemma init_state_inv (P : Z * cycle -> Prop) : cycle_inv P init_state.
Proof. split; [constructor | reflexivity]. Qed.

Lemma fold_step_Forall (P : Z * cycle -> Prop) (f : row -> R)
      (ok : Z -> row -> Prop) (rows : list row) :
  (forall r, P (row_ts r, [(row_sid r, (row_ts r, f r))])) ->
  (forall t0 cur r,
      cur <> [] -> P (t0, cur) -> ~ In (row_sid r) (Dict.keys cur) ->
      row_ts r - t0 <= CYCLE_WINDOW_MS -> ok t0 r ->
      P (t0, cur ++ [(row_sid r, (row_ts r, f r))])) ->
  (forall pre r post r',
      rows = pre ++ r :: post -> In r' post -> ok (row_ts r) r') ->
  Forall P (cycles_with f rows).
Proof.
  intros Hsingle Hadd Hord. unfold cycles_with. apply cycle_inv_flush.
  apply (fold_step_inv P f ok Hsingle Hadd rows init_state).
  - intros t0 r H. discriminate.
  - exact Hord.
  - apply init_state_inv.
Qed.

Lemma dict_keys_app {V : Type} (d d' : Dict.t V) :
  Dict.keys (d ++ d') = Dict.keys d ++ Dict.keys d'.
Proof. apply map_app. Qed.

Lemma NoDup_snoc {A : Type} (l : list A) (x : A) :
  NoDup l -> ~ In x l -> NoDup (l ++ [x]).
Proof.
  intros Hnd Hnin. induction Hnd as [| y l Hy Hnd IH]; cbn.
  - constructor; [intros [] | constructor].
  - constructor.
    + intro H. apply in_app_or in H. destruct H as [H | [H | []]].
      * contradiction.
      * apply Hnin. now left.
    + apply IH. intro H. apply Hnin. now right.
Qed.

Lemma cycles_with_no_repeats (f : row -> R) (rows : list row) :
  Forall no_sensor_repeats (cycles_with f rows).
Proof.
  apply (fold_step_Forall no_sensor_repeats f (fun _ _ => True)).
  - intro r. unfold no_sensor_repeats. cbn.
    constructor; [intros [] | constructor].
  - intros t0 cur r _ Hcur Hnin _ _. unfold no_sensor_repeats in *. cbn [snd] in *.
    rewrite dict_keys_app. now apply NoDup_snoc.
  - trivial.
Qed.

Lemma cycles_with_timeout (f : row -> R) (rows : list row) :
  Forall closes_on_timeout (cycles_with f rows).
Proof.
  apply (fold_step_Forall closes_on_timeout f (fun _ _ => True)).
  - intro r. unfold closes_on_timeout. cbn.
    constructor; [unfold CYCLE_WINDOW_MS; cbn; lia | constructor].
  - intros t0 cur r _ Hcur _ Hwin _. unfold closes_on_timeout in *. cbn [snd fst] in *.
    apply Forall_app. split; [exact Hcur |].
    constructor; [exact Hwin | constructor].
  - trivial.
Qed.

Lemma sorted_later_rows (rows pre post : list row) (r r' : row) :
  Sorted Z.le (map row_ts rows) ->
  rows = pre ++ r :: post -> In r' post -> row_ts r <= row_ts r'.
Proof.
  intros Hs -> Hin.
  apply Sorted_StronglySorted in Hs; [| intros x y z; apply Z.le_trans].
  induction pre as [| p pre IH]; cbn in Hs.
  - apply StronglySorted_inv in Hs. destruct Hs as [_ Hall].
    rewrite Forall_forall in Hall. apply Hall. now apply in_map.
  - apply StronglySorted_inv in Hs. now apply IH.
Qed.

Lemma cycles_with_not_before_start (f : row -> R) (rows : list row) :
  Sorted Z.le (map row_ts rows) ->
  Forall not_before_start (cycles_with f rows).
Proof.
  intro Hs.
  apply (fold_step_Forall not_before_start f (fun t0 r => t0 <= row_ts r)).
  - intro r. unfold not_before_start. cbn [fst snd].
    constructor; [apply Z.le_refl | constructor].
  - intros t0 cur r _ Hcur _ _ Hle. unfold not_before_start in *. cbn [snd fst] in *.
    apply Forall_app. split; [exact Hcur |].
    constructor; [exact Hle | constructor].
  - intros pre r post r'. now apply sorted_later_rows.
Qed.

(** C7 (as amended): whatever the order of the rows, every emitted cycle
    has at most one reading per sensor and no member later than 100 ms
    after the cycle's start; when the timestamps of the rows never
    decrease, no member is before the start either, so every member is
    within 100 ms of it. *)
Theorem emitted_cycles_invariant (rows : list row) (cycles : list (Z * cycle)) :
  group_reading_cycles rows = Ok cycles ->
  Forall (fun c => no_sensor_repeats c /\ closes_on_timeout c) cycles /\
  (Sorted Z.le (map row_ts rows) -> Forall within_window cycles).
Proof.
  intro H. apply group_reading_cycles_ok in H. destruct H as [_ ->].
  pose proof (cycles_with_no_repeats angle_of_row rows) as Hnd.
  pose proof (cycles_with_timeout angle_of_row rows) as Hto.
  split.
  - rewrite Forall_forall in *. intros c Hc. split; auto.
  - intro Hs. pose proof (cycles_with_not_before_start angle_of_row rows Hs) as Hnb.
    rewrite Forall_forall in *. intros c Hc.
    specialize (Hto c Hc). specialize (Hnb c Hc).
    unfold within_window, closes_on_timeout, not_before_start in *.
    rewrite Forall_forall in *. intros e He.
    specialize (Hto e He). specialize (Hnb e He). cbn beta in *. lia.
Qed.

Lemma emitted_cycles_invariant_witness :
  Forall (fun c => no_sensor_repeats c /\ closes_on_timeout c)
         [(505, [(0, (505, 0%R)); (2, (509, 0%R))]); (1105, [(0, (1105, 0%R))])]
  /\ Forall within_window
         [(505, [(0, (505, 0%R)); (2, (509, 0%R))]); (1105, [(0, (1105, 0%R))])].
Proof.
  destruct (emitted_cycles_invariant
              [mk_row 505 0 8192 0 0; mk_row 509 2 8192 0 0;
               mk_row 1105 0 8192 0 0]
              [(505, [(0, (505, 0%R)); (2, (509, 0%R))]);
               (1105, [(0, (1105, 0%R))])] eq_refl) as [H1 H2].
  split; [exact H1 | apply H2].
  cbn. repeat constructor; discriminate.
Defined.

(** C7 as stated fails when the retained rows go back in time: the row at
    350000 ms joins the cycle that started at 400000 ms. *)
Lemma out_of_order_cycle_exceeds_window :
  let rows := fst (trim (load_rows out_of_order_log)) in
  map row_ts rows = [400000; 350000] /\
  exists c, group_reading_cycles rows = Ok [c] /\
            fst c = 400000 /\ ~ within_window c.
Proof.
  split; [reflexivity |].
  exists (400000, [(0, (400000, 0%R)); (1, (350000, 0%R))]).
  split; [reflexivity |]. split; [reflexivity |].
  unfold within_window. cbn. intro H.
  inversion H as [| e l _ H2]. inversion H2 as [| e' l' H3 _].
  vm_compute in H3. now apply H3.
Qed.

(** ** Conservation of the samples *)

Lemma bind_ok {A B : Type} (m : res A) (k : A -> res B) (b : B) :
  bind m k = Ok b -> exists a, m = Ok a /\ k a = Ok b.
Proof.
  destruct m as [a | e]; cbn; intro H; [| discriminate].
  now exists a.
Qed.

Lemma readings_flush_step (st : cycle_state) (ts sid : Z) (a : R) :
  readings_of (flush (cycle_step st ts sid a))
  = readings_of (flush st) ++ [(sid, (ts, a))].
Proof.
  unfold readings_of.
  destruct (flush_step st ts sid a)
    as [Hnew | [t0 [_ [_ [_ [Hfl Hold]]]]]].
  - rewrite Hnew, flat_map_app. reflexivity.
  - rewrite Hfl, flat_map_app. cbn. rewrite app_nil_r.
    destruct Hold as [-> | [Hnil ->]].
    + rewrite flat_map_app. cbn. now rewrite app_nil_r, app_assoc.
    + now rewrite Hnil.
Qed.

Lemma readings_fold_step (f : row -> R) (rows : list row) (st : cycle_state) :
  readings_of (flush (fold_left (step_with f) rows st))
  = readings_of (flush st)
    ++ map (fun r => (row_sid r, (row_ts r, f r))) rows.
Proof.
  revert st. induction rows as [| r rows IH]; intro st; cbn [fold_left map].
  - now rewrite app_nil_r.
  - rewrite IH. unfold step_with. rewrite readings_flush_step.
    now rewrite <- app_assoc.
Qed.

(** The cycles, read one after the other, are the rows one after the
    other. *)
Lemma cycles_with_readings (f : row -> R) (rows : list row) :
  readings_of (cycles_with f rows)
  = map (fun r => (row_sid r, (row_ts r, f r))) rows.
Proof.
  unfold cycles_with. now rewrite readings_fold_step.
Qed.

(** *** The per-sensor series *)

Lemma series_of_cycle_eval (c : list (Z * (Z * R))) (sd : Dict.t (list reading)) :
  series_of_cycle sd c =
  if forallb (fun e => ts_in_range (fst (snd e))) c
  then Ok (series_with sd c) else Raise OverflowError.
Proof.
  revert sd. induction c as [| [sid [ts a]] c IH]; intro sd.
  - reflexivity.
  - cbn [series_of_cycle forallb fst snd]. unfold float_of_int, ts_in_range at 1.
    destruct (Z.abs ts <? DBL_OVERFLOW); cbn [bind andb]; [| reflexivity].
    rewrite IH. reflexivity.
Qed.

Lemma series_with_app (sd : Dict.t (list reading)) (l l' : list (Z * (Z * R))) :
  series_with sd (l ++ l') = series_with (series_with sd l) l'.
Proof. unfold series_with. apply fold_left_app. Qed.

Lemma sensor_data_from_eval (cycles : list (Z * cycle)) (sd : Dict.t (list reading)) :
  sensor_data_from sd cycles =
  if forallb (fun e => ts_in_range (fst (snd e))) (readings_of cycles)
  then Ok (series_with sd (readings_of cycles)) else Raise OverflowError.
Proof.
  revert sd. induction cycles as [| [t0 c] cycles IH]; intro sd.
  - reflexivity.
  - cbn [sensor_data_from]. unfold readings_of. cbn [flat_map snd].
    rewrite forallb_app, series_of_cycle_eval.
    destruct (forallb _ c); cbn [bind andb]; [| reflexivity].
    rewrite IH. unfold readings_of. now rewrite series_with_app.
Qed.

Lemma sensor_data_of_ok (cycles : list (Z * cycle)) (sd : Dict.t (list reading)) :
  sensor_data_of cycles = Ok sd ->
  forallb (fun e => ts_in_range (fst (snd e))) (readings_of cycles) = true /\
  sd = series_with Dict.empty (readings_of cycles).
Proof.
  unfold sensor_data_of. rewrite sensor_data_from_eval.
  destruct (forallb _ _); intro H; [| discriminate].
  inversion H. now split.
Qed.

Lemma series_append_keys (sd : Dict.t (list reading)) (sid : Z) (x : reading) :
  Dict.keys (series_append sd sid x)
  = if Dict.mem sid sd then Dict.keys sd else Dict.keys sd ++ [sid].
Proof.
  unfold series_append. destruct (Dict.mem sid sd) eqn:E.
  - now apply dict_set_keys_present.
  - rewrite (dict_set_absent _ _ _ E). now rewrite dict_keys_app.
Qed.

Lemma series_append_perm (sd : Dict.t (list reading)) (sid : Z) (x : reading) :
  Permutation (flat_map snd (series_append sd sid x)) (flat_map snd sd ++ [x]).
Proof.
  unfold series_append, Dict.get_default.
  induction sd as [| [k l] sd IH]; cbn.
  - apply Permutation_refl.
  - destruct (k =? sid); cbn.
    + rewrite <- !app_assoc. apply Permutation_app_head.
      apply Permutation_app_comm.
    + rewrite <- app_assoc. now apply Permutation_app_head.
Qed.

Lemma series_with_keys (l : list (Z * (Z * R))) (sd : Dict.t (list reading)) :
  NoDup (Dict.keys sd) ->
  NoDup (Dict.keys (series_with sd l)) /\
  forall s, In s (Dict.keys (series_with sd l))
            <-> In s (Dict.keys sd) \/ In s (map fst l).
Proof.
  revert sd. induction l as [| e l IH]; intros sd Hnd.
  - cbn. split; [exact Hnd | intro s; tauto].
  - cbn [series_with fold_left map].
    change (fold_left _ l ?d) with (series_with d l).
    assert (Hnd' : NoDup (Dict.keys (series_append sd (fst e) (reading_of_entry e)))).
    { rewrite series_append_keys. destruct (Dict.mem (fst e) sd) eqn:E; [exact Hnd |].
      apply NoDup_snoc; [exact Hnd | now apply dict_mem_false_not_in]. }
    destruct (IH _ Hnd') as [H1 H2]. split; [exact H1 |].
    intro s. rewrite H2, series_append_keys.
    destruct (Dict.mem (fst e) sd) eqn:E.
    + apply dict_mem_in in E. cbn. split.
      * intros [H | H]; auto.
      * intros [H | [<- | H]]; auto.
    + rewrite in_app_iff. cbn. tauto.
Qed.

Lemma series_with_perm (l : list (Z * (Z * R))) (sd : Dict.t (list reading)) :
  Permutation (flat_map snd (series_with sd l))
              (flat_map snd sd ++ map reading_of_entry l).
Proof.
  revert sd. induction l as [| e l IH]; intro sd.
  - cbn. now rewrite app_nil_r.
  - cbn [series_with fold_left map].
    change (fold_left _ l ?d) with (series_with d l).
    rewrite IH. rewrite series_append_perm. rewrite <- app_assoc. reflexivity.
Qed.

(** The keys of [sensor_data] are the distinct sensors of the rows. *)
Lemma sensor_count (rows : list row) (cycles : list (Z * cycle))
      (sd : Dict.t (list reading)) :
  group_reading_cycles rows = Ok cycles ->
  sensor_data_of cycles = Ok sd ->
  length sd = length (nodup Z.eq_dec (map row_sid rows)).
Proof.
  intros Hc Hsd.
  apply group_reading_cycles_ok in Hc. destruct Hc as [_ ->].
  apply sensor_data_of_ok in Hsd. destruct Hsd as [_ ->].
  rewrite cycles_with_readings.
  destruct (series_with_keys
              (map (fun r => (row_sid r, (row_ts r, angle_of_row r))) rows)
              Dict.empty) as [Hnd Hin]; [constructor |].
  rewrite <- (length_map fst (series_with _ _)).
  apply Permutation_length. apply NoDup_Permutation.
  - exact Hnd.
  - apply NoDup_nodup.
  - intro s. unfold Dict.keys in Hin. rewrite Hin, nodup_In, map_map. cbn.
    tauto.
Qed.

(** ** The analysis returns *)

Lemma cycles_with_keyed_by_first (f : row -> R) (rows : list row) :
  Forall keyed_by_first (cycles_with f rows).
Proof.
  apply (fold_step_Forall keyed_by_first f (fun _ _ => True)).
  - intro r. eexists. eexists. cbn. split; reflexivity.
  - intros t0 cur r Hne [e [rest [Hc He]]] _ _ _. cbn [snd fst] in *.
    exists e, (rest ++ [(row_sid r, (row_ts r, f r))]). rewrite Hc. now split.
  - trivial.
Qed.

Lemma cycle_start_is_row_ts (f : row -> R) (rows : list row) (t : Z) :
  In t (map fst (cycles_with f rows)) -> In t (map row_ts rows).
Proof.
  intro H. apply in_map_iff in H. destruct H as [c [<- Hc]].
  pose proof (cycles_with_keyed_by_first f rows) as Hk.
  rewrite Forall_forall in Hk. destruct (Hk c Hc) as [e [rest [Hs He]]].
  assert (Hin : In e (readings_of (cycles_with f rows))).
  { unfold readings_of. apply in_flat_map. exists c. split; [exact Hc |].
    assert (Hx : In e (e :: rest)) by now left.
    rewrite <- Hs in Hx. exact Hx. }
  rewrite cycles_with_readings in Hin. apply in_map_iff in Hin.
  destruct Hin as [r [<- Hr]]. cbn in He. rewrite <- He.
  now apply in_map.
Qed.

Lemma cycles_with_nonempty (f : row -> R) (rows : list row) :
  rows <> [] -> cycles_with f rows <> [].
Proof.
  intros Hne Hc. pose proof (cycles_with_readings f rows) as H.
  rewrite Hc in H. cbn in H. destruct rows; [congruence | discriminate].
Qed.

(** *** Sorting *)

Lemma insert_sorted_perm (x : Z) (l : list Z) :
  Permutation (insert_sorted x l) (x :: l).
Proof.
  induction l as [| y l IH]; cbn.
  - apply Permutation_refl.
  - destruct (x <=? y); [apply Permutation_refl |].
    rewrite IH. apply perm_swap.
Qed.

Lemma sorted_perm (l : list Z) : Permutation (sorted l) l.
Proof.
  induction l as [| x l IH]; cbn.
  - constructor.
  - rewrite insert_sorted_perm. now constructor.
Qed.

Lemma sorted_in (l : list Z) (x : Z) : In x (sorted l) <-> In x l.
Proof.
  split; apply Permutation_in; [apply sorted_perm |].
  apply Permutation_sym, sorted_perm.
Qed.

Lemma sorted_length (l : list Z) : length (sorted l) = length l.
Proof. apply Permutation_length, sorted_perm. Qed.

(** *** The frames *)

Lemma dict_set_keys_in {V : Type} (d : Dict.t V) (k : Z) (v : V) (x : Z) :
  In x (Dict.keys (Dict.set d k v)) <-> x = k \/ In x (Dict.keys d).
Proof.
  destruct (Dict.mem k d) eqn:E.
  - rewrite (dict_set_keys_present _ _ _ E). apply dict_mem_in in E.
    split; [auto | intros [-> | H]; auto].
  - rewrite (dict_set_absent _ _ _ E), dict_keys_app, in_app_iff. cbn.
    split; [intros [H | [H | []]]; auto | intros [H | H]; auto].
Qed.

Lemma time_frames_keys_from (cycles : list (Z * cycle)) (tf : Dict.t (Dict.t R)) (x : Z) :
  In x (Dict.keys
          (fold_left
             (fun tf c =>
                Dict.set tf (fst c)
                  (Dict.of_list (map (fun e => (fst e, snd (snd e))) (snd c))))
             cycles tf))
  <-> In x (Dict.keys tf) \/ In x (map fst cycles).
Proof.
  revert tf. induction cycles as [| c cycles IH]; intro tf; cbn [fold_left map].
  - cbn. tauto.
  - rewrite IH, dict_set_keys_in. cbn. split.
    + intros [[-> | H] | H]; auto.
    + intros [H | [<- | H]]; auto.
Qed.

Lemma time_frames_keys (cycles : list (Z * cycle)) (x : Z) :
  In x (Dict.keys (time_frames_of cycles)) <-> In x (map fst cycles).
Proof.
  unfold time_frames_of. rewrite time_frames_keys_from. cbn. tauto.
Qed.

Lemma spine_curves_of_ok (tf : Dict.t (Dict.t R)) (so tss : list Z) :
  (forall ts, In ts tss -> ts_in_range ts = true) ->
  exists curves, spine_curves_of tf so tss = Ok curves.
Proof.
  induction tss as [| ts tss IH]; intro H; cbn [spine_curves_of].
  - now exists [].
  - destruct IH as [rest Hrest]; [intros t Ht; apply H; now right |].
    destruct (Dict.mem ts tf); [| now exists rest].
    destruct (any (frame_angles_at tf so ts)); [| now exists rest].
    unfold float_of_int. specialize (H ts (or_introl eq_refl)).
    unfold ts_in_range in H. rewrite H, Hrest. cbn [bind].
    eexists. reflexivity.
Qed.

(** *** Rows that convert *)

Lemma bounds_fit :
  ACCEL_BOUND * ACCEL_BOUND + ACCEL_BOUND * ACCEL_BOUND < DBL_OVERFLOW /\
  ACCEL_BOUND < DBL_OVERFLOW /\ 10 < ACCEL_BOUND /\ 0 < ACCEL_BOUND /\
  TS_BOUND + TS_BOUND < DBL_OVERFLOW.
Proof. repeat split. Qed.

Lemma row_float_safe_in_range (r : row) :
  row_float_safe r = true ->
  row_in_range r = true /\ Z.abs (row_ts r) < TS_BOUND.
Proof.
  unfold row_float_safe, row_in_range, accel_in_range.
  rewrite !andb_true_iff, !Z.ltb_lt.
  pose proof bounds_fit as Hfit. revert Hfit.
  generalize ACCEL_BOUND DBL_OVERFLOW. intros B D.
  intros [Hsq [Hb [H10 [Hpos _]]]] [[[Ht Hx] Hy] Hz].
  split; [| exact Ht]. split.
  - set (yU := if Z.abs (row_ay r) <? deadzoneRaw then 0 else row_ay r).
    set (zU := if Z.abs (row_az r) <? deadzoneRaw then 0 else row_az r).
    assert (Hyu : Z.abs yU < B).
    { unfold yU. destruct (Z.abs (row_ay r) <? deadzoneRaw); lia. }
    assert (Hzu : Z.abs zU < B).
    { unfold zU. destruct (Z.abs (row_az r) <? deadzoneRaw); lia. }
    assert (yU * yU <= B * B) by nia.
    assert (zU * zU <= B * B) by nia.
    lia.
  - destruct (row_ax r =? 0); lia.
Qed.

Lemma last_in (l : list Z) (x d : Z) : In (List.last (x :: l) d) (x :: l).
Proof.
  revert x. induction l as [| y l IH]; intro x.
  - now left.
  - right. apply (IH y).
Qed.

Lemma time_frames_nonempty (cycles : list (Z * cycle)) :
  cycles <> [] -> sorted (Dict.keys (time_frames_of cycles)) <> [].
Proof.
  intros Hne Hs. destruct cycles as [| c cycles]; [congruence |].
  assert (Hin : In (fst c) (sorted (Dict.keys (time_frames_of (c :: cycles))))).
  { apply sorted_in, time_frames_keys. now left. }
  now rewrite Hs in Hin.
Qed.

Lemma timestamps_are_row_ts (rows : list row) (t : Z) :
  In t (sorted (Dict.keys (time_frames_of (cycles_with angle_of_row rows)))) ->
  In t (map row_ts rows).
Proof.
  intro H. apply sorted_in, time_frames_keys in H.
  now apply cycle_start_is_row_ts in H.
Qed.

Lemma safe_rows_ts (rows : list row) (t : Z) :
  forallb row_float_safe rows = true -> In t (map row_ts rows) ->
  Z.abs t < TS_BOUND.
Proof.
  intros Hs Hin. apply in_map_iff in Hin. destruct Hin as [r [<- Hr]].
  rewrite forallb_forall in Hs. now apply row_float_safe_in_range, Hs.
Qed.

Lemma ts_bound_in_range (t : Z) : Z.abs t < TS_BOUND -> ts_in_range t = true.
Proof.
  intro H. unfold ts_in_range. apply Z.ltb_lt.
  destruct bounds_fit as [_ [_ [_ [_ Hb]]]]. revert H Hb.
  generalize TS_BOUND DBL_OVERFLOW. intros. lia.
Qed.

(** Rows whose fields are within the bounds make every stage return. *)
Lemma analyze_with_succeeds (select : list Z -> list Z) (name : string)
      (rows : list row) :
  selects_among select -> rows <> [] -> forallb row_float_safe rows = true ->
  exists r, analyze_with select name rows = Ok r.
Proof.
  intros Hsel Hne Hsafe. unfold analyze_with.
  rewrite group_reading_cycles_eval.
  assert (Hr : forallb row_in_range rows = true).
  { rewrite forallb_forall in *. intros r Hin.
    now apply row_float_safe_in_range, Hsafe. }
  rewrite Hr. cbn [bind].
  unfold sensor_data_of. rewrite sensor_data_from_eval.
  assert (Hts : forallb (fun e => ts_in_range (fst (snd e)))
                        (readings_of (cycles_with angle_of_row rows)) = true).
  { rewrite cycles_with_readings, forallb_forall. intros e He.
    apply in_map_iff in He. destruct He as [r [<- Hin]]. cbn.
    apply ts_bound_in_range, (safe_rows_ts rows); [exact Hsafe | now apply in_map]. }
  rewrite Hts. cbn [bind].
  set (cycles := cycles_with angle_of_row rows).
  set (sd := series_with Dict.empty (readings_of cycles)).
  destruct (spine_curves_of_ok (time_frames_of cycles) (sorted (Dict.keys sd))
              (select (sorted (Dict.keys (time_frames_of cycles)))))
    as [curves Hcurves].
  { intros t Ht. apply Hsel in Ht. apply timestamps_are_row_ts in Ht.
    now apply ts_bound_in_range, (safe_rows_ts rows). }
  rewrite Hcurves. cbn [bind].
  pose proof (time_frames_nonempty cycles (cycles_with_nonempty _ _ Hne)) as Hnz.
  assert (Hall : forall t, In t (sorted (Dict.keys (time_frames_of cycles))) ->
                           Z.abs t < TS_BOUND).
  { intros t Ht. apply (safe_rows_ts rows); [exact Hsafe |].
    now apply timestamps_are_row_ts. }
  destruct (sorted (Dict.keys (time_frames_of cycles))) as [| t0 tss] eqn:Et;
    [congruence |].
  cbn [last_item first_item bind].
  assert (Hspan : Z.abs (List.last (t0 :: tss) t0 - t0) < DBL_OVERFLOW).
  { pose proof (Hall _ (last_in tss t0 t0)) as H1.
    pose proof (Hall t0 (or_introl eq_refl)) as H2.
    destruct bounds_fit as [_ [_ [_ [_ Hb]]]]. revert H1 H2 Hb.
    generalize TS_BOUND DBL_OVERFLOW. intros. lia. }
  rewrite (float_of_int_small _ Hspan). cbn [bind].
  eexists. reflexivity.
Qed.

Lemma sampled_timestamps_among : selects_among sampled_timestamps.
Proof.
  intros l x. unfold sampled_timestamps, slice_step.
  generalize (Nat.max 1 (length l / 500)) as k. generalize 0%nat as skip.
  induction l as [| y l IH]; intros skip k; cbn.
  - auto.
  - destruct skip.
    + intros [H | H]; [now left | right; now apply (IH _ _ H)].
    + intro H. right. now apply (IH _ _ H).
Qed.

Lemma all_timestamps_among : selects_among (fun timestamps => timestamps).
Proof. intros l x H. exact H. Qed.

Lemma load_and_analyze_with_none (select : list Z -> list Z) (name : string)
      (reader : list csv_row) :
  load_and_analyze_with select name reader = Ok None <->
  load_rows reader = [] \/ fst (trim (load_rows reader)) = [].
Proof.
  unfold load_and_analyze_with.
  destruct (load_rows reader) as [| r rows] eqn:E.
  - split; [now left | reflexivity].
  - destruct (fst (trim (r :: rows))) as [| r' rows'] eqn:Et.
    + split; [now right | reflexivity].
    + split.
      * intro H. destruct (analyze_with select name (r' :: rows')); discriminate.
      * intros [H | H]; discriminate.
Qed.

Lemma load_and_analyze_with_some (select : list Z -> list Z) (name : string)
      (reader : list csv_row) (r : analysis_result) :
  load_and_analyze_with select name reader = Ok (Some r) <->
  fst (trim (load_rows reader)) <> [] /\
  analyze_with select name (fst (trim (load_rows reader))) = Ok r.
Proof.
  unfold load_and_analyze_with.
  destruct (load_rows reader) as [| r0 rows] eqn:E.
  - split; [discriminate | intros [H _]; now contradiction H].
  - destruct (fst (trim (r0 :: rows))) as [| r' rows'] eqn:Et.
    + split; [discriminate | intros [H _]; now contradiction H].
    + split.
      * intro H. split; [discriminate |].
        destruct (analyze_with select name (r' :: rows')); cbn in H; [| discriminate].
        now inversion H.
      * intros [_ H]. now rewrite H.
Qed.

(** ** The result record *)

Lemma analyze_with_fields (select : list Z -> list Z) (name : string)
      (rows : list row) (r : analysis_result) :
  analyze_with select name rows = Ok r ->
  exists cycles sd curves,
    group_reading_cycles rows = Ok cycles /\
    sensor_data_of cycles = Ok sd /\
    spine_curves_of (time_frames_of cycles) (sorted (Dict.keys sd))
                    (select (sorted (Dict.keys (time_frames_of cycles))))
    = Ok curves /\
    sensors r = length sd /\
    samples r = length rows /\
    total_rom r = rom (flat_map (fun e => map rd_angle (snd e)) sd) /\
    spine_curves r = curves /\
    max_curvature r = max_curvature_of curves.
Proof.
  unfold analyze_with. intro H.
  apply bind_ok in H. destruct H as [cycles [Hc H]].
  apply bind_ok in H. destruct H as [sd [Hsd H]].
  apply bind_ok in H. destruct H as [curves [Hcv H]].
  apply bind_ok in H. destruct H as [t_last [_ H]].
  apply bind_ok in H. destruct H as [t_first [_ H]].
  apply bind_ok in H. destruct H as [span [_ H]].
  inversion H. subst r. clear H. cbn.
  exists cycles, sd, curves. repeat split; assumption.
Qed.

(** *** Maximum and minimum *)

Lemma fold_Rmax_spec (l : list R) (x : R) :
  (fold_left Rmax l x = x \/ In (fold_left Rmax l x) l) /\
  (x <= fold_left Rmax l x)%R /\
  forall a, In a l -> (a <= fold_left Rmax l x)%R.
Proof.
  revert x. induction l as [| y l IH]; intro x; cbn.
  - split; [now left |]. split; [lra | intros a []].
  - destruct (IH (Rmax x y)) as [Hin [Hle Hall]].
    pose proof (Rmax_l x y). pose proof (Rmax_r x y).
    split; [| split].
    + destruct Hin as [Hin | Hin]; [| auto].
      rewrite Hin. unfold Rmax. destruct (Rle_dec x y); auto.
    + lra.
    + intros a [<- | Ha]; [lra | now apply Hall].
Qed.

Lemma fold_Rmin_spec (l : list R) (x : R) :
  (fold_left Rmin l x = x \/ In (fold_left Rmin l x) l) /\
  (fold_left Rmin l x <= x)%R /\
  forall a, In a l -> (fold_left Rmin l x <= a)%R.
Proof.
  revert x. induction l as [| y l IH]; intro x; cbn.
  - split; [now left |]. split; [lra | intros a []].
  - destruct (IH (Rmin x y)) as [Hin [Hle Hall]].
    pose proof (Rmin_l x y). pose proof (Rmin_r x y).
    split; [| split].
    + destruct Hin as [Hin | Hin]; [| auto].
      rewrite Hin. unfold Rmin. destruct (Rle_dec x y); auto.
    + lra.
    + intros a [<- | Ha]; [lra | now apply Hall].
Qed.

Lemma max_float_is_max (l : list R) : l <> [] -> is_max_of (max_float l) l.
Proof.
  destruct l as [| x l]; [congruence |]. intros _. cbn.
  destruct (fold_Rmax_spec l x) as [Hin [Hle Hall]]. split.
  - destruct Hin as [-> | Hin]; [now left | now right].
  - intros a [<- | Ha]; [exact Hle | now apply Hall].
Qed.

Lemma min_float_is_min (l : list R) : l <> [] -> is_min_of (min_float l) l.
Proof.
  destruct l as [| x l]; [congruence |]. intros _. cbn.
  destruct (fold_Rmin_spec l x) as [Hin [Hle Hall]]. split.
  - destruct Hin as [-> | Hin]; [now left | now right].
  - intros a [<- | Ha]; [exact Hle | now apply Hall].
Qed.

Lemma is_max_of_perm (m : R) (l l' : list R) :
  Permutation l l' -> is_max_of m l -> is_max_of m l'.
Proof.
  intros Hp [Hin Hall]. split.
  - now apply (Permutation_in _ Hp).
  - intros a Ha. apply Hall. now apply (Permutation_in _ (Permutation_sym Hp)).
Qed.

Lemma is_min_of_perm (m : R) (l l' : list R) :
  Permutation l l' -> is_min_of m l -> is_min_of m l'.
Proof.
  intros Hp [Hin Hall]. split.
  - now apply (Permutation_in _ Hp).
  - intros a Ha. apply Hall. now apply (Permutation_in _ (Permutation_sym Hp)).
Qed.

Lemma is_max_of_unique (m m' : R) (l : list R) :
  is_max_of m l -> is_max_of m' l -> m = m'.
Proof.
  intros [Hin Hall] [Hin' Hall']. apply Rle_antisym; auto.
Qed.

Lemma is_min_of_unique (m m' : R) (l : list R) :
  is_min_of m l -> is_min_of m' l -> m = m'.
Proof.
  intros [Hin Hall] [Hin' Hall']. apply Rle_antisym; auto.
Qed.

Lemma rom_perm (l l' : list R) : Permutation l l' -> rom l = rom l'.
Proof.
  intro Hp. destruct l as [| x l].
  - apply Permutation_nil in Hp. now subst.
  - destruct l' as [| x' l'].
    + apply Permutation_sym, Permutation_nil in Hp. discriminate.
    + unfold rom. f_equal.
      * apply (is_max_of_unique _ _ (x' :: l')).
        -- apply (is_max_of_perm _ _ _ Hp). now apply max_float_is_max.
        -- now apply max_float_is_max.
      * apply (is_min_of_unique _ _ (x' :: l')).
        -- apply (is_min_of_perm _ _ _ Hp). now apply min_float_is_min.
        -- now apply min_float_is_min.
Qed.

Lemma map_flat_map {A B C : Type} (f : B -> C) (g : A -> list B) (l : list A) :
  map f (flat_map g l) = flat_map (fun x => map f (g x)) l.
Proof.
  induction l as [| x l IH]; cbn; [reflexivity |].
  now rewrite map_app, IH.
Qed.

(** The angles [all_angles] collects sensor by sensor are the angles of
    the cycles. *)
Lemma all_angles_perm (cycles : list (Z * cycle)) (sd : Dict.t (list reading)) :
  sensor_data_of cycles = Ok sd ->
  Permutation (flat_map (fun e => map rd_angle (snd e)) sd) (cycle_angles cycles).
Proof.
  intro H. apply sensor_data_of_ok in H. destruct H as [_ ->].
  rewrite <- map_flat_map. unfold cycle_angles.
  rewrite (series_with_perm (readings_of cycles) Dict.empty). cbn.
  rewrite map_map. cbn. apply Permutation_refl.
Qed.

(** C6: when the analysis returns a result, its [total_rom] is the maximum
    minus the minimum of the angles of all readings of all cycles (the
    range function of the program applied to them gives the same number),
    and [0] when there is none. *)
Theorem total_rom_is_max_minus_min (name : string) (reader : list csv_row)
        (r : analysis_result) :
  load_and_analyze_csv name reader = Ok (Some r) ->
  exists cycles,
    group_reading_cycles (fst (trim (load_rows reader))) = Ok cycles /\
    total_rom r = rom (cycle_angles cycles) /\
    (cycle_angles cycles = [] -> total_rom r = 0%R) /\
    (cycle_angles cycles <> [] ->
     exists hi lo, is_max_of hi (cycle_angles cycles) /\
                   is_min_of lo (cycle_angles cycles) /\
                   total_rom r = (hi - lo)%R).
Proof.
  intro H. apply load_and_analyze_with_some in H. destruct H as [_ H].
  apply analyze_with_fields in H.
  destruct H as [cycles [sd [curves [Hc [Hsd [_ [_ [_ [Hrom _]]]]]]]]].
  exists cycles. split; [exact Hc |].
  assert (Hr : total_rom r = rom (cycle_angles cycles)).
  { rewrite Hrom. apply rom_perm. now apply all_angles_perm. }
  split; [exact Hr |]. split.
  - intro He. rewrite Hr, He. reflexivity.
  - intro Hne. exists (max_float (cycle_angles cycles)), (min_float (cycle_angles cycles)).
    split; [now apply max_float_is_max |].
    split; [now apply min_float_is_min |].
    rewrite Hr. unfold rom. destruct (cycle_angles cycles); [congruence | reflexivity].
Qed.

(** C10: when the analysis returns a result, the readings of the emitted
    cycles, taken in order, are exactly the retained rows in order, one
    reading per row: none is dropped and none is overwritten (within a
    cycle the sensors are distinct); so the cycles hold as many readings
    as there are retained rows, and [sensors] is the number of distinct
    sensor identifiers among those rows. *)
Theorem samples_are_conserved (name : string) (reader : list csv_row)
        (r : analysis_result) :
  load_and_analyze_csv name reader = Ok (Some r) ->
  let rows := fst (trim (load_rows reader)) in
  exists cycles,
    group_reading_cycles rows = Ok cycles /\
    readings_of cycles = map reading_of_row rows /\
    Forall no_sensor_repeats cycles /\
    list_sum (map (fun c => length (snd c)) cycles) = length rows /\
    samples r = length rows /\
    sensors r = length (nodup Z.eq_dec (map row_sid rows)).
Proof.
  intro H. cbn zeta. apply load_and_analyze_with_some in H. destruct H as [_ H].
  apply analyze_with_fields in H.
  destruct H as [cycles [sd [curves [Hc [Hsd [_ [Hsens [Hsam _]]]]]]]].
  exists cycles. split; [exact Hc |].
  pose proof (sensor_count _ _ _ Hc Hsd) as Hcount.
  apply group_reading_cycles_ok in Hc. destruct Hc as [_ Hc].
  assert (Hrd : readings_of cycles
                = map reading_of_row (fst (trim (load_rows reader)))).
  { rewrite Hc. apply cycles_with_readings. }
  split; [exact Hrd |].
  split; [rewrite Hc; apply cycles_with_no_repeats |].
  split.
  - rewrite <- length_flat_map. fold (readings_of cycles).
    now rewrite Hrd, length_map.
  - split; [exact Hsam | now rewrite Hsens].
Qed.

(** *** Malformed rows *)

Lemma parse_row_none (bad : csv_row) :
  (exists col, In col required_columns /\ int_field bad col = None) ->
  parse_row bad = None.
Proof.
  intros [col [Hin Hcol]]. unfold parse_row, required_columns in *.
  cbn in Hin.
  destruct Hin as [<- | [<- | [<- | [<- | [<- | []]]]]];
    repeat (rewrite Hcol; try reflexivity);
    repeat (match goal with
            | |- context [match ?x with Some _ => _ | None => None end] =>
                destruct x; try reflexivity
            end; try (rewrite Hcol; reflexivity)).
Qed.

Lemma load_rows_app (pre post : list csv_row) :
  load_rows (pre ++ post) = load_rows pre ++ load_rows post.
Proof.
  induction pre as [| r pre IH]; cbn; [reflexivity |].
  destruct (parse_row r); cbn; now rewrite IH.
Qed.

Lemma load_rows_drops (bad : csv_row) (pre post : list csv_row) :
  parse_row bad = None -> load_rows (pre ++ bad :: post) = load_rows (pre ++ post).
Proof.
  intro H. rewrite !load_rows_app. cbn. now rewrite H.
Qed.

(** The cells [int] takes and those it refuses: blanks and decimal digits
    beyond ASCII are read, a separator such as U+001C is not a blank, and
    a text of more than 4300 digits is refused. *)
Lemma int_of_text_cells :
  int_of_text [160; 53] = Some 5 /\
  int_of_text [28; 53] = None /\
  int_of_text [32; 43; 49; 95; 48; 48; 48; 133] = Some 1000 /\
  int_of_text [45; 1641; 2407] = Some (-91) /\
  int_of_text (repeat 49 4300) <> None /\
  int_of_text (repeat 49 4301) = None.
Proof.
  repeat apply conj; try (vm_compute; reflexivity).
  vm_compute. discriminate.
Qed.

(** C8 (as amended): when the file is read to its end, the analysis
    returns [None] exactly when no row is left after parsing or none after
    trimming; otherwise, when every retained row has a timestamp below
    [2^1000] and accelerations below [2^500] in magnitude, it returns a
    result; when opening or reading the file raises, the analysis raises;
    and a row that lacks one of the five columns, or whose cell [int]
    refuses, changes nothing. *)
Theorem analysis_returns_none_or_result (name : string) (file : csv_file) :
  (load_and_analyze_file name file = Ok None <->
   file_error file = None /\
   (load_rows (file_rows file) = [] \/
    fst (trim (load_rows (file_rows file))) = [])) /\
  (file_error file = None ->
   load_rows (file_rows file) <> [] ->
   fst (trim (load_rows (file_rows file))) <> [] ->
   forallb row_float_safe (fst (trim (load_rows (file_rows file)))) = true ->
   exists r, load_and_analyze_file name file = Ok (Some r)) /\
  (forall e, file_error file = Some e ->
             load_and_analyze_file name file = Raise e) /\
  (forall bad pre post,
      file_rows file = pre ++ bad :: post ->
      (exists col, In col required_columns /\ int_field bad col = None) ->
      load_and_analyze_file name file
      = load_and_analyze_file name (mk_file (pre ++ post) (file_error file))).
Proof.
  destruct file as [reader [e |]]; unfold load_and_analyze_file;
    cbn [file_rows file_error].
  - split; [split; [discriminate | intros [H _]; discriminate] |].
    split; [discriminate |].
    split; [intros e' H; now injection H as -> | reflexivity].
  - split.
    { rewrite (load_and_analyze_with_none sampled_timestamps name reader).
      split; [intro H; now split | now intros [_ H]]. }
    split.
    { intros _ _ Hne Hsafe.
      destruct (analyze_with_succeeds sampled_timestamps name _
                  sampled_timestamps_among Hne Hsafe) as [r Hr].
      exists r. apply load_and_analyze_with_some. now split. }
    split; [discriminate |].
    intros bad pre post -> Hbad. apply parse_row_none in Hbad.
    unfold load_and_analyze_csv, load_and_analyze_with.
    now rewrite (load_rows_drops bad pre post Hbad).
Qed.

Lemma analysis_returns_none_or_result_witness :
  (exists r, load_and_analyze_file "session.csv" (mk_file out_of_order_log None)
             = Ok (Some r)) /\
  load_and_analyze_file "session.csv"
    (mk_file ([("Timestamp_ms"%string, [49; 50]);
               ("Sensor_ID"%string, [28; 53])]
              :: out_of_order_log) None)
  = load_and_analyze_file "session.csv" (mk_file out_of_order_log None) /\
  load_and_analyze_file "session.csv"
    (mk_file out_of_order_log (Some UnicodeDecodeError))
  = Raise UnicodeDecodeError.
Proof.
  destruct (analysis_returns_none_or_result "session.csv"
              (mk_file out_of_order_log None))
    as [_ [Hres _]].
  destruct (analysis_returns_none_or_result "session.csv"
              (mk_file ([("Timestamp_ms"%string, [49; 50]);
                         ("Sensor_ID"%string, [28; 53])]
                        :: out_of_order_log) None))
    as [_ [_ [_ Hbad]]].
  destruct (analysis_returns_none_or_result "session.csv"
              (mk_file out_of_order_log (Some UnicodeDecodeError)))
    as [_ [_ [Hraise _]]].
  split; [| split].
  - apply Hres; [reflexivity | discriminate | discriminate | reflexivity].
  - apply (Hbad _ [] out_of_order_log eq_refl).
    exists "Sensor_ID"%string. split; [right; now left | reflexivity].
  - now apply Hraise.
Defined.

(** C8 as stated fails on a value too large for a float: the conversion
    raises [OverflowError] out of the analysis of a file read to its
    end. *)
Lemma overflow_log_raises :
  map row_ay (fst (trim (load_rows overflow_log))) = [10 ^ 200] /\
  load_and_analyze_file "session.csv" (mk_file overflow_log None)
  = Raise OverflowError.
Proof.
  split; vm_compute; reflexivity.
Qed.

(** The log of [out_of_order_log] is analysed to a result. *)
Lemma out_of_order_log_result :
  exists r, load_and_analyze_csv "session.csv" out_of_order_log = Ok (Some r).
Proof.
  destruct (analyze_with_succeeds sampled_timestamps "session.csv"
              (fst (trim (load_rows out_of_order_log)))
              sampled_timestamps_among) as [r Hr].
  - discriminate.
  - reflexivity.
  - exists r. apply load_and_analyze_with_some. split; [discriminate | exact Hr].
Qed.

Lemma total_rom_is_max_minus_min_witness :
  exists r cycles,
    load_and_analyze_csv "session.csv" out_of_order_log = Ok (Some r) /\
    group_reading_cycles (fst (trim (load_rows out_of_order_log))) = Ok cycles /\
    total_rom r = rom (cycle_angles cycles).
Proof.
  destruct out_of_order_log_result as [r Hr].
  destruct (total_rom_is_max_minus_min "session.csv" out_of_order_log r Hr)
    as [cycles [Hc [Hrom _]]].
  exists r, cycles. repeat split; assumption.
Defined.

Lemma samples_are_conserved_witness :
  exists r,
    load_and_analyze_csv "session.csv" out_of_order_log = Ok (Some r) /\
    samples r = 2%nat /\ sensors r = 2%nat.
Proof.
  destruct out_of_order_log_result as [r Hr].
  destruct (samples_are_conserved "session.csv" out_of_order_log r Hr)
    as [cycles [_ [_ [_ [_ [Hsam Hsens]]]]]].
  exists r. split; [exact Hr |]. split; [exact Hsam | exact Hsens].
Defined.

(** ** Curve builder *)

Lemma fold_Rplus_init (l : list R) (a : R) :
  fold_left Rplus l a = (a + sum_float l)%R.
Proof.
  unfold sum_float. revert a. induction l as [| x l IH]; intro a; cbn.
  - lra.
  - rewrite (IH (a + x)%R), (IH (0 + x)%R). lra.
Qed.

Lemma sum_float_cons (x : R) (l : list R) :
  sum_float (x :: l) = (x + sum_float l)%R.
Proof.
  unfold sum_float at 1. cbn. rewrite fold_Rplus_init. lra.
Qed.

Lemma sum_float_shift (c : R) (l : list R) :
  sum_float (map (fun x => x - c)%R l)
  = (sum_float l - INR (length l) * c)%R.
Proof.
  induction l as [| x l IH].
  - cbn. unfold sum_float. cbn. lra.
  - cbn [map length]. rewrite !sum_float_cons, IH, S_INR. lra.
Qed.

Lemma sum_float_scale (c : R) (l : list R) :
  sum_float (map (fun x => x * c)%R l) = (sum_float l * c)%R.
Proof.
  induction l as [| x l IH].
  - cbn. unfold sum_float. cbn. lra.
  - cbn [map]. rewrite !sum_float_cons, IH. lra.
Qed.

Lemma INR_length_nonzero {A : Type} (l : list A) :
  l <> [] -> INR (length l) <> 0%R.
Proof.
  destruct l as [| x l]; [congruence |]. intros _.
  apply not_0_INR. discriminate.
Qed.

(** Subtracting the mean leaves a list of mean zero. *)
Lemma mean_shift_zero (l : list R) :
  l <> [] -> mean (map (fun x => x - mean l)%R l) = 0%R.
Proof.
  intro Hne. pose proof (INR_length_nonzero l Hne) as Hn.
  unfold mean. rewrite sum_float_shift, length_map. unfold mean.
  field. exact Hn.
Qed.

Lemma mean_scale (c : R) (l : list R) :
  l <> [] -> mean (map (fun x => x * c)%R l) = (mean l * c)%R.
Proof.
  intro Hne. pose proof (INR_length_nonzero l Hne) as Hn.
  unfold mean. rewrite sum_float_scale, length_map. field. exact Hn.
Qed.

Lemma center_coordinates (locs : list point) :
  locs <> [] ->
  map fst (center locs) = map (fun x => x - mean (map fst locs))%R (map fst locs) /\
  map snd (center locs) = map (fun y => y - mean (map snd locs))%R (map snd locs).
Proof.
  destruct locs as [| p locs]; [congruence |]. intros _.
  unfold center, mean. rewrite !map_map, !length_map. cbn [fst snd].
  split; reflexivity.
Qed.

Lemma integrate_length (radius x y : R) (angles : list R) :
  length (integrate radius x y angles) = length angles.
Proof.
  revert x y. induction angles as [| a angles IH]; intros x y; cbn.
  - reflexivity.
  - now rewrite IH.
Qed.

Lemma spine_locs_length (angles : list R) (spacing_cm : R) :
  length (spine_locs angles spacing_cm) = length angles.
Proof.
  unfold spine_locs.
  now rewrite length_rev, integrate_length, length_rev, length_map, length_rev.
Qed.

Lemma nonempty_length {A : Type} (l : list A) : l <> [] <-> length l <> 0%nat.
Proof.
  destruct l; cbn; split; intro H; try congruence; discriminate.
Qed.

(** C9: for a non-empty list of angles the polyline is centred, before
    the conversion to centimetres and after it: the mean of the abscissas
    and the mean of the ordinates of the points are [0] (in exact
    arithmetic), and there is one point per angle. *)
Theorem build_spine_is_centered (angles : list R) (spacing_cm : R) :
  angles <> [] ->
  let centered := center (spine_locs angles spacing_cm) in
  let output := build_spine_from_angles_spaced angles spacing_cm in
  (mean (map fst centered) = 0%R /\ mean (map snd centered) = 0%R) /\
  (mean (map fst output) = 0%R /\ mean (map snd output) = 0%R) /\
  length output = length angles.
Proof.
  intro Hne. cbn zeta.
  assert (Hlocs : spine_locs angles spacing_cm <> []).
  { apply nonempty_length. rewrite spine_locs_length. now apply nonempty_length. }
  destruct (center_coordinates _ Hlocs) as [Hx Hy].
  assert (Hfst : map fst (spine_locs angles spacing_cm) <> []).
  { apply nonempty_length. rewrite length_map. now apply nonempty_length. }
  assert (Hsnd : map snd (spine_locs angles spacing_cm) <> []).
  { apply nonempty_length. rewrite length_map. now apply nonempty_length. }
  assert (Hcx : mean (map fst (center (spine_locs angles spacing_cm))) = 0%R).
  { rewrite Hx. now apply mean_shift_zero. }
  assert (Hcy : mean (map snd (center (spine_locs angles spacing_cm))) = 0%R).
  { rewrite Hy. now apply mean_shift_zero. }
  assert (Hlen : length (center (spine_locs angles spacing_cm)) = length angles).
  { rewrite <- (length_map fst (center _)), Hx, !length_map.
    apply spine_locs_length. }
  split; [now split |].
  unfold build_spine_from_angles_spaced.
  destruct angles as [| a angles]; [congruence |].
  set (c := center (spine_locs (a :: angles) spacing_cm)) in *.
  assert (Hc : c <> []).
  { apply nonempty_length. rewrite Hlen. discriminate. }
  unfold to_cm. rewrite !map_map. cbn [fst snd].
  rewrite <- (map_map fst (fun x => x * 100)%R), <- (map_map snd (fun y => y * 100)%R).
  rewrite !mean_scale, Hcx, Hcy.
  - split; [split; lra |]. now rewrite length_map.
  - apply nonempty_length. rewrite length_map. now apply nonempty_length.
  - apply nonempty_length. rewrite length_map. now apply nonempty_length.
Qed.

Lemma build_spine_is_centered_witness :
  mean (map fst (build_spine_from_angles [0%R; 90%R; 0%R])) = 0%R /\
  mean (map snd (build_spine_from_angles [0%R; 90%R; 0%R])) = 0%R.
Proof.
  assert (Hne : [0%R; 90%R; 0%R] <> []) by discriminate.
  destruct (build_spine_is_centered [0%R; 90%R; 0%R] 9 Hne) as [_ [H _]].
  exact H.
Defined.

(** ** Evaluating the frame loop *)

Lemma spine_curves_of_eval (tf : Dict.t (Dict.t R)) (so tss : list Z) :
  (forall ts, In ts tss -> ts_in_range ts = true) ->
  spine_curves_of tf so tss
  = Ok (flat_map frame_of_entry (frames_list tf so tss)).
Proof.
  unfold frames_list.
  induction tss as [| ts tss IH]; intro H; cbn [spine_curves_of filter map flat_map].
  - reflexivity.
  - specialize (IH (fun t Ht => H t (or_intror Ht))).
    destruct (Dict.mem ts tf); [| exact IH].
    cbn [map flat_map]. unfold frame_of_entry at 1. cbn [fst snd].
    destruct (any (frame_angles_at tf so ts)); [| exact IH].
    unfold float_of_int. specialize (H ts (or_introl eq_refl)).
    unfold ts_in_range in H. rewrite H, IH. reflexivity.
Qed.

Lemma bent_log_rows : fst (trim (load_rows bent_log)) = bent_rows.
Proof. vm_compute. reflexivity. Qed.

Lemma long_log_rows : fst (trim (load_rows long_log)) = long_rows.
Proof. vm_compute. reflexivity. Qed.

Lemma analyze_with_curves (select : list Z -> list Z) (name : string)
      (rows : list row) (r : analysis_result) :
  selects_among select -> forallb row_float_safe rows = true ->
  analyze_with select name rows = Ok r ->
  spine_curves r = flat_map frame_of_entry (frames_with angle_of_row select rows) /\
  max_curvature r = max_curvature_of (spine_curves r).
Proof.
  intros Hsel Hsafe H. apply analyze_with_fields in H.
  destruct H as [cycles [sd [curves [Hc [Hsd [Hcv [_ [_ [_ [Hsc Hmax]]]]]]]]]].
  apply group_reading_cycles_ok in Hc. destruct Hc as [_ Hc].
  apply sensor_data_of_ok in Hsd. destruct Hsd as [_ Hsd].
  subst cycles sd. rewrite spine_curves_of_eval in Hcv.
  - inversion Hcv as [Hcurves]. rewrite Hmax, Hsc, <- Hcurves.
    split; reflexivity.
  - intros t Ht. apply Hsel in Ht. apply timestamps_are_row_ts in Ht.
    now apply ts_bound_in_range, (safe_rows_ts rows).
Qed.

Lemma table_angle_ok (r : row) :
  upright_or_flat r = true -> angle_of_row r = table_angle flat_angle r.
Proof.
  unfold upright_or_flat, angle_of_row, table_angle.
  rewrite orb_true_iff, !andb_true_iff, !Z.eqb_eq.
  intros [[[Hx Hy] Hz] | [[Hx Hy] Hz]]; rewrite Hx, Hy, Hz; reflexivity.
Qed.

Lemma frames_with_table (select : list Z -> list Z) (rows : list row) :
  forallb upright_or_flat rows = true ->
  frames_with angle_of_row select rows
  = frames_with (table_angle flat_angle) select rows.
Proof.
  intro H. unfold frames_with.
  rewrite (cycles_with_ext angle_of_row (table_angle flat_angle) rows).
  - reflexivity.
  - intros r Hr. apply table_angle_ok. rewrite forallb_forall in H. now apply H.
Qed.

Lemma flat_angle_pos : (0 < flat_angle)%R.
Proof.
  unfold flat_angle, angle_value.
  cbn -[math_atan2 sqrt PI IZR Rmult Rdiv].
  assert (Hs : (0 < sqrt (IZR 67108864))%R) by (apply sqrt_lt_R0; lra).
  rewrite math_atan2_pos by lra.
  assert (Ha : (0 < atan (sqrt (IZR 67108864) / IZR 10))%R).
  { apply atan_pos. apply Rdiv_lt_0_compat; lra. }
  assert (HPI := PI_RGT_0).
  apply Rdiv_lt_0_compat; lra.
Qed.

Lemma truthy_nonzero (x : R) : x <> 0%R -> truthy x = true.
Proof.
  intro H. unfold truthy. destruct (Req_dec_T x 0); [contradiction | reflexivity].
Qed.

Lemma truthy_zero : truthy 0%R = false.
Proof.
  unfold truthy. destruct (Req_dec_T 0 0); [reflexivity | congruence].
Qed.

Lemma flat_map_frames_all (l : list (Z * list R)) :
  (forall p, In p l -> any (snd p) = true) ->
  length (flat_map frame_of_entry l) = length l.
Proof.
  induction l as [| p l IH]; intro H; cbn [flat_map].
  - reflexivity.
  - rewrite length_app, IH by (intros q Hq; apply H; now right).
    unfold frame_of_entry. now rewrite (H p (or_introl eq_refl)).
Qed.

Lemma flat_map_frames_none (l : list (Z * list R)) :
  (forall p, In p l -> any (snd p) = false) ->
  flat_map frame_of_entry l = [].
Proof.
  induction l as [| p l IH]; intro H; cbn [flat_map].
  - reflexivity.
  - rewrite IH by (intros q Hq; apply H; now right).
    unfold frame_of_entry. now rewrite (H p (or_introl eq_refl)).
Qed.

(** *** The log of 501 cycles *)

Lemma long_rows_frames (theta : R) :
  frames_with (table_angle theta) sampled_timestamps long_rows
  = map (fun i => (cycle_ts i, [theta])) (seq 0 501).
Proof. vm_compute. reflexivity. Qed.

Lemma any_single_nonzero (x : R) : x <> 0%R -> any [x] = true.
Proof.
  intro H. unfold any. cbn. now rewrite (truthy_nonzero x H).
Qed.

(** C3: a log of 501 retained cycles is analysed to 501 frames, one more
    than the cap of 500: for 501 to 999 cycle timestamps the stride
    [max(1, total // 500)] is 1 and every timestamp is selected. *)
Theorem long_log_exceeds_frame_cap :
  length (fst (trim (load_rows long_log))) = 501%nat /\
  length (sampled_timestamps (map cycle_ts (seq 0 501))) = 501%nat /\
  exists r, load_and_analyze_csv "session.csv" long_log = Ok (Some r) /\
            length (spine_curves r) = 501%nat.
Proof.
  split; [rewrite long_log_rows; reflexivity |].
  split; [vm_compute; reflexivity |].
  assert (Hsafe : forallb row_float_safe long_rows = true)
    by (vm_compute; reflexivity).
  destruct (analyze_with_succeeds sampled_timestamps "session.csv" long_rows
              sampled_timestamps_among) as [r Hr];
    [discriminate | exact Hsafe |].
  exists r. split.
  - apply load_and_analyze_with_some. rewrite long_log_rows.
    split; [discriminate | exact Hr].
  - destruct (analyze_with_curves _ _ _ _ sampled_timestamps_among Hsafe Hr)
      as [Hcurves _].
    rewrite Hcurves, frames_with_table by (vm_compute; reflexivity).
    rewrite long_rows_frames, flat_map_frames_all.
    + now rewrite length_map, length_seq.
    + intros p Hp. apply in_map_iff in Hp. destruct Hp as [i [<- _]]. cbn [snd].
      apply any_single_nonzero. pose proof flat_angle_pos. lra.
Qed.

(** ** Curvature of one bent frame *)

Local Open Scope R_scope.

Lemma chord_dist_pos (first last p : point) :
  (snd last - snd first) * fst p - (fst last - fst first) * snd p
  + fst last * snd first - snd last * fst first <> 0 ->
  0 < chord_dist first last p.
Proof.
  intro Hc. unfold chord_dist.
  destruct (point_eq_dec first last) as [Heq | Hne].
  - exfalso. apply Hc. subst last. ring.
  - apply Rdiv_lt_0_compat.
    + now apply Rabs_pos_lt.
    + apply sqrt_lt_R0.
      destruct first as [fx fy], last as [lx ly]. cbn [fst snd] in *.
      assert (Hd : lx - fx <> 0 \/ ly - fy <> 0).
      { destruct (Req_dec_T lx fx) as [Hx | Hx].
        - right. intro Hy. apply Hne. f_equal; lra.
        - left. lra. }
      rewrite <- !Rsqr_pow2.
      pose proof (Rle_0_sqr (lx - fx)). pose proof (Rle_0_sqr (ly - fy)).
      destruct Hd as [Hd | Hd]; apply Rsqr_pos_lt in Hd; lra.
Qed.

Lemma bent_frame_curvature (theta : R) :
  0 < sin (math_radians (theta - 0)) ->
  0 < curve_max 0 (build_spine_from_angles [0; 0; theta]).
Proof.
  intro Hs.
  cbv [build_spine_from_angles build_spine_from_angles_spaced to_cm center
       spine_locs integrate rev map app length fst snd sum_float fold_left
       curve_max interior tl removelast List.last].
  apply Rlt_le_trans with (2 := Rmax_r _ _).
  apply chord_dist_pos. cbn [fst snd].
  assert (Hz : math_radians (0 - 0) = 0) by (unfold math_radians; lra).
  rewrite Hz, sin_0, cos_0.
  set (s := sin (math_radians (theta - 0))) in *.
  set (c := cos (math_radians (theta - 0))).
  change (INR 3) with (1 + 1 + 1).
  intro H. assert (H81 : 81 * s = 0).
  { rewrite <- H. field. }
  lra.
Qed.

Lemma flat_angle_radians :
  math_radians (flat_angle - 0) = atan (sqrt (IZR 67108864) / IZR 10).
Proof.
  unfold flat_angle, angle_value.
  cbn -[math_atan2 sqrt PI IZR Rmult Rdiv Rminus math_radians].
  assert (Hs : 0 < sqrt (IZR 67108864)) by (apply sqrt_lt_R0; lra).
  rewrite math_atan2_pos by lra.
  unfold math_radians. assert (HPI := PI_RGT_0). field. lra.
Qed.

Lemma flat_angle_sin_pos : 0 < sin (math_radians (flat_angle - 0)).
Proof.
  rewrite flat_angle_radians.
  assert (Hs : 0 < sqrt (IZR 67108864)) by (apply sqrt_lt_R0; lra).
  assert (Ht : 0 < sqrt (IZR 67108864) / IZR 10) by (apply Rdiv_lt_0_compat; lra).
  pose proof (atan_pos _ Ht) as Hpos.
  destruct (atan_bound (sqrt (IZR 67108864) / IZR 10)) as [_ Hub].
  assert (HPI := PI_RGT_0).
  apply sin_gt_0; lra.
Qed.

Local Close Scope R_scope.

(** ** Sampling and the metrics *)

Lemma readings_in_range_rows (rows : list row) (t : Z) :
  forallb (fun e => ts_in_range (fst (snd e)))
          (readings_of (cycles_with angle_of_row rows)) = true ->
  In t (map row_ts rows) -> ts_in_range t = true.
Proof.
  rewrite cycles_with_readings, forallb_forall. intros H Hin.
  apply in_map_iff in Hin. destruct Hin as [r [<- Hr]].
  apply (H (row_sid r, (row_ts r, angle_of_row r))).
  apply in_map_iff. now exists r.
Qed.

(** C4 (as amended): when the analysis returns a result, so does the
    analysis without sampling, and the two agree on duration, the four
    ranges of motion, the per-sensor ranges, the average angle and the
    movement score; [max_curvature] is computed from the sampled frames. *)
Theorem sampling_leaves_other_metrics (name : string) (reader : list csv_row)
        (r : analysis_result) :
  load_and_analyze_csv name reader = Ok (Some r) ->
  exists r',
    analyze_unsampled name reader = Ok (Some r') /\
    duration r = duration r' /\
    total_rom r = total_rom r' /\
    upper_rom r = upper_rom r' /\
    middle_rom r = middle_rom r' /\
    lower_rom r = lower_rom r' /\
    sensor_roms r = sensor_roms r' /\
    avg_angle r = avg_angle r' /\
    movement_score r = movement_score r' /\
    max_curvature r = max_curvature_of (spine_curves r).
Proof.
  intro H. apply load_and_analyze_with_some in H. destruct H as [Hne H].
  set (rows := fst (trim (load_rows reader))) in *.
  assert (Hex : exists r',
             analyze_with (fun timestamps => timestamps) name rows = Ok r' /\
             duration r = duration r' /\
             total_rom r = total_rom r' /\
             upper_rom r = upper_rom r' /\
             middle_rom r = middle_rom r' /\
             lower_rom r = lower_rom r' /\
             sensor_roms r = sensor_roms r' /\
             avg_angle r = avg_angle r' /\
             movement_score r = movement_score r' /\
             max_curvature r = max_curvature_of (spine_curves r)).
  { unfold analyze_with in *.
    apply bind_ok in H. destruct H as [cycles [Hc H]].
    apply bind_ok in H. destruct H as [sd [Hsd H]].
    apply bind_ok in H. destruct H as [curves [Hcv H]].
    apply bind_ok in H. destruct H as [t_last [Hl H]].
    apply bind_ok in H. destruct H as [t_first [Hf H]].
    apply bind_ok in H. destruct H as [span [Hspan H]].
    rewrite Hc. cbn [bind]. rewrite Hsd. cbn [bind].
    destruct (spine_curves_of_ok (time_frames_of cycles) (sorted (Dict.keys sd))
                (sorted (Dict.keys (time_frames_of cycles)))) as [curves' Hcv'].
    { intros t Ht.
      apply group_reading_cycles_ok in Hc. destruct Hc as [_ Hc]. subst cycles.
      apply sensor_data_of_ok in Hsd. destruct Hsd as [Hrange _].
      apply (readings_in_range_rows rows); [exact Hrange |].
      now apply timestamps_are_row_ts. }
    rewrite Hcv'. cbn [bind]. rewrite Hl. cbn [bind]. rewrite Hf. cbn [bind].
    rewrite Hspan. cbn [bind].
    eexists. split; [reflexivity |].
    inversion H. cbn. repeat split; reflexivity. }
  destruct Hex as [r' [Hr' Hfields]].
  exists r'. split; [| exact Hfields].
  apply load_and_analyze_with_some. now split.
Qed.

Lemma sampling_leaves_other_metrics_witness :
  exists r r',
    load_and_analyze_csv "session.csv" out_of_order_log = Ok (Some r) /\
    analyze_unsampled "session.csv" out_of_order_log = Ok (Some r') /\
    total_rom r = total_rom r' /\ movement_score r = movement_score r'.
Proof.
  destruct out_of_order_log_result as [r Hr].
  destruct (sampling_leaves_other_metrics "session.csv" out_of_order_log r Hr)
    as [r' [Hr' [_ [Hrom [_ [_ [_ [_ [_ [Hscore _]]]]]]]]]].
  exists r, r'. repeat split; assumption.
Defined.

(** *** The log of 1000 cycles with one bent frame *)

Lemma bent_rows_frames_sampled (theta : R) :
  frames_with (table_angle theta) sampled_timestamps bent_rows
  = map (fun j => (cycle_ts (2 * j), [0%R; 0%R; 0%R])) (seq 0 500).
Proof. vm_compute. reflexivity. Qed.

Lemma bent_rows_frames_all (theta : R) :
  frames_with (table_angle theta) (fun timestamps => timestamps) bent_rows
  = (cycle_ts 0, [0%R; 0%R; 0%R])
    :: (cycle_ts 1, [0%R; 0%R; theta])
    :: map (fun i => (cycle_ts i, [0%R; 0%R; 0%R])) (seq 2 998).
Proof. vm_compute. reflexivity. Qed.

Lemma any_zeros : any [0%R; 0%R; 0%R] = false.
Proof. unfold any. cbn. now rewrite truthy_zero. Qed.

Lemma any_bent (theta : R) : theta <> 0%R -> any [0%R; 0%R; theta] = true.
Proof.
  intro H. unfold any. cbn. now rewrite truthy_zero, (truthy_nonzero _ H).
Qed.

(** C4 as stated fails for [max_curvature]: of the 1000 cycles of
    [bent_log] only the second has a bent frame; the stride of 2 skips it,
    so the sampled analysis reports a curvature of 0 and the unsampled one
    a positive curvature. *)
Lemma bent_log_curvature_depends_on_sampling :
  exists r r',
    load_and_analyze_csv "session.csv" bent_log = Ok (Some r) /\
    analyze_unsampled "session.csv" bent_log = Ok (Some r') /\
    max_curvature r = 0%R /\ (0 < max_curvature r')%R.
Proof.
  assert (Hsafe : forallb row_float_safe bent_rows = true)
    by (vm_compute; reflexivity).
  assert (Htab : forallb upright_or_flat bent_rows = true)
    by (vm_compute; reflexivity).
  assert (Hflat : flat_angle <> 0%R) by (pose proof flat_angle_pos; lra).
  destruct (analyze_with_succeeds sampled_timestamps "session.csv" bent_rows
              sampled_timestamps_among) as [r Hr];
    [discriminate | exact Hsafe |].
  destruct (analyze_with_succeeds (fun timestamps => timestamps) "session.csv"
              bent_rows all_timestamps_among) as [r' Hr'];
    [discriminate | exact Hsafe |].
  exists r, r'.
  split; [apply load_and_analyze_with_some; rewrite bent_log_rows;
          split; [discriminate | exact Hr] |].
  split; [apply load_and_analyze_with_some; rewrite bent_log_rows;
          split; [discriminate | exact Hr'] |].
  split.
  - destruct (analyze_with_curves _ _ _ _ sampled_timestamps_among Hsafe Hr)
      as [Hcurves Hmax].
    rewrite Hmax, Hcurves, frames_with_table by exact Htab.
    rewrite bent_rows_frames_sampled.
    rewrite flat_map_frames_none; [reflexivity |].
    intros p Hp. apply in_map_iff in Hp. destruct Hp as [j [<- _]].
    exact any_zeros.
  - destruct (analyze_with_curves _ _ _ _ all_timestamps_among Hsafe Hr')
      as [Hcurves Hmax].
    rewrite Hmax, Hcurves, frames_with_table by exact Htab.
    rewrite bent_rows_frames_all.
    cbn [flat_map]. unfold frame_of_entry at 1 2. cbn [fst snd].
    rewrite any_zeros, (any_bent _ Hflat).
    rewrite flat_map_frames_none.
    + cbn [app max_curvature_of fold_left fr_points].
      apply bent_frame_curvature. exact flat_angle_sin_pos.
    + intros p Hp. apply in_map_iff in Hp. destruct Hp as [j [<- _]].
      exact any_zeros.
Qed.

(** ** Angle estimator: range, symmetry and failure *)

(** The angle before the corrections: [atan2] of a non-negative ordinate
    and a positive abscissa, in degrees, is in [[0, 90)]. *)
Lemma atan2_degrees_range (s x : R) :
  (0 <= s)%R -> (0 < x)%R ->
  (0 <= math_atan2 s x * 180 / PI < 90)%R.
Proof.
  intros Hs Hx. rewrite math_atan2_pos by exact Hx.
  assert (Ht : (0 <= s / x)%R).
  { apply Rmult_le_pos; [exact Hs |]. left. now apply Rinv_0_lt_compat. }
  assert (Ha : (0 <= atan (s / x))%R).
  { destruct Ht as [Ht | Ht].
    - left. now apply atan_pos.
    - rewrite <- Ht, atan_0. apply Rle_refl. }
  destruct (atan_bound (s / x)) as [_ Hub].
  assert (HPI := PI_RGT_0).
  assert (Hi : (0 < / PI)%R) by now apply Rinv_0_lt_compat.
  assert (H1 : (PI * / PI = 1)%R) by (apply Rinv_r; lra).
  unfold Rdiv in *. split; nra.
Qed.

(** The same angle is positive when the ordinate is. *)
Lemma atan2_degrees_pos (s x : R) :
  (0 < s)%R -> (0 < x)%R -> (0 < math_atan2 s x * 180 / PI)%R.
Proof.
  intros Hs Hx. rewrite math_atan2_pos by exact Hx.
  assert (Ht : (0 < s / x)%R) by now apply Rdiv_lt_0_compat.
  pose proof (atan_pos _ Ht) as Ha.
  assert (HPI := PI_RGT_0).
  apply Rdiv_lt_0_compat; lra.
Qed.

Lemma atan2_degrees_zero (x : R) :
  (0 < x)%R -> (math_atan2 0 x * 180 / PI = 0)%R.
Proof.
  intro Hx. rewrite math_atan2_pos by exact Hx.
  unfold Rdiv. rewrite Rmult_0_l, atan_0. ring.
Qed.

(** [xRaw] is never [0]. *)
Lemma xRaw_abs_pos (ax : Z) : (0 < IZR (Z.abs (if ax =? 0 then 10 else ax)))%R.
Proof.
  apply IZR_lt. destruct (ax =? 0) eqn:E; [reflexivity |].
  apply Z.eqb_neq in E. lia.
Qed.

Lemma sum_squares_nonneg (y z : Z) : (0 <= sqrt (IZR (y * y + z * z)))%R.
Proof. apply sqrt_pos. Qed.

Lemma sum_squares_pos (y z : Z) : z <> 0 -> (0 < sqrt (IZR (y * y + z * z)))%R.
Proof.
  intro Hz. apply sqrt_lt_R0. apply IZR_lt. nia.
Qed.



(** X2: the sign of [ay] never matters. *)
Theorem compute_angle_ignores_sign_of_y (ax ay az : Z) :
  compute_angle_from_accel ax (- ay) az = compute_angle_from_accel ax ay az.
Proof.
  unfold compute_angle_from_accel. rewrite Z.abs_opp.
  destruct (Z.abs ay <? deadzoneRaw); [reflexivity |].
  rewrite Z.abs_opp.
  replace (- ay * - ay) with (ay * ay) by ring.
  reflexivity.
Qed.

(** X3: the sign of the angle follows the sign of [az]: never negative
    for [az >= 0], negative for [az] at or beyond the dead zone on the
    negative side; for a negative [az] inside the dead zone it is never
    positive, except that the snap at the pole returns [180]. *)
Theorem compute_angle_sign_follows_z (ax ay az : Z) (a : R) :
  compute_angle_from_accel ax ay az = Ok a ->
  (0 <= az -> (0 <= a)%R) /\
  (az <= - deadzoneRaw -> (a < 0)%R) /\
  (az < 0 -> (a <= 0)%R \/ a = 180%R).
Proof.
  intro H. apply compute_angle_value in H. subst a.
  unfold angle_value.
  set (xRaw := if ax =? 0 then 10 else ax).
  set (yUsed := if Z.abs ay <? deadzoneRaw then 0 else ay).
  set (zUsed := if Z.abs az <? deadzoneRaw then 0 else az).
  pose proof (atan2_degrees_range _ _ (sum_squares_nonneg yUsed zUsed)
                (xRaw_abs_pos ax)) as Hr.
  fold xRaw in Hr.
  repeat split.
  - intro Hz.
    assert (E : (az <? 0) = false) by now apply Z.ltb_ge.
    rewrite E.
    destruct (_ && _ && _); [destruct (xRaw <? 0); lra |].
    destruct (xRaw <? 0); lra.
  - intro Hz. unfold deadzoneRaw in Hz.
    assert (E : (az <? 0) = true) by (apply Z.ltb_lt; lia).
    assert (Ed : (Z.abs az <? deadzoneRaw) = false).
    { apply Z.ltb_ge. unfold deadzoneRaw. lia. }
    assert (Ezu : zUsed = az) by (unfold zUsed; now rewrite Ed).
    assert (Hz0 : zUsed <> 0) by (rewrite Ezu; lia).
    pose proof (atan2_degrees_pos _ _ (sum_squares_pos yUsed zUsed Hz0)
                  (xRaw_abs_pos ax)) as Hp.
    fold xRaw in Hp.
    assert (Ep : (Z.abs zUsed <? deadzoneRaw) = false) by (rewrite Ezu; exact Ed).
    rewrite E, Ep, andb_false_r.
    destruct (xRaw <? 0); lra.
  - intro Hz.
    assert (E : (az <? 0) = true) by now apply Z.ltb_lt.
    rewrite E.
    destruct (_ && _ && _).
    + destruct (xRaw <? 0); [now right | left; lra].
    + left. destruct (xRaw <? 0); lra.
Qed.

Lemma compute_angle_sign_follows_z_witness :
  (angle_value 100 300 (-400) < 0)%R.
Proof.
  assert (Hr : accel_in_range 100 300 (-400) = true) by (vm_compute; reflexivity).
  apply (compute_angle_sign_follows_z 100 300 (-400) _
           (compute_angle_in_range 100 300 (-400) Hr)).
  unfold deadzoneRaw. lia.
Defined.

(** X4: with [ay] and [az] both inside the dead zone the estimator returns
    [0] for [ax >= 0] and [180] or [-180] for [ax < 0]: [-180] when [az] is
    negative and [|ax|] is at most the pole threshold [8028], [180]
    otherwise.  (For [ax >= 0] and [az < 0] below the pole the value is the
    negation of [0].) *)
Theorem compute_angle_in_dead_zone (ax ay az : Z) :
  Z.abs ay < deadzoneRaw -> Z.abs az < deadzoneRaw -> Z.abs ax < DBL_OVERFLOW ->
  compute_angle_from_accel ax ay az
  = Ok (if ax <? 0
        then if (az <? 0) && (Z.abs ax <=? poleRaw) then (-180)%R else 180%R
        else 0%R).
Proof.
  intros Hy Hz Hfin.
  assert (Hy' := Hy). assert (Hz' := Hz).
  apply Z.ltb_lt in Hy', Hz'.
  rewrite compute_angle_in_range.
  - f_equal. unfold angle_value. rewrite Hy', Hz'.
    change (Z.abs 0 <? deadzoneRaw) with true. rewrite !andb_true_r.
    change (IZR (0 * 0 + 0 * 0)) with 0%R. rewrite sqrt_0.
    rewrite (atan2_degrees_zero _ (xRaw_abs_pos ax)).
    destruct (ax =? 0) eqn:E0.
    + apply Z.eqb_eq in E0. subst ax. cbn [Z.ltb Z.compare Z.abs Z.gtb].
      destruct (az <? 0); cbn; lra.
    + apply Z.eqb_neq in E0.
      rewrite Z.gtb_ltb.
      destruct (ax <? 0) eqn:En.
      * destruct (poleRaw <? Z.abs ax) eqn:Ep.
        -- apply Z.ltb_lt in Ep.
           assert (El : (Z.abs ax <=? poleRaw) = false) by (apply Z.leb_gt; lia).
           now rewrite El, andb_false_r.
        -- apply Z.ltb_ge in Ep.
           assert (El : (Z.abs ax <=? poleRaw) = true) by (apply Z.leb_le; lia).
           rewrite El, andb_true_r.
           destruct (az <? 0); [f_equal; lra | lra].
      * destruct (poleRaw <? Z.abs ax); [reflexivity |].
        destruct (az <? 0); lra.
  - unfold accel_in_range. rewrite Hy', Hz'.
    apply Z.ltb_lt in Hfin.
    destruct (ax =? 0) eqn:E0; [reflexivity |].
    now rewrite Hfin.
Qed.

Lemma compute_angle_in_dead_zone_witness :
  compute_angle_from_accel (-8028) 10 (-10) = Ok (-180)%R /\
  compute_angle_from_accel (-8029) 10 (-10) = Ok 180%R.
Proof.
  split.
  - apply (compute_angle_in_dead_zone (-8028) 10 (-10)); vm_compute; reflexivity.
  - apply (compute_angle_in_dead_zone (-8029) 10 (-10)); vm_compute; reflexivity.
Defined.

(** X5: the estimator fails only with [OverflowError] (never with the
    [ValueError] of [math.sqrt]: the sum of squares is not negative), and
    only when a component is at least [2^500] in magnitude; it does fail
    when [|ax|] is too large to be converted to a float. *)
Theorem compute_angle_raises_only_on_overflow (ax ay az : Z) :
  (forall e, compute_angle_from_accel ax ay az = Raise e ->
             e = OverflowError /\
             (ACCEL_BOUND <= Z.abs ax \/ ACCEL_BOUND <= Z.abs ay \/
              ACCEL_BOUND <= Z.abs az)) /\
  (DBL_OVERFLOW <= Z.abs ax ->
   compute_angle_from_accel ax ay az = Raise OverflowError).
Proof.
  split.
  - intros e H. destruct (accel_in_range ax ay az) eqn:Hr.
    + rewrite (compute_angle_in_range _ _ _ Hr) in H. discriminate.
    + rewrite (compute_angle_out_of_range _ _ _ Hr) in H.
      split; [now inversion H |].
      destruct (Z_lt_le_dec (Z.abs ax) ACCEL_BOUND) as [Hx | Hx]; [| now left].
      destruct (Z_lt_le_dec (Z.abs ay) ACCEL_BOUND) as [Hy | Hy];
        [| now right; left].
      destruct (Z_lt_le_dec (Z.abs az) ACCEL_BOUND) as [Hz | Hz];
        [| now right; right].
      exfalso.
      assert (Hs : row_float_safe (mk_row 0 0 ax ay az) = true).
      { unfold row_float_safe. cbn [row_ts row_ax row_ay row_az].
        apply Z.ltb_lt in Hx, Hy, Hz. now rewrite Hx, Hy, Hz. }
      apply row_float_safe_in_range in Hs. destruct Hs as [Hs _].
      unfold row_in_range in Hs. cbn [row_ax row_ay row_az] in Hs.
      congruence.
  - intro Hx. apply compute_angle_out_of_range.
    unfold accel_in_range.
    assert (E0 : (ax =? 0) = false).
    { apply Z.eqb_neq. intro E. subst ax. vm_compute in Hx. now apply Hx. }
    rewrite E0.
    assert (E : (Z.abs ax <? DBL_OVERFLOW) = false) by now apply Z.ltb_ge.
    rewrite E. apply andb_false_r.
Qed.

(** ** Curve builder: shape of the polyline *)

Local Open Scope R_scope.

Lemma spine_locs_eq (angles : list R) (spacing_cm : R) :
  spine_locs angles spacing_cm
  = rev (integrate (spacing_cm / 100) 0
                   (- INR (length angles) * (spacing_cm / 100) * (5 / 10))
                   (map (fun a => a - 0) angles)).
Proof.
  unfold spine_locs. now rewrite map_rev, rev_involutive.
Qed.

Lemma integrate_translate (r x y u v : R) (l : list R) :
  integrate r (x + u) (y + v) l = map (translate u v) (integrate r x y l).
Proof.
  revert x y. induction l as [| a l IH]; intros x y; cbn [integrate map]; cbv zeta.
  - reflexivity.
  - apply (f_equal2 (@cons point)).
    + unfold translate. cbn [fst snd]. f_equal; lra.
    + rewrite <- IH. f_equal; lra.
Qed.

Lemma sum_float_app (l l' : list R) :
  sum_float (l ++ l') = sum_float l + sum_float l'.
Proof.
  unfold sum_float at 1. rewrite fold_left_app, fold_Rplus_init.
  unfold sum_float. lra.
Qed.

Lemma sum_float_rev (l : list R) : sum_float (rev l) = sum_float l.
Proof.
  induction l as [| x l IH]; [reflexivity |].
  cbn [rev]. rewrite sum_float_app, IH, !sum_float_cons.
  unfold sum_float at 2. cbn. lra.
Qed.

Lemma sum_float_plus {A : Type} (f : A -> R) (c : R) (l : list A) :
  sum_float (map (fun x => f x + c) l)
  = sum_float (map f l) + INR (length l) * c.
Proof.
  induction l as [| x l IH].
  - cbn. unfold sum_float. cbn. lra.
  - cbn [map length]. rewrite !sum_float_cons, IH, S_INR. lra.
Qed.

Lemma sum_float_opp {A : Type} (f : A -> R) (l : list A) :
  sum_float (map (fun x => - f x) l) = - sum_float (map f l).
Proof.
  induction l as [| x l IH].
  - cbn. unfold sum_float. cbn. lra.
  - cbn [map]. rewrite !sum_float_cons, IH. lra.
Qed.

Lemma center_nonempty (locs : list point) :
  locs <> [] ->
  center locs
  = map (fun loc => (fst loc - mean (map fst locs),
                     snd loc - mean (map snd locs))) locs.
Proof.
  destruct locs as [| p locs]; [congruence |]. intros _.
  unfold center, mean. now rewrite !length_map.
Qed.

Lemma map_nonempty {A B : Type} (f : A -> B) (l : list A) :
  l <> [] -> map f l <> [].
Proof. destruct l; [congruence | discriminate]. Qed.

Lemma rev_nonempty {A : Type} (l : list A) : l <> [] -> rev l <> [].
Proof.
  intros H E. apply H. rewrite <- (rev_involutive l), E. reflexivity.
Qed.

Lemma center_translate (u v : R) (l : list point) :
  center (map (translate u v) l) = center l.
Proof.
  destruct l as [| p l]; [reflexivity |].
  set (L := p :: l). assert (Hne : L <> []) by discriminate. clearbody L.
  rewrite (center_nonempty _ (map_nonempty _ _ Hne)), (center_nonempty _ Hne).
  pose proof (INR_length_nonzero L Hne) as Hn.
  rewrite map_map. apply map_ext. intro q.
  unfold mean. rewrite !map_map, !length_map. unfold translate. cbn [fst snd].
  assert (Hx : sum_float (map (fun x : point => fst x + u) L)
               = sum_float (map fst L) + INR (length L) * u)
    by apply (sum_float_plus (@fst R R)).
  assert (Hy : sum_float (map (fun x : point => snd x + v) L)
               = sum_float (map snd L) + INR (length L) * v)
    by apply (sum_float_plus (@snd R R)).
  rewrite Hx, Hy. unfold point in *.
  f_equal; field; exact Hn.
Qed.

Lemma center_rev (l : list point) : center (rev l) = rev (center l).
Proof.
  destruct l as [| p l]; [reflexivity |].
  set (L := p :: l). assert (Hne : L <> []) by discriminate. clearbody L.
  rewrite (center_nonempty _ (rev_nonempty _ Hne)), (center_nonempty _ Hne).
  rewrite <- map_rev. unfold mean.
  now rewrite !map_rev, !sum_float_rev, !length_rev.
Qed.

Lemma center_mirror (l : list point) :
  center (map mirror l) = map mirror (center l).
Proof.
  destruct l as [| p l]; [reflexivity |].
  set (L := p :: l). assert (Hne : L <> []) by discriminate. clearbody L.
  rewrite (center_nonempty _ (map_nonempty _ _ Hne)), (center_nonempty _ Hne).
  pose proof (INR_length_nonzero L Hne) as Hn.
  rewrite !map_map. apply map_ext. intro q.
  unfold mean. rewrite ?map_map, !length_map. unfold mirror. cbn [fst snd].
  assert (Hx : sum_float (map (fun x : point => - fst x) L)
               = - sum_float (map fst L))
    by apply (sum_float_opp (@fst R R)).
  rewrite Hx. unfold point in *.
  f_equal. field. exact Hn.
Qed.

Lemma to_cm_mirror (l : list point) : to_cm (map mirror l) = map mirror (to_cm l).
Proof.
  unfold to_cm. rewrite !map_map. apply map_ext. intro q.
  unfold mirror. cbn [fst snd]. f_equal. lra.
Qed.

(** The output is the centred shape drawn from the origin: neither the
    starting point of the integration nor the first angle is in it. *)
Lemma build_spine_shape (angles : list R) (spacing_cm : R) :
  angles <> [] ->
  build_spine_from_angles_spaced angles spacing_cm
  = to_cm (center (spine_shape angles (spacing_cm / 100))).
Proof.
  destruct angles as [| a rest]; [congruence |]. intros _.
  unfold build_spine_from_angles_spaced, spine_shape.
  rewrite spine_locs_eq. cbn [tl map integrate]. cbv zeta.
  set (r := spacing_cm / 100).
  set (u := 0 + r * sin (math_radians (a - 0))).
  set (v := - INR (length (a :: rest)) * r * (5 / 10)
            + r * cos (math_radians (a - 0))).
  set (A := map (fun a0 => a0 - 0) rest).
  assert (E : (u, v) :: integrate r u v A
              = map (translate u v) ((0, 0) :: integrate r 0 0 A)).
  { cbn [map]. apply (f_equal2 (@cons point)).
    - unfold translate. cbn [fst snd]. f_equal; lra.
    - rewrite <- integrate_translate. f_equal; lra. }
  rewrite E, <- map_rev, center_translate. reflexivity.
Qed.

Lemma build_spine_length (angles : list R) (spacing_cm : R) :
  length (build_spine_from_angles_spaced angles spacing_cm) = length angles.
Proof.
  destruct angles as [| a rest]; [reflexivity |].
  rewrite build_spine_shape by discriminate.
  unfold to_cm, spine_shape. rewrite length_map.
  rewrite <- (length_map fst (center _)).
  destruct (center_coordinates (rev ((0, 0) :: integrate (spacing_cm / 100) 0 0
                                       (map (fun a0 => a0 - 0) (tl (a :: rest))))))
    as [Hx _].
  { apply rev_nonempty. discriminate. }
  rewrite Hx, !length_map, length_rev. cbn [length tl].
  now rewrite integrate_length, length_map.
Qed.

(** X6: the first angle of the list has no influence on the polyline,
    and the polyline of a single angle is the single point at the
    origin. *)
Theorem build_spine_ignores_first_angle (a b : R) (rest : list R)
        (spacing_cm : R) :
  build_spine_from_angles_spaced (a :: rest) spacing_cm
  = build_spine_from_angles_spaced (b :: rest) spacing_cm /\
  build_spine_from_angles_spaced [a] spacing_cm = [(0, 0)].
Proof.
  split.
  - rewrite !build_spine_shape by discriminate. reflexivity.
  - rewrite build_spine_shape by discriminate.
    unfold spine_shape, to_cm, center, sum_float.
    cbn [tl map integrate rev app length fold_left fst snd INR].
    f_equal. f_equal; field.
Qed.

(** One step of the integration loop. *)
Lemma integrate_nth_step (r : R) (A : list R) (x y : R) (i : nat) (d : point) :
  (i < length A)%nat ->
  let Q := (x, y) :: integrate r x y A in
  nth (S i) Q d
  = (fst (nth i Q d) + r * sin (math_radians (nth i A 0)),
     snd (nth i Q d) + r * cos (math_radians (nth i A 0))).
Proof.
  cbn zeta. revert x y i.
  induction A as [| a A IH]; intros x y i Hi; cbn [length] in Hi; [lia |].
  destruct i as [| i].
  - reflexivity.
  - cbn [integrate]. cbv zeta. cbn [nth] in *.
    specialize (IH (x + r * sin (math_radians a)) (y + r * cos (math_radians a))
                   i ltac:(lia)).
    cbn [nth] in IH. destruct i; exact IH.
Qed.

(** The segment from a point of the output to the next one. *)
Lemma build_spine_segment (angles : list R) (spacing_cm : R) (j : nat) :
  (S j < length angles)%nat ->
  let output := build_spine_from_angles_spaced angles spacing_cm in
  let p := nth j output (0, 0) in
  let q := nth (S j) output (0, 0) in
  let a := nth (length angles - 1 - j) angles 0 in
  fst p - fst q = spacing_cm * sin (math_radians a) /\
  snd p - snd q = spacing_cm * cos (math_radians a).
Proof.
  intro Hj. cbn zeta.
  destruct angles as [| a0 rest]; [cbn in Hj; lia |].
  cbn [length] in Hj.
  rewrite build_spine_shape by discriminate.
  unfold spine_shape. cbn [tl].
  set (r := spacing_cm / 100).
  set (A := map (fun a => a - 0) rest).
  set (Q := (0, 0) :: integrate r 0 0 A).
  assert (HlenA : length A = length rest) by (unfold A; apply length_map).
  assert (HlenQ : length Q = S (length rest)).
  { unfold Q. cbn [length]. now rewrite integrate_length, HlenA. }
  assert (Hne : rev Q <> []) by (apply rev_nonempty; discriminate).
  rewrite (center_nonempty _ Hne). unfold to_cm. rewrite map_map.
  set (mx := mean (map fst (rev Q))). set (my := mean (map snd (rev Q))).
  set (g := fun x : point =>
              (fst (fst x - mx, snd x - my) * 100,
               snd (fst x - mx, snd x - my) * 100)).
  set (d := (mx, my)).
  assert (Hg : g d = (0, 0)).
  { unfold g, d. cbn [fst snd]. f_equal; lra. }
  rewrite <- Hg, !map_nth.
  rewrite !rev_nth by lia. rewrite HlenQ.
  set (i := (length rest - S j)%nat).
  replace (S (length rest) - S (S j))%nat with i by lia.
  replace (S (length rest) - S j)%nat with (S i) by lia.
  pose proof (integrate_nth_step r A 0 0 i d ltac:(lia)) as Hstep.
  cbn zeta in Hstep. fold Q in Hstep. rewrite Hstep.
  assert (Ha : nth i A 0 = nth (length (a0 :: rest) - 1 - j) (a0 :: rest) 0 - 0).
  { cbn [length].
    replace (S (length rest) - 1 - j)%nat with (S i) by lia.
    cbn [nth]. unfold A.
    rewrite (nth_indep _ 0 (0 - 0)) by (rewrite length_map; lia).
    apply (map_nth (fun a => a - 0)). }
  rewrite Ha, Rminus_0_r. unfold g, r. cbn [fst snd].
  split; field.
Qed.

(** X7: every segment of the output has the length of the sensor
    spacing and the direction of one angle: the step from point [j + 1] to
    point [j] is [spacing_cm * (sin a, cos a)] for [a] the angle at index
    [n - 1 - j], in degrees. *)
Theorem build_spine_segments (angles : list R) (spacing_cm : R) (j : nat) :
  (S j < length angles)%nat ->
  let output := build_spine_from_angles_spaced angles spacing_cm in
  let p := nth j output (0, 0) in
  let q := nth (S j) output (0, 0) in
  let a := nth (length angles - 1 - j) angles 0 in
  fst p - fst q = spacing_cm * sin (math_radians a) /\
  snd p - snd q = spacing_cm * cos (math_radians a) /\
  (fst p - fst q) ^ 2 + (snd p - snd q) ^ 2 = spacing_cm ^ 2.
Proof.
  intro Hj. cbn zeta.
  destruct (build_spine_segment angles spacing_cm j Hj) as [Hx Hy].
  cbn zeta in Hx, Hy.
  split; [exact Hx |]. split; [exact Hy |].
  rewrite Hx, Hy.
  set (t := math_radians _).
  pose proof (sin2_cos2 t) as H. unfold Rsqr in H.
  replace ((spacing_cm * sin t) ^ 2 + (spacing_cm * cos t) ^ 2)
    with (spacing_cm ^ 2 * (sin t * sin t + cos t * cos t)) by ring.
  rewrite H. ring.
Qed.

Lemma build_spine_segments_witness :
  let output := build_spine_from_angles_spaced [10; 20; 30] 9 in
  (fst (nth 0 output (0, 0)) - fst (nth 1 output (0, 0))) ^ 2
  + (snd (nth 0 output (0, 0)) - snd (nth 1 output (0, 0))) ^ 2 = 9 ^ 2.
Proof.
  cbn zeta.
  apply (build_spine_segments [10; 20; 30] 9 0).
  cbn [length]. lia.
Defined.

Lemma integrate_mirror (r x y : R) (l : list R) :
  integrate r (- x) y (map (fun a => a - 0) (map Ropp l))
  = map mirror (integrate r x y (map (fun a => a - 0) l)).
Proof.
  revert x y. induction l as [| a l IH]; intros x y; cbn [integrate map]; cbv zeta.
  - reflexivity.
  - assert (Hr : math_radians (- a - 0) = - math_radians (a - 0)).
    { unfold math_radians. ring. }
    rewrite Hr, sin_neg, cos_neg.
    apply (f_equal2 (@cons point)).
    + unfold mirror. cbn [fst snd]. f_equal. ring.
    + rewrite <- IH. f_equal. ring.
Qed.

(** X8: negating every angle reflects the polyline in the vertical
    axis. *)
Theorem build_spine_mirror (angles : list R) (spacing_cm : R) :
  build_spine_from_angles_spaced (map Ropp angles) spacing_cm
  = map mirror (build_spine_from_angles_spaced angles spacing_cm).
Proof.
  destruct angles as [| a rest]; [reflexivity |].
  unfold build_spine_from_angles_spaced. cbn [map].
  rewrite !spine_locs_eq.
  change (- a :: map Ropp rest) with (map Ropp (a :: rest)).
  rewrite length_map.
  replace 0 with (- 0) at 1 by ring.
  rewrite integrate_mirror, <- map_rev, center_mirror, to_cm_mirror.
  reflexivity.
Qed.

(** *** Equal angles: a straight line *)

Lemma in_removelast {A : Type} (l : list A) (x : A) :
  In x (removelast l) -> In x l.
Proof.
  induction l as [| y l IH]; [intros [] |].
  cbn [removelast]. destruct l as [| z l]; [intros [] |].
  intros [H | H]; [now left | right; now apply IH].
Qed.

Lemma in_interior {A : Type} (l : list A) (x : A) : In x (interior l) -> In x l.
Proof.
  unfold interior. intro H. apply in_removelast in H.
  destruct l; [exact H | now right].
Qed.

Lemma last_nth {A : Type} (l : list A) (x d : A) :
  List.last (x :: l) d = nth (length l) (x :: l) d.
Proof.
  revert x. induction l as [| y l IH]; intro x; [reflexivity |].
  cbn [length]. change (List.last (x :: y :: l) d) with (List.last (y :: l) d).
  rewrite IH. reflexivity.
Qed.

Lemma fold_Rmax_zeros {A : Type} (f : A -> R) (l : list A) (m : R) :
  0 <= m -> (forall x, In x l -> f x = 0) ->
  fold_left (fun m x => Rmax m (f x)) l m = m.
Proof.
  intros Hm. induction l as [| x l IH]; intro H; cbn [fold_left].
  - reflexivity.
  - rewrite (H x (or_introl eq_refl)), Rmax_left by exact Hm.
    apply IH. intros y Hy. apply H. now right.
Qed.

(** With equal angles the points are equally spaced on a line. *)
Lemma equal_angles_points (angles : list R) (spacing_cm theta : R) (j : nat) :
  (forall a, In a angles -> a = theta) ->
  (j < length angles)%nat ->
  let output := build_spine_from_angles_spaced angles spacing_cm in
  nth j output (0, 0)
  = (fst (nth 0 output (0, 0)) - INR j * (spacing_cm * sin (math_radians theta)),
     snd (nth 0 output (0, 0)) - INR j * (spacing_cm * cos (math_radians theta))).
Proof.
  intros Heq. cbn zeta. induction j as [| j IH]; intro Hj.
  - cbn [INR]. rewrite !Rmult_0_l, !Rminus_0_r.
    now destruct (nth 0 _ _).
  - destruct (build_spine_segment angles spacing_cm j Hj) as [Hx Hy].
    cbn zeta in Hx, Hy.
    assert (Ha : nth (length angles - 1 - j) angles 0 = theta).
    { apply Heq, nth_In. lia. }
    rewrite Ha in Hx, Hy.
    specialize (IH ltac:(lia)). rewrite IH in Hx, Hy. cbn [fst snd] in Hx, Hy.
    rewrite S_INR.
    destruct (nth (S j) _ _) as [qx qy]. cbn [fst snd] in Hx, Hy.
    f_equal; lra.
Qed.

Lemma chord_dist_collinear (first p : point) (vx vy k j : R) :
  chord_dist first (fst first - k * vx, snd first - k * vy)
             (fst first - j * vx, snd first - j * vy) = 0.
Proof.
  unfold chord_dist.
  destruct (point_eq_dec _ _); [reflexivity |].
  cbn [fst snd].
  match goal with
  | |- Rabs ?n / _ = 0 => replace n with 0 by ring
  end.
  rewrite Rabs_R0. unfold Rdiv. apply Rmult_0_l.
Qed.

(** X9: a frame whose angles are all equal is a straight line and adds
    nothing to the running maximum of the curvature. *)
Theorem equal_angles_add_no_curvature (angles : list R) (theta m : R) :
  (forall a, In a angles -> a = theta) -> 0 <= m ->
  curve_max m (build_spine_from_angles angles) = m.
Proof.
  intros Heq Hm. unfold build_spine_from_angles.
  set (output := build_spine_from_angles_spaced angles 9).
  assert (Hlen : length output = length angles) by apply build_spine_length.
  assert (Hpts : forall j, (j < length angles)%nat ->
            nth j output (0, 0)
            = (fst (nth 0 output (0, 0)) - INR j * (9 * sin (math_radians theta)),
               snd (nth 0 output (0, 0)) - INR j * (9 * cos (math_radians theta)))).
  { intros j Hj. now apply equal_angles_points. }
  clearbody output.
  unfold curve_max.
  destruct output as [| first [| second rest]] eqn:Eo; [reflexivity .. |].
  rewrite <- Eo in Hlen, Hpts |- *.
  apply fold_Rmax_zeros; [exact Hm |].
  intros p Hp. apply in_interior in Hp.
  apply (In_nth _ _ (0, 0)) in Hp. destruct Hp as [j [Hj <-]].
  assert (Hfirst : nth 0 output (0, 0) = first) by (rewrite Eo; reflexivity).
  assert (Hlast : List.last output first
                  = nth (length output - 1) output (0, 0)).
  { rewrite Eo. cbn [length].
    rewrite (nth_indep _ (0, 0) first) by (unfold point; cbn [length]; lia).
    replace (S (S (length rest)) - 1)%nat with (length (second :: rest))
      by (cbn [length]; lia).
    apply last_nth. }
  rewrite Hlast. unfold point in *.
  rewrite (Hpts j) by lia.
  rewrite (Hpts (length output - 1)%nat) by lia.
  rewrite Hfirst.
  apply chord_dist_collinear. exact first.
Qed.

Lemma equal_angles_add_no_curvature_witness :
  curve_max 0 (build_spine_from_angles [30; 30; 30; 30]) = 0.
Proof.
  apply (equal_angles_add_no_curvature [30; 30; 30; 30] 30 0).
  - intros a Ha. cbn [In] in Ha.
    destruct Ha as [H | [H | [H | [H | []]]]]; now symmetry.
  - apply Rle_refl.
Defined.

Local Close Scope R_scope.

(** ** Trimming: what is kept and what is removed *)

Lemma fold_max_ge_init (l : list Z) (x : Z) : x <= fold_left Z.max l x.
Proof.
  revert x. induction l as [| y l IH]; intro x; cbn.
  - lia.
  - specialize (IH (Z.max x y)). lia.
Qed.

Lemma fold_max_ge_in (l : list Z) (x y : Z) :
  In y l -> y <= fold_left Z.max l x.
Proof.
  revert x. induction l as [| z l IH]; intros x Hin; cbn.
  - contradiction.
  - destruct Hin as [-> | Hin].
    + pose proof (fold_max_ge_init l (Z.max x y)). lia.
    + now apply IH.
Qed.

Lemma fold_max_in (l : list Z) (x : Z) :
  fold_left Z.max l x = x \/ In (fold_left Z.max l x) l.
Proof.
  revert x. induction l as [| y l IH]; intro x; cbn.
  - now left.
  - destruct (IH (Z.max x y)) as [H | H].
    + rewrite H. destruct (Z.max_spec x y) as [[_ E] | [_ E]]; rewrite E; auto.
    + auto.
Qed.

Lemma max_int_in (l : list Z) : l <> [] -> In (max_int l) l.
Proof.
  destruct l as [| x l]; [congruence |]. intros _. cbn.
  destruct (fold_max_in l x) as [H | H]; [left; now rewrite H | now right].
Qed.

Lemma max_int_ge (l : list Z) (y : Z) : In y l -> y <= max_int l.
Proof.
  destruct l as [| x l]; [contradiction |]. intros [-> | H]; cbn.
  - apply fold_max_ge_init.
  - now apply fold_max_ge_in.
Qed.

Lemma rows_ts_nonempty (rows : list row) : rows <> [] -> map row_ts rows <> [].
Proof. destruct rows; [congruence | discriminate]. Qed.

(** X10: the rows kept are those whose timestamp is at least five minutes
    after the earliest timestamp of the file and at least five minutes
    before the latest one (by value, wherever the rows stand in the
    file), in their original order. *)
Theorem trim_keeps_the_middle (rows : list row) :
  rows <> [] ->
  exists lo hi,
    In lo (map row_ts rows) /\ In hi (map row_ts rows) /\
    (forall r, In r rows -> lo <= row_ts r <= hi) /\
    fst (trim rows)
    = filter (fun r => (lo + 300000 <=? row_ts r) && (row_ts r <=? hi - 300000))
             rows /\
    (forall r, In r (fst (trim rows)) <->
               In r rows /\ lo + 300000 <= row_ts r <= hi - 300000).
Proof.
  intro Hne. pose proof (rows_ts_nonempty rows Hne) as Hts.
  exists (min_int (map row_ts rows)), (max_int (map row_ts rows)).
  split; [now apply min_int_in |]. split; [now apply max_int_in |].
  split.
  { intros r Hr. split.
    - apply min_int_le. now apply in_map.
    - apply max_int_ge. now apply in_map. }
  split; [reflexivity |].
  intro r. unfold trim. cbn [fst]. rewrite filter_In.
  change FIVE_MINUTES_MS with 300000.
  rewrite andb_true_iff, !Z.leb_le. reflexivity.
Qed.

Lemma trim_keeps_the_middle_witness :
  exists lo hi,
    fst (trim [mk_row 0 0 1 2 3; mk_row 700000 0 1 2 3; mk_row 350000 1 1 2 3])
    = filter (fun r => (lo + 300000 <=? row_ts r) && (row_ts r <=? hi - 300000))
             [mk_row 0 0 1 2 3; mk_row 700000 0 1 2 3; mk_row 350000 1 1 2 3].
Proof.
  destruct (trim_keeps_the_middle
              [mk_row 0 0 1 2 3; mk_row 700000 0 1 2 3; mk_row 350000 1 1 2 3])
    as [lo [hi [_ [_ [_ [H _]]]]]].
  - discriminate.
  - exists lo, hi. exact H.
Defined.

(** X11: trimming always removes at least one row (the earliest one never
    survives), so it always reports the rows removed and never prints the
    warning that nothing was removed. *)
Theorem trim_always_removes (rows : list row) :
  rows <> [] ->
  exists removed,
    (0 < removed)%nat /\
    snd (trim rows) = Removed removed (length (fst (trim rows))) /\
    (length (fst (trim rows)) + removed = length rows)%nat.
Proof.
  intro Hne. unfold trim. cbn [fst snd].
  set (f := fun r : row => _).
  assert (Hin : In (min_int (map row_ts rows)) (map row_ts rows))
    by now apply min_int_in, rows_ts_nonempty.
  apply in_map_iff in Hin. destruct Hin as [r [Hr Hin]].
  assert (Hf : f r = false).
  { unfold f. apply andb_false_iff. left. apply Z.leb_gt.
    rewrite Hr. unfold FIVE_MINUTES_MS. lia. }
  pose proof (filter_length_lt f rows r Hin Hf) as Hlt.
  exists (length rows - length (filter f rows))%nat.
  split; [lia |]. split; [| lia].
  assert (E : (0 <? length rows - length (filter f rows))%nat = true)
    by (apply Nat.ltb_lt; lia).
  now rewrite E.
Qed.

Lemma trim_always_removes_witness :
  exists removed,
    (0 < removed)%nat /\
    snd (trim [mk_row 0 0 1 2 3; mk_row 700000 0 1 2 3; mk_row 350000 1 1 2 3])
    = Removed removed 1.
Proof.
  destruct (trim_always_removes
              [mk_row 0 0 1 2 3; mk_row 700000 0 1 2 3; mk_row 350000 1 1 2 3])
    as [k [Hk [H _]]].
  - discriminate.
  - exists k. split; [exact Hk | exact H].
Defined.

(** Rows that lie within ten minutes of each other are all trimmed away. *)
Lemma trim_within_ten_minutes (rows : list row) :
  (forall r r', In r rows -> In r' rows -> row_ts r' - row_ts r < 600000) ->
  fst (trim rows) = [].
Proof.
  intro H. destruct rows as [| r0 rows]; [reflexivity |].
  apply trim_short_session. change (2 * FIVE_MINUTES_MS) with 600000.
  assert (Hne : map row_ts (r0 :: rows) <> []) by discriminate.
  pose proof (min_int_in _ Hne) as Hlo. pose proof (max_int_in _ Hne) as Hhi.
  apply in_map_iff in Hlo, Hhi.
  destruct Hlo as [r [Hr Hrin]], Hhi as [r' [Hr' Hrin']].
  rewrite <- Hr, <- Hr'. now apply H.
Qed.

(** When a row survives the trimming, two rows of the log are ten minutes
    or more apart. *)
Lemma trim_kept_spans_ten_minutes (rows : list row) :
  fst (trim rows) <> [] ->
  exists r r', In r rows /\ In r' rows /\ 600000 <= row_ts r' - row_ts r.
Proof.
  intro H. destruct (fst (trim rows)) as [| k ks] eqn:E; [congruence |].
  assert (Hk : In k (fst (trim rows))) by (rewrite E; now left).
  unfold trim in Hk. cbn [fst] in Hk. apply filter_In in Hk.
  destruct Hk as [Hin Hk]. apply andb_true_iff in Hk.
  rewrite !Z.leb_le in Hk. unfold FIVE_MINUTES_MS in Hk.
  assert (Hne : map row_ts rows <> []).
  { apply rows_ts_nonempty. intros ->. contradiction. }
  pose proof (min_int_in _ Hne) as Hlo. pose proof (max_int_in _ Hne) as Hhi.
  apply in_map_iff in Hlo, Hhi.
  destruct Hlo as [r [Hr Hrin]], Hhi as [r' [Hr' Hrin']].
  exists r, r'. split; [exact Hrin |]. split; [exact Hrin' |].
  rewrite Hr, Hr'. lia.
Qed.

(** X12: a log in which no two parsed rows are ten minutes or more apart
    is analysed to no result, whatever it holds: every row is trimmed
    away. *)
Theorem short_session_returns_none (name : string) (reader : list csv_row) :
  (forall r r', In r (load_rows reader) -> In r' (load_rows reader) ->
                row_ts r' - row_ts r < 600000) ->
  load_and_analyze_csv name reader = Ok None.
Proof.
  intro H. apply load_and_analyze_with_none.
  right. now apply trim_within_ten_minutes.
Qed.

Lemma short_session_returns_none_witness :
  load_and_analyze_csv "session.csv" eight_minute_log = Ok None.
Proof.
  apply (short_session_returns_none "session.csv" eight_minute_log).
  intros r r' Hr Hr'. vm_compute in Hr, Hr'.
  destruct Hr as [<- | [<- | []]], Hr' as [<- | [<- | []]];
    vm_compute; reflexivity.
Defined.

(** ** The result record: every field *)

Lemma float_of_int_value (n : Z) (x : R) : float_of_int n = Ok x -> x = IZR n.
Proof.
  unfold float_of_int. destruct (Z.abs n <? DBL_OVERFLOW); [| discriminate].
  intro H. now inversion H.
Qed.

Lemma analyze_with_metrics (select : list Z -> list Z) (name : string)
      (rows : list row) (r : analysis_result) :
  analyze_with select name rows = Ok r ->
  exists cycles sd curves t_last t_first,
    group_reading_cycles rows = Ok cycles /\
    sensor_data_of cycles = Ok sd /\
    spine_curves_of (time_frames_of cycles) (sorted (Dict.keys sd))
                    (select (sorted (Dict.keys (time_frames_of cycles))))
    = Ok curves /\
    last_item (sorted (Dict.keys (time_frames_of cycles))) = Ok t_last /\
    first_item (sorted (Dict.keys (time_frames_of cycles))) = Ok t_first /\
    let so := sorted (Dict.keys sd) in
    let n := length so in
    let all_angles := flat_map (fun e => map rd_angle (snd e)) sd in
    filename r = name /\
    sensors r = length sd /\
    samples r = length rows /\
    duration r = (IZR (t_last - t_first) / 1000)%R /\
    total_rom r = rom all_angles /\
    upper_rom r = rom (flat_map (angles_of sd) (firstn (n / 3) so)) /\
    middle_rom r = rom (flat_map (angles_of sd) (slice so (n / 3) (2 * n / 3))) /\
    lower_rom r = rom (flat_map (angles_of sd) (skipn (2 * n / 3) so)) /\
    avg_angle r = match all_angles with
                  | [] => 0%R
                  | _ => (sum_float all_angles / INR (length all_angles))%R
                  end /\
    movement_score r = (if Rlt_dec 0 (duration r)
                        then (total_rom r / duration r)%R else 0%R) /\
    max_curvature r = max_curvature_of curves /\
    sensor_roms r = map (fun e => (str (fst e), rom (map rd_angle (snd e)))) sd /\
    spine_curves r = curves /\
    length (avg_spine r) = length so /\
    sensor_order r = map str so.
Proof.
  unfold analyze_with. intro H.
  apply bind_ok in H. destruct H as [cycles [Hc H]].
  apply bind_ok in H. destruct H as [sd [Hsd H]].
  apply bind_ok in H. destruct H as [curves [Hcv H]].
  apply bind_ok in H. destruct H as [t_last [Hl H]].
  apply bind_ok in H. destruct H as [t_first [Hf H]].
  apply bind_ok in H. destruct H as [span [Hspan H]].
  apply float_of_int_value in Hspan. subst span.
  inversion H. subst r. clear H. cbn.
  exists cycles, sd, curves, t_last, t_first.
  repeat split; try assumption.
  - now rewrite map_map.
  - unfold build_spine_from_angles.
    now rewrite build_spine_length, length_map.
Qed.

Lemma load_and_analyze_rows (name : string) (reader : list csv_row)
      (r : analysis_result) :
  load_and_analyze_csv name reader = Ok (Some r) ->
  let rows := fst (trim (load_rows reader)) in
  rows <> [] /\ analyze_with sampled_timestamps name rows = Ok r.
Proof.
  intro H. now apply load_and_analyze_with_some in H.
Qed.

(** *** Sorting *)

Lemma insert_sorted_sorted (x : Z) (l : list Z) :
  StronglySorted Z.le l -> StronglySorted Z.le (insert_sorted x l).
Proof.
  induction l as [| y l IH]; intro H; cbn [insert_sorted].
  - constructor; constructor.
  - inversion H as [| y' l' Hs Hall]; subst.
    destruct (Z.leb_spec x y) as [Hle | Hgt].
    + constructor; [exact H |].
      constructor; [exact Hle |].
      rewrite Forall_forall in *. intros z Hz. specialize (Hall z Hz). lia.
    + constructor; [now apply IH |].
      apply (Permutation_Forall (Permutation_sym (insert_sorted_perm x l))).
      constructor; [lia | exact Hall].
Qed.

Lemma sorted_strongly (l : list Z) : StronglySorted Z.le (sorted l).
Proof.
  induction l as [| x l IH]; cbn.
  - constructor.
  - now apply insert_sorted_sorted.
Qed.

Lemma strongly_sorted_strict (l : list Z) :
  StronglySorted Z.le l -> NoDup l -> StronglySorted Z.lt l.
Proof.
  induction 1 as [| x l Hs IH Hall]; intro Hnd; [constructor |].
  inversion Hnd as [| x' l' Hnin Hnd']; subst.
  constructor; [now apply IH |].
  rewrite Forall_forall in *. intros y Hy. specialize (Hall y Hy).
  assert (x <> y) by (intro; subst; contradiction). lia.
Qed.

Lemma sorted_strict (l : list Z) : NoDup l -> StronglySorted Z.lt (sorted l).
Proof.
  intro H. apply strongly_sorted_strict; [apply sorted_strongly |].
  apply (Permutation_NoDup (l := l)); [symmetry; apply sorted_perm | exact H].
Qed.

Lemma last_cons_default {A : Type} (x : A) (l : list A) (d d' : A) :
  List.last (x :: l) d = List.last (x :: l) d'.
Proof.
  revert x. induction l as [| y l IH]; intro x; [reflexivity |].
  change (List.last (x :: y :: l) d) with (List.last (y :: l) d).
  change (List.last (x :: y :: l) d') with (List.last (y :: l) d').
  apply IH.
Qed.

Lemma sorted_first_last (x : Z) (l : list Z) (y : Z) :
  StronglySorted Z.le (x :: l) -> In y (x :: l) ->
  x <= y <= List.last (x :: l) x.
Proof.
  revert x y. induction l as [| z l IH]; intros x y Hs Hy.
  - destruct Hy as [<- | []]. cbn. lia.
  - inversion Hs as [| x' l' Hs' Hall]; subst.
    change (List.last (x :: z :: l) x) with (List.last (z :: l) x).
    assert (Hxz : x <= z) by (inversion Hall; assumption).
    assert (Hlast : List.last (z :: l) x = List.last (z :: l) z)
      by apply last_cons_default.
    rewrite Hlast.
    destruct Hy as [<- | Hy].
    + destruct (IH z z Hs' (or_introl eq_refl)) as [_ H]. lia.
    + destruct (IH z y Hs' Hy) as [H1 H2]. lia.
Qed.

(** *** Keys of the dictionaries *)

Lemma dict_set_NoDup {V : Type} (d : Dict.t V) (k : Z) (v : V) :
  NoDup (Dict.keys d) -> NoDup (Dict.keys (Dict.set d k v)).
Proof.
  intro H. destruct (Dict.mem k d) eqn:E.
  - now rewrite dict_set_keys_present.
  - rewrite dict_set_absent by exact E. rewrite dict_keys_app.
    apply NoDup_snoc; [exact H |]. now apply dict_mem_false_not_in.
Qed.

Lemma dict_set_length {V : Type} (d : Dict.t V) (k : Z) (v : V) :
  (length (Dict.set d k v) <= S (length d))%nat.
Proof.
  induction d as [| [k' v'] d IH]; cbn.
  - lia.
  - destruct (k' =? k); cbn; lia.
Qed.

Lemma fold_set_NoDup {A V : Type} (key : A -> Z) (val : A -> V) (l : list A)
      (d : Dict.t V) :
  NoDup (Dict.keys d) ->
  NoDup (Dict.keys (fold_left (fun d c => Dict.set d (key c) (val c)) l d)).
Proof.
  revert d. induction l as [| c l IH]; intros d H; cbn [fold_left].
  - exact H.
  - apply IH. now apply dict_set_NoDup.
Qed.

Lemma fold_set_length {A V : Type} (key : A -> Z) (val : A -> V) (l : list A)
      (d : Dict.t V) :
  (length (fold_left (fun d c => Dict.set d (key c) (val c)) l d)
   <= length d + length l)%nat.
Proof.
  revert d. induction l as [| c l IH]; intros d; cbn [fold_left length].
  - lia.
  - specialize (IH (Dict.set d (key c) (val c))).
    pose proof (dict_set_length d (key c) (val c)). lia.
Qed.

Lemma time_frames_NoDup (cycles : list (Z * cycle)) :
  NoDup (Dict.keys (time_frames_of cycles)).
Proof.
  unfold time_frames_of.
  apply (fold_set_NoDup fst
           (fun c : Z * cycle =>
              Dict.of_list (map (fun e => (fst e, snd (snd e))) (snd c)))).
  constructor.
Qed.

Lemma time_frames_length (cycles : list (Z * cycle)) :
  (length (time_frames_of cycles) <= length cycles)%nat.
Proof.
  unfold time_frames_of.
  pose proof (fold_set_length fst
           (fun c : Z * cycle =>
              Dict.of_list (map (fun e => (fst e, snd (snd e))) (snd c)))
           cycles Dict.empty) as H.
  exact H.
Qed.

Lemma sensor_data_NoDup (l : list (Z * (Z * R))) :
  NoDup (Dict.keys (series_with Dict.empty l)).
Proof.
  apply (series_with_keys l Dict.empty). constructor.
Qed.

Lemma dict_get_in {V : Type} (d : Dict.t V) (k : Z) (v : V) :
  Dict.get d k = Some v -> In (k, v) d.
Proof.
  induction d as [| [k' v'] d IH]; cbn; [discriminate |].
  destruct (k' =? k) eqn:E.
  - intro H. inversion H. subst. apply Z.eqb_eq in E. subst. now left.
  - intro H. right. now apply IH.
Qed.

(** *** Ranges of motion *)

Lemma rom_nonneg (l : list R) : (0 <= rom l)%R.
Proof.
  destruct l as [| x l]; [cbn; lra |].
  assert (Hne : x :: l <> []) by discriminate.
  destruct (max_float_is_max _ Hne) as [_ Hmax].
  destruct (min_float_is_min _ Hne) as [_ Hmin].
  specialize (Hmax x (or_introl eq_refl)).
  specialize (Hmin x (or_introl eq_refl)).
  unfold rom. lra.
Qed.

Lemma rom_incl (l l' : list R) : incl l l' -> (rom l <= rom l')%R.
Proof.
  intro H. destruct l as [| x l]; [apply rom_nonneg |].
  assert (Hne : x :: l <> []) by discriminate.
  assert (Hne' : l' <> []).
  { intro E. subst. apply (H x). now left. }
  destruct (max_float_is_max _ Hne) as [Hin _].
  destruct (min_float_is_min _ Hne) as [Hin' _].
  destruct (max_float_is_max _ Hne') as [_ Hmax].
  destruct (min_float_is_min _ Hne') as [_ Hmin].
  specialize (Hmax _ (H _ Hin)). specialize (Hmin _ (H _ Hin')).
  unfold rom at 1. destruct l' as [| y l']; [congruence |].
  unfold rom. lra.
Qed.

Lemma section_angles_incl (sd : Dict.t (list reading)) (section : list Z) :
  incl (flat_map (angles_of sd) section)
       (flat_map (fun e => map rd_angle (snd e)) sd).
Proof.
  intros a Ha. apply in_flat_map in Ha. destruct Ha as [sid [_ Ha]].
  unfold angles_of, Dict.get_default in Ha.
  destruct (Dict.get sd sid) as [l |] eqn:E; [| contradiction].
  apply dict_get_in in E. apply in_flat_map. now exists (sid, l).
Qed.

Lemma sensor_angles_incl (sd : Dict.t (list reading)) (e : Z * list reading) :
  In e sd ->
  incl (map rd_angle (snd e)) (flat_map (fun e => map rd_angle (snd e)) sd).
Proof.
  intros He a Ha. apply in_flat_map. now exists e.
Qed.

(** *** Frames *)

Lemma spine_curves_of_frames (tf : Dict.t (Dict.t R)) (so tss : list Z)
      (curves : list frame) :
  spine_curves_of tf so tss = Ok curves ->
  curves = flat_map frame_of_entry (frames_list tf so tss).
Proof.
  unfold frames_list. revert curves.
  induction tss as [| ts tss IH]; intros curves H;
    cbn [spine_curves_of filter map flat_map] in *.
  - now inversion H.
  - destruct (Dict.mem ts tf); [| now apply IH].
    cbn [map flat_map]. unfold frame_of_entry at 1. cbn [fst snd].
    destruct (any (frame_angles_at tf so ts)); [| now apply IH].
    apply bind_ok in H. destruct H as [t [Ht H]].
    apply bind_ok in H. destruct H as [rest [Hrest H]].
    apply float_of_int_value in Ht. subst t.
    inversion H. cbn [app]. f_equal. now apply IH.
Qed.

Lemma frames_of_entries (l : list (Z * list R)) (f : frame) :
  In f (flat_map frame_of_entry l) ->
  exists p, In p l /\ any (snd p) = true /\
            f = mk_frame (IZR (fst p) / 1000)%R
                         (build_spine_from_angles (snd p)) (snd p).
Proof.
  intro H. apply in_flat_map in H. destruct H as [p [Hp Hf]].
  exists p. split; [exact Hp |].
  unfold frame_of_entry in Hf. destruct (any (snd p)); [| contradiction].
  destruct Hf as [<- | []]. now split.
Qed.

Lemma frames_length (l : list (Z * list R)) :
  (length (flat_map frame_of_entry l) <= length l)%nat.
Proof.
  induction l as [| p l IH]; cbn [flat_map length]; [lia |].
  rewrite length_app. unfold frame_of_entry at 1.
  destruct (any (snd p)); cbn [length]; lia.
Qed.

Lemma frames_times (l : list (Z * list R)) :
  map fr_time (flat_map frame_of_entry l)
  = map (fun p => (IZR (fst p) / 1000)%R) (filter (fun p => any (snd p)) l).
Proof.
  induction l as [| p l IH]; cbn [flat_map filter map]; [reflexivity |].
  rewrite map_app, IH. unfold frame_of_entry at 1.
  destruct (any (snd p)); reflexivity.
Qed.

Lemma every_from_incl {A : Type} (k skip : nat) (l : list A) :
  incl (every_from k skip l) l.
Proof.
  revert skip. induction l as [| y l IH]; intros skip x; cbn.
  - auto.
  - destruct skip.
    + intros [H | H]; [now left | right; now apply (IH _ _ H)].
    + intro H. right. now apply (IH _ _ H).
Qed.

Lemma every_from_sorted {A : Type} (lt : A -> A -> Prop) (k skip : nat)
      (l : list A) :
  StronglySorted lt l -> StronglySorted lt (every_from k skip l).
Proof.
  intro H. revert skip. induction H as [| x l Hs IH Hall]; intro skip; cbn.
  - constructor.
  - destruct skip; [| apply IH].
    constructor; [apply IH |].
    rewrite Forall_forall in *. intros y Hy. apply Hall.
    now apply (every_from_incl k (k - 1)).
Qed.

Lemma filter_sorted {A : Type} (lt : A -> A -> Prop) (f : A -> bool)
      (l : list A) :
  StronglySorted lt l -> StronglySorted lt (filter f l).
Proof.
  induction 1 as [| x l Hs IH Hall]; cbn; [constructor |].
  destruct (f x); [| exact IH].
  constructor; [exact IH |].
  rewrite Forall_forall in *. intros y Hy. apply Hall.
  apply filter_In in Hy. tauto.
Qed.

Lemma map_sorted {A B : Type} (lt : A -> A -> Prop) (lt' : B -> B -> Prop)
      (f : A -> B) (l : list A) :
  (forall x y, lt x y -> lt' (f x) (f y)) ->
  StronglySorted lt l -> StronglySorted lt' (map f l).
Proof.
  intro Hf. induction 1 as [| x l Hs IH Hall]; cbn; [constructor |].
  constructor; [exact IH |].
  rewrite Forall_forall in *. intros y Hy.
  apply in_map_iff in Hy. destruct Hy as [z [<- Hz]]. apply Hf. now apply Hall.
Qed.

(** The stride of the sampler keeps fewer than a thousand timestamps. *)
Lemma every_from_length {A : Type} (k skip : nat) (l : list A) :
  (skip < k)%nat ->
  (k * length (every_from k skip l) + skip <= length l + k - 1)%nat.
Proof.
  intro Hk. revert skip Hk.
  induction l as [| x l IH]; intros skip Hk; cbn [every_from length].
  - lia.
  - destruct skip as [| s].
    + specialize (IH (k - 1)%nat ltac:(lia)). cbn [length]. nia.
    + specialize (IH s ltac:(lia)). lia.
Qed.

Lemma sampled_timestamps_length (l : list Z) :
  (length (sampled_timestamps l) <= 999)%nat /\
  (length (sampled_timestamps l) <= length l)%nat.
Proof.
  unfold sampled_timestamps, slice_step.
  set (n := length l).
  set (k := Nat.max 1 (n / 500)).
  assert (Hk : (0 < k)%nat) by (unfold k; lia).
  pose proof (every_from_length k 0 l Hk) as H. fold n in H.
  set (t := length (every_from k 0 l)) in *.
  pose proof (Nat.div_mod n 500 ltac:(lia)) as Hd.
  pose proof (Nat.mod_upper_bound n 500 ltac:(lia)) as Hm.
  assert (Hq : (k = 1 /\ n / 500 <= 1 \/ k = n / 500 /\ 2 <= n / 500)%nat)
    by (unfold k; lia).
  split.
  - destruct Hq as [[-> Hq] | [Hq Hq2]]; [lia |]. rewrite <- Hq in *. nia.
  - nia.
Qed.

(** ** Cycles, metrics and frames of a result *)

Lemma flat_map_length_ge {A B : Type} (f : A -> list B) (l : list A) :
  (forall x, In x l -> f x <> []) -> (length l <= length (flat_map f l))%nat.
Proof.
  induction l as [| x l IH]; intro H; cbn [flat_map length]; [lia |].
  rewrite length_app.
  assert (Hx : f x <> []) by (apply H; now left).
  assert (IH' := IH (fun y Hy => H y (or_intror Hy))).
  destruct (f x); [congruence | cbn [length]; lia].
Qed.

(** X13: every emitted cycle is non-empty and keyed by the timestamp of
    its first reading, which is the timestamp of a row; there are at most
    as many cycles as rows, and at least one when there is a row. *)
Theorem cycles_are_keyed_by_first_reading (rows : list row)
        (cycles : list (Z * cycle)) :
  group_reading_cycles rows = Ok cycles ->
  Forall keyed_by_first cycles /\
  (forall c, In c cycles -> In (fst c) (map row_ts rows)) /\
  (length cycles <= length rows)%nat /\
  (rows <> [] -> cycles <> []).
Proof.
  intro H. apply group_reading_cycles_ok in H. destruct H as [_ ->].
  pose proof (cycles_with_keyed_by_first angle_of_row rows) as Hk.
  split; [exact Hk |]. split.
  { intros c Hc. apply (cycle_start_is_row_ts angle_of_row). now apply in_map. }
  split; [| apply cycles_with_nonempty].
  pose proof (cycles_with_readings angle_of_row rows) as Hr.
  apply (f_equal (@length _)) in Hr. rewrite length_map in Hr.
  rewrite <- Hr. unfold readings_of. apply flat_map_length_ge.
  intros c Hc. rewrite Forall_forall in Hk. destruct (Hk c Hc) as [e [rest [E _]]].
  intro Hs. pose proof (eq_trans (eq_sym Hs) E) as X. discriminate X.
Qed.

Lemma cycles_are_keyed_by_first_reading_witness :
  let rows := [mk_row 505 0 8192 0 0; mk_row 509 2 8192 0 0;
               mk_row 1105 0 8192 0 0] in
  (length (cycles_with angle_of_row rows) <= 3)%nat.
Proof.
  cbn zeta.
  set (rows := [mk_row 505 0 8192 0 0; mk_row 509 2 8192 0 0;
                mk_row 1105 0 8192 0 0]).
  assert (Hr : forallb row_in_range rows = true) by (vm_compute; reflexivity).
  assert (H : group_reading_cycles rows = Ok (cycles_with angle_of_row rows)).
  { rewrite group_reading_cycles_eval, Hr. reflexivity. }
  exact (proj1 (proj2 (proj2 (cycles_are_keyed_by_first_reading rows _ H)))).
Defined.

(** *** Timestamps of the frames *)

Lemma timestamps_first_last (l : list Z) (t_first t_last : Z) :
  first_item (sorted l) = Ok t_first -> last_item (sorted l) = Ok t_last ->
  In t_first l /\ In t_last l /\ forall y, In y l -> t_first <= y <= t_last.
Proof.
  intros Hf Hl. pose proof (sorted_strongly l) as Hs.
  unfold first_item, last_item in *.
  destruct (sorted l) as [| x s] eqn:E; [discriminate |].
  injection Hf as Hf. injection Hl as Hl. subst t_first t_last.
  assert (Hin : forall y, In y (x :: s) <-> In y l).
  { intro y. rewrite <- E. apply sorted_in. }
  split; [apply Hin; now left |].
  split; [apply Hin, last_in |].
  intros y Hy. apply Hin in Hy. now apply sorted_first_last.
Qed.

(** X14: the duration is the time from the earliest cycle start to the
    latest cycle start, in seconds: readings after the start of the last
    cycle do not count, and a session of a single cycle has duration [0]
    and movement score [0]. *)
Theorem duration_spans_cycle_starts (name : string) (reader : list csv_row)
        (r : analysis_result) :
  load_and_analyze_csv name reader = Ok (Some r) ->
  exists cycles lo hi,
    group_reading_cycles (fst (trim (load_rows reader))) = Ok cycles /\
    In lo (map fst cycles) /\ In hi (map fst cycles) /\
    (forall c, In c cycles -> lo <= fst c <= hi) /\
    duration r = (IZR (hi - lo) / 1000)%R /\
    (length cycles = 1%nat -> duration r = 0%R /\ movement_score r = 0%R).
Proof.
  intro H. apply load_and_analyze_rows in H. cbn zeta in H.
  destruct H as [Hne H]. apply analyze_with_metrics in H.
  destruct H as [cycles [sd [curves [t_last [t_first
    [Hc [Hsd [Hcv [Hl [Hf Hfields]]]]]]]]]].
  cbn zeta in Hfields.
  destruct Hfields as [_ [_ [_ [Hdur [_ [_ [_ [_ [_ [Hscore _]]]]]]]]]].
  destruct (timestamps_first_last _ _ _ Hf Hl) as [Hlo [Hhi Hall]].
  exists cycles, t_first, t_last.
  split; [exact Hc |].
  split; [now apply time_frames_keys |].
  split; [now apply time_frames_keys |].
  split.
  { intros c Hc'. apply Hall, time_frames_keys. now apply in_map. }
  split; [exact Hdur |].
  intro Hone.
  assert (Hd : duration r = 0%R).
  { rewrite Hdur.
    destruct cycles as [| c [| c' cycles]]; try discriminate.
    apply time_frames_keys in Hlo, Hhi. cbn in Hlo, Hhi.
    destruct Hlo as [<- | []], Hhi as [<- | []].
    rewrite Z.sub_diag. unfold Rdiv. apply Rmult_0_l. }
  split; [exact Hd |].
  rewrite Hscore, Hd. destruct (Rlt_dec 0 0) as [Hlt | _]; [lra | reflexivity].
Qed.

Lemma duration_spans_cycle_starts_witness :
  exists r cycles lo hi,
    load_and_analyze_csv "session.csv" out_of_order_log = Ok (Some r) /\
    group_reading_cycles (fst (trim (load_rows out_of_order_log))) = Ok cycles /\
    duration r = (IZR (hi - lo) / 1000)%R.
Proof.
  destruct out_of_order_log_result as [r Hr].
  destruct (duration_spans_cycle_starts "session.csv" out_of_order_log r Hr)
    as [cycles [lo [hi [Hc [_ [_ [_ [Hd _]]]]]]]].
  exists r, cycles, lo, hi. repeat split; assumption.
Defined.

(** *** Signs and bounds of the metrics *)

Lemma fold_Rmax_ge {A : Type} (f : A -> R) (l : list A) (m : R) :
  (m <= fold_left (fun m x => Rmax m (f x)) l m)%R.
Proof.
  revert m. induction l as [| x l IH]; intro m; cbn [fold_left].
  - lra.
  - specialize (IH (Rmax m (f x))). pose proof (Rmax_l m (f x)). lra.
Qed.

Lemma curve_max_ge (m : R) (points : list point) : (m <= curve_max m points)%R.
Proof.
  unfold curve_max. destruct points as [| first [| second rest]]; try lra.
  apply fold_Rmax_ge.
Qed.

Lemma max_curvature_of_ge (curves : list frame) (m : R) :
  (m <= fold_left (fun m c => curve_max m (fr_points c)) curves m)%R.
Proof.
  revert m. induction curves as [| c curves IH]; intro m; cbn [fold_left].
  - lra.
  - specialize (IH (curve_max m (fr_points c))).
    pose proof (curve_max_ge m (fr_points c)). lra.
Qed.

(** X15: no metric of a result other than the average angle can be
    negative: the duration, the four ranges of motion, the range of every
    sensor, the movement score and the maximal curvature are all at least
    [0]. *)
Theorem metrics_are_never_negative (name : string) (reader : list csv_row)
        (r : analysis_result) :
  load_and_analyze_csv name reader = Ok (Some r) ->
  (0 <= duration r)%R /\ (0 <= total_rom r)%R /\ (0 <= upper_rom r)%R /\
  (0 <= middle_rom r)%R /\ (0 <= lower_rom r)%R /\
  (0 <= movement_score r)%R /\ (0 <= max_curvature r)%R /\
  Forall (fun e => (0 <= snd e)%R) (sensor_roms r).
Proof.
  intro H. apply load_and_analyze_rows in H. cbn zeta in H.
  destruct H as [Hne H]. apply analyze_with_metrics in H.
  destruct H as [cycles [sd [curves [t_last [t_first
    [Hc [Hsd [Hcv [Hl [Hf Hfields]]]]]]]]]].
  cbn zeta in Hfields.
  destruct Hfields as [_ [_ [_ [Hdur [Htot [Hup [Hmid [Hlow [_ [Hscore
    [Hcurv [Hroms _]]]]]]]]]]]].
  destruct (timestamps_first_last _ _ _ Hf Hl) as [Hlo [_ Hall]].
  assert (Hd : (0 <= duration r)%R).
  { rewrite Hdur. specialize (Hall _ Hlo).
    apply Rmult_le_pos; [apply IZR_le; lia | lra]. }
  assert (Ht : (0 <= total_rom r)%R) by (rewrite Htot; apply rom_nonneg).
  split; [exact Hd |]. split; [exact Ht |].
  split; [rewrite Hup; apply rom_nonneg |].
  split; [rewrite Hmid; apply rom_nonneg |].
  split; [rewrite Hlow; apply rom_nonneg |].
  split.
  { rewrite Hscore. destruct (Rlt_dec 0 (duration r)) as [Hpos | _]; [| lra].
    apply Rmult_le_pos; [exact Ht |]. left. now apply Rinv_0_lt_compat. }
  split; [rewrite Hcurv; apply max_curvature_of_ge |].
  rewrite Hroms, Forall_forall. intros e He.
  apply in_map_iff in He. destruct He as [e' [<- _]]. cbn [snd].
  apply rom_nonneg.
Qed.

Lemma metrics_are_never_negative_witness :
  exists r,
    load_and_analyze_csv "session.csv" out_of_order_log = Ok (Some r) /\
    (0 <= total_rom r)%R /\ (0 <= max_curvature r)%R.
Proof.
  destruct out_of_order_log_result as [r Hr].
  destruct (metrics_are_never_negative "session.csv" out_of_order_log r Hr)
    as [_ [Ht [_ [_ [_ [_ [Hc _]]]]]]].
  exists r. repeat split; assumption.
Defined.

(** X16: the range of motion of a section (upper, middle, lower) and of a
    single sensor never exceeds the total range of motion. *)
Theorem section_roms_within_total (name : string) (reader : list csv_row)
        (r : analysis_result) :
  load_and_analyze_csv name reader = Ok (Some r) ->
  (upper_rom r <= total_rom r)%R /\ (middle_rom r <= total_rom r)%R /\
  (lower_rom r <= total_rom r)%R /\
  Forall (fun e => (snd e <= total_rom r)%R) (sensor_roms r).
Proof.
  intro H. apply load_and_analyze_rows in H. cbn zeta in H.
  destruct H as [Hne H]. apply analyze_with_metrics in H.
  destruct H as [cycles [sd [curves [t_last [t_first
    [Hc [Hsd [Hcv [Hl [Hf Hfields]]]]]]]]]].
  cbn zeta in Hfields.
  destruct Hfields as [_ [_ [_ [_ [Htot [Hup [Hmid [Hlow [_ [_
    [_ [Hroms _]]]]]]]]]]]].
  rewrite Htot, Hup, Hmid, Hlow.
  split; [apply rom_incl, section_angles_incl |].
  split; [apply rom_incl, section_angles_incl |].
  split; [apply rom_incl, section_angles_incl |].
  rewrite Hroms, Forall_forall. intros e He.
  apply in_map_iff in He. destruct He as [e' [<- He']]. cbn [snd].
  now apply rom_incl, sensor_angles_incl.
Qed.

Lemma section_roms_within_total_witness :
  exists r,
    load_and_analyze_csv "session.csv" out_of_order_log = Ok (Some r) /\
    (upper_rom r <= total_rom r)%R /\ (lower_rom r <= total_rom r)%R.
Proof.
  destruct out_of_order_log_result as [r Hr].
  destruct (section_roms_within_total "session.csv" out_of_order_log r Hr)
    as [Hu [_ [Hl _]]].
  exists r. repeat split; assumption.
Defined.

(** X17: with fewer than three sensors the upper section is empty and
    [upper_rom] is [0]; with a single sensor the middle section is empty
    too and [lower_rom] is the total range of motion. *)
Theorem few_sensors_leave_sections_empty (name : string)
        (reader : list csv_row) (r : analysis_result) :
  load_and_analyze_csv name reader = Ok (Some r) ->
  ((sensors r < 3)%nat -> upper_rom r = 0%R) /\
  (sensors r = 1%nat -> middle_rom r = 0%R /\ lower_rom r = total_rom r).
Proof.
  intro H. apply load_and_analyze_rows in H. cbn zeta in H.
  destruct H as [Hne H]. apply analyze_with_metrics in H.
  destruct H as [cycles [sd [curves [t_last [t_first
    [Hc [Hsd [Hcv [Hl [Hf Hfields]]]]]]]]]].
  cbn zeta in Hfields.
  destruct Hfields as [_ [Hsens [_ [_ [Htot [Hup [Hmid [Hlow _]]]]]]]].
  assert (Hn : length (sorted (Dict.keys sd)) = sensors r).
  { rewrite sorted_length, Hsens. apply length_map. }
  rewrite Hn in Hup, Hmid, Hlow.
  split.
  - intro Hlt. rewrite Hup.
    replace (sensors r / 3)%nat with 0%nat
      by (symmetry; apply Nat.div_small; exact Hlt).
    reflexivity.
  - intro Hone. rewrite Hone in Hmid, Hlow. rewrite Hmid, Hlow, Htot.
    change (1 / 3)%nat with 0%nat. change (2 * 1 / 3)%nat with 0%nat.
    split; [reflexivity |].
    cbn [skipn]. rewrite Hsens in Hone.
    destruct sd as [| [k l] [| e sd]]; try discriminate.
    cbn [Dict.keys map sorted fold_right insert_sorted flat_map snd fst].
    unfold angles_of, Dict.get_default. cbn [Dict.get].
    now rewrite Z.eqb_refl.
Qed.

Lemma few_sensors_leave_sections_empty_witness :
  exists r,
    load_and_analyze_csv "session.csv" out_of_order_log = Ok (Some r) /\
    ((sensors r < 3)%nat -> upper_rom r = 0%R).
Proof.
  destruct out_of_order_log_result as [r Hr].
  exists r. split; [exact Hr |].
  exact (proj1 (few_sensors_leave_sections_empty "session.csv"
                  out_of_order_log r Hr)).
Defined.

(** *** The average angle *)

Lemma sum_float_perm (l l' : list R) :
  Permutation l l' -> sum_float l = sum_float l'.
Proof.
  induction 1 as [| x l l' _ IH | x y l | l l' l'' _ IH1 _ IH2].
  - reflexivity.
  - now rewrite !sum_float_cons, IH.
  - rewrite !sum_float_cons. lra.
  - now rewrite IH1.
Qed.

(** X18: the average angle is the arithmetic mean of the angles of all
    retained rows, each row counting once, however the readings are
    spread over the sensors: it is not the mean of the sensors' means. *)
Theorem avg_angle_is_mean_of_rows (name : string) (reader : list csv_row)
        (r : analysis_result) :
  load_and_analyze_csv name reader = Ok (Some r) ->
  avg_angle r = mean (map angle_of_row (fst (trim (load_rows reader)))) /\
  samples r = length (fst (trim (load_rows reader))).
Proof.
  intro H. apply load_and_analyze_rows in H. cbn zeta in H.
  set (rows := fst (trim (load_rows reader))) in *.
  destruct H as [Hne H]. apply analyze_with_metrics in H.
  destruct H as [cycles [sd [curves [t_last [t_first
    [Hc [Hsd [Hcv [Hl [Hf Hfields]]]]]]]]]].
  cbn zeta in Hfields.
  destruct Hfields as [_ [_ [Hsam [_ [_ [_ [_ [_ [Havg _]]]]]]]]].
  split; [| exact Hsam].
  pose proof (all_angles_perm cycles sd Hsd) as Hperm.
  apply group_reading_cycles_ok in Hc. destruct Hc as [_ Hc].
  assert (Hca : cycle_angles cycles = map angle_of_row rows).
  { unfold cycle_angles. rewrite Hc, cycles_with_readings, map_map.
    reflexivity. }
  rewrite Hca in Hperm.
  set (all_angles := flat_map (fun e => map rd_angle (snd e)) sd) in *.
  assert (Hane : map angle_of_row rows <> []).
  { destruct rows; [congruence | discriminate]. }
  assert (Hall : all_angles <> []).
  { intro E. rewrite E in Hperm. apply Permutation_nil in Hperm. congruence. }
  rewrite Havg. destruct all_angles as [| a l] eqn:Ea; [congruence |].
  unfold mean.
  now rewrite (sum_float_perm _ _ Hperm), (Permutation_length Hperm).
Qed.

Lemma avg_angle_is_mean_of_rows_witness :
  exists r,
    load_and_analyze_csv "session.csv" out_of_order_log = Ok (Some r) /\
    avg_angle r
    = mean (map angle_of_row (fst (trim (load_rows out_of_order_log)))).
Proof.
  destruct out_of_order_log_result as [r Hr].
  exists r. split; [exact Hr |].
  exact (proj1 (avg_angle_is_mean_of_rows "session.csv" out_of_order_log r Hr)).
Defined.

(** *** Layout of the result *)

(** X19: the sensor order lists the distinct sensor identifiers of the
    retained rows in increasing order; [sensors] is their number, and the
    per-sensor ranges and the average spine have one entry per sensor. *)
Theorem sensor_order_is_sorted_and_distinct (name : string)
        (reader : list csv_row) (r : analysis_result) :
  load_and_analyze_csv name reader = Ok (Some r) ->
  exists so,
    sensor_order r = map str so /\
    StronglySorted Z.lt so /\
    (forall s, In s so <-> In s (map row_sid (fst (trim (load_rows reader))))) /\
    length so = sensors r /\
    length (sensor_roms r) = sensors r /\
    length (avg_spine r) = sensors r.
Proof.
  intro H. apply load_and_analyze_rows in H. cbn zeta in H.
  set (rows := fst (trim (load_rows reader))) in *.
  destruct H as [Hne H]. apply analyze_with_metrics in H.
  destruct H as [cycles [sd [curves [t_last [t_first
    [Hc [Hsd [Hcv [Hl [Hf Hfields]]]]]]]]]].
  cbn zeta in Hfields.
  destruct Hfields as [_ [Hsens [_ [_ [_ [_ [_ [_ [_ [_
    [_ [Hroms [_ [Havgsp Hso]]]]]]]]]]]]]].
  exists (sorted (Dict.keys sd)).
  apply group_reading_cycles_ok in Hc. destruct Hc as [_ Hc].
  apply sensor_data_of_ok in Hsd. destruct Hsd as [_ Hsd].
  assert (Hlen : length (sorted (Dict.keys sd)) = sensors r).
  { rewrite sorted_length, Hsens. apply length_map. }
  split; [exact Hso |].
  split.
  { apply sorted_strict. rewrite Hsd. apply sensor_data_NoDup. }
  split.
  { intro s. rewrite sorted_in. rewrite Hsd.
    destruct (series_with_keys (readings_of cycles) Dict.empty) as [_ Hk];
      [constructor |].
    rewrite Hk, Hc, cycles_with_readings, map_map. cbn [fst].
    split; [intros [[] | Hs]; exact Hs | intro Hs; now right]. }
  split; [exact Hlen |].
  split; [rewrite Hroms, length_map; now symmetry |].
  now rewrite Havgsp.
Qed.

Lemma sensor_order_is_sorted_and_distinct_witness :
  exists r so,
    load_and_analyze_csv "session.csv" out_of_order_log = Ok (Some r) /\
    sensor_order r = map str so /\ StronglySorted Z.lt so.
Proof.
  destruct out_of_order_log_result as [r Hr].
  destruct (sensor_order_is_sorted_and_distinct "session.csv"
              out_of_order_log r Hr) as [so [Hso [Hs _]]].
  exists r, so. repeat split; assumption.
Defined.

(** *** Frames *)

Lemma any_true_nonzero (l : list R) :
  any l = true -> exists a, In a l /\ a <> 0%R.
Proof.
  unfold any. intro H. apply existsb_exists in H. destruct H as [a [Ha Ht]].
  exists a. split; [exact Ha |]. intro E. subst a.
  rewrite truthy_zero in Ht. discriminate.
Qed.

Lemma result_frames (name : string) (reader : list csv_row)
      (r : analysis_result) :
  load_and_analyze_csv name reader = Ok (Some r) ->
  exists cycles (sd : Dict.t (list reading)),
    group_reading_cycles (fst (trim (load_rows reader))) = Ok cycles /\
    length (sorted (Dict.keys sd)) = sensors r /\
    spine_curves r
    = flat_map frame_of_entry
        (frames_list (time_frames_of cycles) (sorted (Dict.keys sd))
           (sampled_timestamps (sorted (Dict.keys (time_frames_of cycles))))) /\
    max_curvature r = max_curvature_of (spine_curves r).
Proof.
  intro H. apply load_and_analyze_rows in H. cbn zeta in H.
  destruct H as [Hne H]. apply analyze_with_metrics in H.
  destruct H as [cycles [sd [curves [t_last [t_first
    [Hc [Hsd [Hcv [Hl [Hf Hfields]]]]]]]]]].
  cbn zeta in Hfields.
  destruct Hfields as [_ [Hsens [_ [_ [_ [_ [_ [_ [_ [_
    [Hcurv [_ [Hsc _]]]]]]]]]]]]].
  exists cycles, sd. split; [exact Hc |].
  split; [rewrite sorted_length, Hsens; apply length_map |].
  apply spine_curves_of_frames in Hcv.
  split; [now rewrite Hsc | now rewrite Hcurv, Hsc].
Qed.

Lemma frames_list_entry (tf : Dict.t (Dict.t R)) (so tss : list Z)
      (p : Z * list R) :
  In p (frames_list tf so tss) ->
  In (fst p) tss /\ snd p = frame_angles_at tf so (fst p).
Proof.
  unfold frames_list. intro H. apply in_map_iff in H.
  destruct H as [ts [<- Hts]]. apply filter_In in Hts. cbn [fst snd]. tauto.
Qed.

(** Every frame has one point per sensor. *)
Lemma result_frame_points (name : string) (reader : list csv_row)
      (r : analysis_result) :
  load_and_analyze_csv name reader = Ok (Some r) ->
  Forall (fun f => length (fr_points f) = sensors r) (spine_curves r).
Proof.
  intro H. destruct (result_frames _ _ _ H) as [cycles [sd [_ [Hn [Hsc _]]]]].
  rewrite Hsc, Forall_forall. intros f Hf.
  apply frames_of_entries in Hf. destruct Hf as [p [Hp [_ ->]]].
  apply frames_list_entry in Hp. destruct Hp as [_ Hp].
  cbn [fr_points]. unfold build_spine_from_angles.
  rewrite build_spine_length, Hp. unfold frame_angles_at.
  now rewrite length_map.
Qed.

(** X20: every frame of a result is complete and never blank: it holds
    one angle and one point per sensor, in the sensor order (a sensor
    absent from the cycle reads [0]), and at least one of its angles is
    not [0]; a cycle whose angles are all [0] yields no frame. *)
Theorem frames_are_complete_and_not_blank (name : string)
        (reader : list csv_row) (r : analysis_result) :
  load_and_analyze_csv name reader = Ok (Some r) ->
  Forall (fun f => length (fr_angles f) = sensors r /\
                   length (fr_points f) = sensors r /\
                   fr_points f = build_spine_from_angles (fr_angles f) /\
                   exists a, In a (fr_angles f) /\ a <> 0%R)
         (spine_curves r).
Proof.
  intro H. destruct (result_frames _ _ _ H) as [cycles [sd [_ [Hn [Hsc _]]]]].
  rewrite Hsc, Forall_forall. intros f Hf.
  apply frames_of_entries in Hf. destruct Hf as [p [Hp [Hany ->]]].
  apply frames_list_entry in Hp. destruct Hp as [_ Hp].
  cbn [fr_angles fr_points].
  assert (Hlen : length (snd p) = sensors r).
  { rewrite Hp. unfold frame_angles_at. now rewrite length_map. }
  split; [exact Hlen |].
  split; [unfold build_spine_from_angles; now rewrite build_spine_length |].
  split; [reflexivity |].
  now apply any_true_nonzero.
Qed.

Lemma long_log_result :
  exists r, load_and_analyze_csv "session.csv" long_log = Ok (Some r) /\
            sensors r = 1%nat.
Proof.
  assert (Hsafe : forallb row_float_safe long_rows = true)
    by (vm_compute; reflexivity).
  destruct (analyze_with_succeeds sampled_timestamps "session.csv" long_rows
              sampled_timestamps_among) as [r Hr];
    [discriminate | exact Hsafe |].
  exists r. split.
  - apply load_and_analyze_with_some. rewrite long_log_rows.
    split; [discriminate | exact Hr].
  - destruct (analyze_with_fields _ _ _ _ Hr)
      as [cycles [sd [curves [Hc [Hsd [_ [Hsens _]]]]]]].
    rewrite Hsens, (sensor_count _ _ _ Hc Hsd).
    vm_compute. reflexivity.
Qed.

Lemma frames_are_complete_and_not_blank_witness :
  exists r,
    load_and_analyze_csv "session.csv" long_log = Ok (Some r) /\
    Forall (fun f => length (fr_angles f) = sensors r) (spine_curves r).
Proof.
  destruct long_log_result as [r [H _]].
  exists r. split; [exact H |].
  pose proof (frames_are_complete_and_not_blank "session.csv" long_log r H) as HF.
  rewrite Forall_forall in *. intros f Hf. exact (proj1 (HF f Hf)).
Defined.

(** X21: the frames of a result follow the cycles in time.  Their times
    are the start timestamps of distinct cycles, taken in strictly
    increasing order and each divided by [1000], so the times never
    decrease (two timestamps that differ need not give two times that
    differ as floats); there are never more frames than cycles, and never
    more than 999. *)
Theorem frames_are_chronological_and_bounded (name : string)
        (reader : list csv_row) (r : analysis_result) :
  load_and_analyze_csv name reader = Ok (Some r) ->
  (length (spine_curves r) <= 999)%nat /\
  StronglySorted Rle (map fr_time (spine_curves r)) /\
  exists cycles tss,
    group_reading_cycles (fst (trim (load_rows reader))) = Ok cycles /\
    (length (spine_curves r) <= length cycles)%nat /\
    StronglySorted Z.lt tss /\ incl tss (map fst cycles) /\
    map fr_time (spine_curves r) = map (fun ts => (IZR ts / 1000)%R) tss.
Proof.
  intro H. destruct (result_frames _ _ _ H) as [cycles [sd [Hc [_ [Hsc _]]]]].
  set (tf := time_frames_of cycles) in *.
  set (so := sorted (Dict.keys sd)) in *.
  set (tss := sampled_timestamps (sorted (Dict.keys tf))) in *.
  assert (Hs : StronglySorted Z.lt tss).
  { unfold tss, sampled_timestamps, slice_step. apply every_from_sorted.
    apply sorted_strict, time_frames_NoDup. }
  destruct (sampled_timestamps_length (sorted (Dict.keys tf))) as [H999 Hle].
  fold tss in H999, Hle.
  assert (Hfl : (length (frames_list tf so tss) <= length tss)%nat).
  { unfold frames_list. rewrite length_map. apply filter_length_le. }
  pose proof (frames_length (frames_list tf so tss)) as Hfr.
  rewrite <- Hsc in Hfr.
  set (shown := map fst (filter (fun p : Z * list R => any (snd p))
                           (frames_list tf so tss))).
  assert (Htimes : map fr_time (spine_curves r)
                   = map (fun ts => (IZR ts / 1000)%R) shown).
  { rewrite Hsc, frames_times. unfold shown. now rewrite map_map. }
  assert (Hshown : StronglySorted Z.lt shown).
  { unfold shown, frames_list.
    apply (map_sorted (fun p q : Z * list R => fst p < fst q) Z.lt);
      [intros p q Hpq; exact Hpq |].
    apply filter_sorted.
    apply (map_sorted Z.lt); [intros x y Hxy; exact Hxy |].
    now apply filter_sorted. }
  split; [lia |].
  split.
  { rewrite Htimes.
    apply (map_sorted Z.lt Rle); [| exact Hshown].
    intros x y Hxy. apply IZR_lt in Hxy. lra. }
  exists cycles, shown. split; [exact Hc |].
  split.
  { pose proof (time_frames_length cycles) as Htl. fold tf in Htl.
    rewrite sorted_length in Hle. unfold Dict.keys in Hle.
    rewrite length_map in Hle. lia. }
  split; [exact Hshown |]. split; [| exact Htimes].
  intros ts Hts. unfold shown in Hts. apply in_map_iff in Hts.
  destruct Hts as [p [<- Hp]]. apply filter_In in Hp. destruct Hp as [Hp _].
  apply frames_list_entry in Hp. destruct Hp as [Hin _].
  apply (time_frames_keys cycles).
  apply (sorted_in (Dict.keys tf)).
  unfold tss, sampled_timestamps, slice_step in Hin.
  now apply every_from_incl in Hin.
Qed.

Lemma frames_are_chronological_and_bounded_witness :
  exists r,
    load_and_analyze_csv "session.csv" out_of_order_log = Ok (Some r) /\
    (length (spine_curves r) <= 999)%nat.
Proof.
  destruct out_of_order_log_result as [r Hr].
  exists r. split; [exact Hr |].
  exact (proj1 (frames_are_chronological_and_bounded "session.csv"
                  out_of_order_log r Hr)).
Defined.

Lemma curve_max_short (m : R) (points : list point) :
  (length points <= 2)%nat -> curve_max m points = m.
Proof.
  unfold curve_max.
  destruct points as [| first [| second [| third rest]]]; cbn [length];
    try reflexivity.
  lia.
Qed.

Lemma max_curvature_of_short (curves : list frame) (n : nat) :
  (n <= 2)%nat ->
  Forall (fun f => length (fr_points f) = n) curves ->
  max_curvature_of curves = 0%R.
Proof.
  intros Hn HF. unfold max_curvature_of.
  induction HF as [| f curves Hf HF IH]; cbn [fold_left]; [reflexivity |].
  rewrite curve_max_short by (rewrite Hf; exact Hn). exact IH.
Qed.

(** X22: with one or two sensors the maximal curvature is [0]: a frame of
    fewer than three points has no interior point. *)
Theorem two_sensors_have_no_curvature (name : string) (reader : list csv_row)
        (r : analysis_result) :
  load_and_analyze_csv name reader = Ok (Some r) ->
  (sensors r <= 2)%nat -> max_curvature r = 0%R.
Proof.
  intros H Hs.
  pose proof (result_frame_points name reader r H) as HF.
  destruct (result_frames _ _ _ H) as [_ [_ [_ [_ [_ Hcurv]]]]].
  rewrite Hcurv. now apply (max_curvature_of_short _ (sensors r)).
Qed.

Lemma two_sensors_have_no_curvature_witness :
  exists r,
    load_and_analyze_csv "session.csv" long_log = Ok (Some r) /\
    max_curvature r = 0%R.
Proof.
  destruct long_log_result as [r [H Hs]].
  exists r. split; [exact H |].
  apply (two_sensors_have_no_curvature "session.csv" long_log r H).
  rewrite Hs. lia.
Defined.

(** ** The upload handler *)

Local Open Scope string_scope.

(** *** Texts *)

Lemma string_app_assoc (a b c : string) : (a ++ b) ++ c = a ++ (b ++ c).
Proof.
  induction a as [| x a IH]; cbn [append]; [reflexivity | now rewrite IH].
Qed.

Lemma string_app_nil_r (a : string) : a ++ "" = a.
Proof.
  induction a as [| x a IH]; cbn [append]; [reflexivity | now rewrite IH].
Qed.

Lemma string_app_length (a b : string) :
  String.length (a ++ b) = (String.length a + String.length b)%nat.
Proof.
  induction a as [| x a IH]; cbn [append String.length]; [reflexivity | now rewrite IH].
Qed.

Lemma after_prefix_app (sep s : string) : after_prefix sep (sep ++ s) = Some s.
Proof.
  induction sep as [| a sep IH]; cbn [append after_prefix]; [reflexivity |].
  now rewrite Ascii.eqb_refl.
Qed.

Lemma after_prefix_some (sep s rest : string) :
  after_prefix sep s = Some rest -> s = sep ++ rest.
Proof.
  revert s. induction sep as [| a sep IH]; intros s H.
  - cbn in H. now inversion H.
  - destruct s as [| b s]; cbn [after_prefix] in H; [discriminate |].
    destruct (Ascii.eqb a b) eqn:E; [| discriminate].
    apply Ascii.eqb_eq in E. subst b. cbn [append]. f_equal. now apply IH.
Qed.

Lemma after_prefix_app_some (sep a b rest : string) :
  after_prefix sep a = Some rest -> after_prefix sep (a ++ b) = Some (rest ++ b).
Proof.
  intro H. apply after_prefix_some in H. subst a.
  rewrite string_app_assoc. apply after_prefix_app.
Qed.

Lemma after_prefix_app_none (sep s t : string) :
  after_prefix sep s = None -> (String.length sep <= String.length s)%nat ->
  after_prefix sep (s ++ t) = None.
Proof.
  revert s. induction sep as [| a sep IH]; intros s H Hlen.
  - discriminate.
  - destruct s as [| b s]; cbn [String.length] in Hlen; [lia |].
    cbn [append after_prefix] in *.
    destruct (Ascii.eqb a b); [apply IH; [exact H | lia] | reflexivity].
Qed.

Lemma after_first_eq (sep s : string) :
  after_first sep s
  = match after_prefix sep s with
    | Some rest => Some rest
    | None =>
        match s with
        | EmptyString => None
        | String _ s' => after_first sep s'
        end
    end.
Proof. destruct s; reflexivity. Qed.

Lemma after_first_line (sep' l s : string) :
  ~ In CR (list_ascii_of_string l) ->
  after_first (String CR sep') (l ++ s) = after_first (String CR sep') s.
Proof.
  induction l as [| c l IH]; intro H; cbn [append]; [reflexivity |].
  cbn [list_ascii_of_string] in H.
  rewrite after_first_eq. cbn [after_prefix].
  destruct (Ascii.eqb CR c) eqn:E.
  - apply Ascii.eqb_eq in E. exfalso. apply H. now left.
  - apply IH. intro Hin. apply H. now right.
Qed.

Lemma contains_delimited (sep a b : string) : contains sep (a ++ sep ++ b) = true.
Proof.
  unfold contains. induction a as [| c a IH]; cbn [append].
  - now rewrite after_first_eq, after_prefix_app.
  - rewrite after_first_eq.
    destruct (after_prefix sep (String c (a ++ sep ++ b))); [reflexivity | exact IH].
Qed.

Lemma contains_app (sep a b : string) :
  contains sep a = true -> contains sep (a ++ b) = true.
Proof.
  unfold contains. induction a as [| c a IH]; intro H.
  - rewrite after_first_eq in H.
    destruct (after_prefix sep "") as [rest |] eqn:E; [| discriminate].
    rewrite after_first_eq, (after_prefix_app_some _ _ b _ E). reflexivity.
  - rewrite after_first_eq in H. rewrite after_first_eq.
    destruct (after_prefix sep (String c a)) as [rest |] eqn:E.
    + now rewrite (after_prefix_app_some _ _ b _ E).
    + cbn [append].
      destruct (after_prefix sep (String c (a ++ b))); [reflexivity |].
      now apply IH.
Qed.

(** *** Splitting at a delimiter *)

Lemma split_from_cons (sep : string) (c : ascii) (s : string) :
  split_from sep 0 (String c s)
  = match after_prefix sep (String c s) with
    | Some _ => EmptyString :: split_from sep (String.length sep - 1) s
    | None =>
        match split_from sep 0 s with
        | piece :: pieces => String c piece :: pieces
        | [] => [String c EmptyString]
        end
    end.
Proof. reflexivity. Qed.

Lemma split_from_skip (sep skipped s : string) :
  split_from sep (String.length skipped) (skipped ++ s) = split_from sep 0 s.
Proof.
  induction skipped as [| c skipped IH]; cbn [String.length append].
  - reflexivity.
  - exact IH.
Qed.

Lemma delimits_cons (sep : string) (c : ascii) (a : string) :
  delimits sep (String c a) ->
  after_prefix sep (String c (a ++ sep)) = None /\ delimits sep a.
Proof.
  unfold delimits. cbn [append]. rewrite after_first_eq.
  destruct (after_prefix sep (String c (a ++ sep))) as [rest |] eqn:E.
  - intro H. injection H as ->. apply after_prefix_some in E.
    apply (f_equal String.length) in E.
    rewrite string_app_length in E. cbn [String.length] in E.
    rewrite string_app_length in E. lia.
  - intro H. split; [reflexivity | exact H].
Qed.

(** The first piece of a split: the text before the first delimiter. *)
Lemma split_piece (sep a b : string) :
  sep <> EmptyString -> delimits sep a ->
  split (a ++ sep ++ b) sep = a :: split b sep.
Proof.
  intro Hsep. unfold split. induction a as [| c a IH]; intro H.
  - destruct sep as [| x sep]; [congruence |].
    change ("" ++ String x sep ++ b) with (String x (sep ++ b)).
    rewrite split_from_cons.
    change (String x (sep ++ b)) with (String x sep ++ b).
    rewrite after_prefix_app.
    replace (String.length (String x sep) - 1)%nat with (String.length sep)
      by (cbn [String.length]; lia).
    now rewrite split_from_skip.
  - apply delimits_cons in H. destruct H as [Hnone H].
    cbn [append]. rewrite split_from_cons.
    assert (E : after_prefix sep (String c (a ++ sep ++ b)) = None).
    { rewrite <- string_app_assoc.
      change (String c ((a ++ sep) ++ b)) with (String c (a ++ sep) ++ b).
      apply after_prefix_app_none; [exact Hnone |].
      cbn [String.length]. rewrite string_app_length. lia. }
    rewrite E, (IH H). reflexivity.
Qed.

(** A text without the delimiter is one piece. *)
Lemma split_whole (sep s : string) : contains sep s = false -> split s sep = [s].
Proof.
  unfold split, contains. induction s as [| c s IH]; intro H; [reflexivity |].
  rewrite after_first_eq in H. rewrite split_from_cons.
  destruct (after_prefix sep (String c s)); [discriminate |].
  now rewrite (IH H).
Qed.

(** *** The content of a part *)

Lemma after_first_header_block (lines : list string) (rest : string) :
  Forall header_line lines ->
  after_first CRLFCRLF (header_block lines ++ CRLFCRLF ++ rest) = Some rest.
Proof.
  induction 1 as [| l lines [Hne Hcr] _ IH]; cbn [header_block].
  - change ("" ++ CRLFCRLF ++ rest) with (CRLFCRLF ++ rest).
    now rewrite after_first_eq, after_prefix_app.
  - destruct l as [| c l]; [congruence |].
    assert (Hc : Ascii.eqb CR c = false).
    { apply Ascii.eqb_neq. intro E. apply Hcr. now left. }
    rewrite !string_app_assoc.
    change (CRLF ++ String c l ++ header_block lines ++ CRLFCRLF ++ rest)
      with (String CR (String LF
              (String c l ++ header_block lines ++ CRLFCRLF ++ rest))).
    rewrite after_first_eq.
    change (after_prefix CRLFCRLF
              (String CR (String LF
                 (String c l ++ header_block lines ++ CRLFCRLF ++ rest))))
      with (if Ascii.eqb CR c then
              after_prefix (String LF EmptyString)
                (l ++ header_block lines ++ CRLFCRLF ++ rest)
            else None).
    rewrite Hc. rewrite after_first_eq.
    change (after_prefix CRLFCRLF
              (String LF (String c l ++ header_block lines ++ CRLFCRLF ++ rest)))
      with (@None string).
    change CRLFCRLF with (String CR (String LF CRLF)) at 1.
    rewrite after_first_line by exact Hcr.
    exact IH.
Qed.

Lemma rsplit_head_line (content : string) :
  rsplit_head (content ++ CRLF) CRLF = content.
Proof.
  unfold rsplit_head.
  assert (H : before_last CRLF (content ++ CRLF) = Some content).
  { induction content as [| c content IH]; [reflexivity |].
    cbn [append before_last]. now rewrite IH. }
  now rewrite H.
Qed.

(** X23: the content of a part is recovered exactly.  For a part made of
    header lines (each non-empty and without a carriage return), an empty
    line, the content and a final line break, the extraction gives back
    the content, whatever it holds: line breaks and empty lines inside the
    content are kept. *)
Theorem upload_extracts_file_content (lines : list string) (content : string) :
  Forall header_line lines ->
  csv_content_of (file_part lines content) = Some content.
Proof.
  intro H. unfold csv_content_of, file_part.
  rewrite (after_first_header_block lines (content ++ CRLF) H).
  now rewrite rsplit_head_line.
Qed.

Lemma sample_lines_are_header_lines : Forall header_line sample_lines.
Proof.
  repeat constructor; try discriminate;
    vm_compute; intro H; repeat (destruct H as [H | H]; [discriminate H |]);
    exact H.
Qed.

Lemma upload_extracts_file_content_witness :
  csv_content_of (file_part sample_lines sample_content) = Some sample_content.
Proof.
  apply upload_extracts_file_content. exact sample_lines_are_header_lines.
Defined.

(** *** The loop over the parts *)

Lemma delimits_nil (sep : string) : delimits sep "".
Proof.
  unfold delimits. change ("" ++ sep) with sep.
  rewrite after_first_eq.
  rewrite <- (string_app_nil_r sep) at 2. now rewrite after_prefix_app.
Qed.

(** The log of [out_of_order_log], saved as the temporary file, is analysed
    to a result. *)
Lemma upload_log_result :
  exists r, load_and_analyze_csv temp_name out_of_order_log = Ok (Some r).
Proof.
  destruct (analyze_with_succeeds sampled_timestamps temp_name
              (fst (trim (load_rows out_of_order_log)))
              sampled_timestamps_among) as [r Hr].
  - discriminate.
  - reflexivity.
  - exists r. apply load_and_analyze_with_some. split; [discriminate | exact Hr].
Qed.

Section HandlerFacts.

Variable rfile_read : Z -> option string.
Variable csv_reader : string -> option (list csv_row).
Variable json_dumps : analysis_result -> string.

Lemma upload_parts_skip (part : string) (parts : list string)
      (file : option string) :
  contains "filename=" part = false ->
  upload_parts csv_reader json_dumps (part :: parts) file
  = upload_parts csv_reader json_dumps parts file.
Proof.
  intro H. cbn -[contains csv_content_of load_and_analyze_csv]. now rewrite H.
Qed.

Lemma upload_parts_file (part : string) (parts : list string)
      (file : option string) (content : string) :
  contains "filename=" part = true -> csv_content_of part = Some content ->
  upload_parts csv_reader json_dumps (part :: parts) file
  = match csv_reader content with
    | None => (ServerError SavedFileError, Some content)
    | Some reader =>
        match load_and_analyze_csv temp_name reader with
        | Raise e => (ServerError (AnalysisError e), Some content)
        | Ok (Some result) => (JsonResponse (json_dumps result), Some content)
        | Ok None => upload_parts csv_reader json_dumps parts (Some content)
        end
    end.
Proof.
  intros H Hc. cbn -[contains csv_content_of load_and_analyze_csv].
  now rewrite H, Hc.
Qed.

(** A request that gets as far as the loop over the parts. *)
Lemma do_POST_parts (length_text content_type : string) (n : Z)
      (post_data before after : string) (rest : list string) :
  int_of_string length_text = Some n -> rfile_read n = Some post_data ->
  contains "boundary=" content_type = true ->
  split content_type "boundary=" = before :: after :: rest ->
  do_POST rfile_read csv_reader json_dumps "/upload"
          (Some length_text) (Some content_type)
  = (Some (fst (upload_parts csv_reader json_dumps
                  (split post_data ("--" ++ encode after)) None)),
     snd (upload_parts csv_reader json_dumps
            (split post_data ("--" ++ encode after)) None)).
Proof.
  intros Hn Hread Hb Hsplit. unfold do_POST.
  change ("/upload" =? "/upload") with true. cbv iota.
  now rewrite Hn, Hread, Hb, Hsplit.
Qed.

(** Whatever the loop answers, it answers for the parts of a body read. *)
Lemma do_POST_answer (path : string) (content_length content_type : option string)
      (answer : response) (file : option string) :
  do_POST rfile_read csv_reader json_dumps path content_length content_type
  = (Some answer, file) ->
  (file = None /\
   (answer = ServerError ContentLengthError \/ answer = ServerError ReadError \/
    answer = ErrorResponse 400 "Invalid Content-Type" \/
    answer = ServerError PartIndexError)) \/
  exists n post_data boundary,
    rfile_read n = Some post_data /\
    upload_parts csv_reader json_dumps (split post_data ("--" ++ boundary)) None
    = (answer, file).
Proof.
  unfold do_POST. destruct (path =? "/upload"); [| discriminate].
  destruct content_length as [text |];
    [| intro H; injection H as <- <-; left; auto].
  destruct (int_of_string text) as [n |];
    [| intro H; injection H as <- <-; left; auto].
  destruct (rfile_read n) as [post_data |] eqn:Hread;
    [| intro H; injection H as <- <-; left; auto].
  cbv zeta.
  destruct (negb _); [intro H; injection H as <- <-; left; auto 6 |].
  destruct (split _ "boundary=") as [| before [| after rest]];
    try (intro H; injection H as <- <-; left; solve [auto 6]).
  intro H. injection H as <- <-. right.
  exists n, post_data, (encode after). split; [exact Hread |].
  now destruct (upload_parts _ _ _ _).
Qed.

Lemma upload_parts_json (parts : list string) (file file' : option string)
      (body : string) :
  upload_parts csv_reader json_dumps parts file = (JsonResponse body, file') ->
  exists part content reader r,
    In part parts /\ contains "filename=" part = true /\
    csv_content_of part = Some content /\ csv_reader content = Some reader /\
    load_and_analyze_csv temp_name reader = Ok (Some r) /\
    body = json_dumps r /\ file' = Some content.
Proof.
  revert file. induction parts as [| part parts IH]; intros file H.
  - discriminate.
  - assert (Hlater : forall f,
      upload_parts csv_reader json_dumps parts f = (JsonResponse body, file') ->
      exists part' content reader r,
        In part' (part :: parts) /\ contains "filename=" part' = true /\
        csv_content_of part' = Some content /\ csv_reader content = Some reader /\
        load_and_analyze_csv temp_name reader = Ok (Some r) /\
        body = json_dumps r /\ file' = Some content).
    { intros f Hf. destruct (IH f Hf) as [p [c [rd [r [Hin Hrest]]]]].
      exists p, c, rd, r. split; [now right | exact Hrest]. }
    destruct (contains "filename=" part) eqn:Hc.
    + destruct (csv_content_of part) as [content |] eqn:Hcontent.
      * rewrite (upload_parts_file part parts file content Hc Hcontent) in H.
        destruct (csv_reader content) as [reader |] eqn:Hreader; [| discriminate].
        destruct (load_and_analyze_csv temp_name reader) as [[r |] | e] eqn:Hr.
        -- injection H as <- <-.
           exists part, content, reader, r. repeat split; auto. now left.
        -- exact (Hlater _ H).
        -- discriminate.
      * cbn -[contains csv_content_of load_and_analyze_csv] in H.
        rewrite Hc, Hcontent in H. discriminate.
    + rewrite (upload_parts_skip part parts file Hc) in H. exact (Hlater _ H).
Qed.

Lemma upload_parts_no_valid (parts : list string) (file file' : option string)
      (code : Z) (message : string) :
  upload_parts csv_reader json_dumps parts file
  = (ErrorResponse code message, file') ->
  Forall (fun part =>
            contains "filename=" part = true ->
            exists content reader,
              csv_content_of part = Some content /\
              csv_reader content = Some reader /\
              load_and_analyze_csv temp_name reader = Ok None) parts.
Proof.
  revert file. induction parts as [| part parts IH]; intros file H.
  - constructor.
  - destruct (contains "filename=" part) eqn:Hc.
    + destruct (csv_content_of part) as [content |] eqn:Hcontent.
      * rewrite (upload_parts_file part parts file content Hc Hcontent) in H.
        destruct (csv_reader content) as [reader |] eqn:Hreader; [| discriminate].
        destruct (load_and_analyze_csv temp_name reader) as [[r |] | e] eqn:Hr;
          try discriminate.
        constructor; [| exact (IH _ H)].
        intros _. exists content, reader. auto.
      * cbn -[contains csv_content_of load_and_analyze_csv] in H.
        rewrite Hc, Hcontent in H. discriminate.
    + rewrite (upload_parts_skip part parts file Hc) in H.
      constructor; [intro X; congruence | exact (IH _ H)].
Qed.

(** X24: what an answer with status 200 stands for.  Its body is the JSON
    of the analysis of a part of the body that holds [filename=]; the
    content extracted from that part is what the temporary file holds
    afterwards; the result names the file [spine_upload.csv], whatever
    name the upload gave; and the log spans ten minutes or more. *)
Theorem upload_answer_is_of_saved_file (path : string)
        (content_length content_type : option string) (body : string)
        (file : option string) :
  do_POST rfile_read csv_reader json_dumps path content_length content_type
  = (Some (JsonResponse body), file) ->
  exists n post_data boundary part content reader r,
    rfile_read n = Some post_data /\
    In part (split post_data ("--" ++ boundary)) /\
    contains "filename=" part = true /\
    csv_content_of part = Some content /\ file = Some content /\
    csv_reader content = Some reader /\
    load_and_analyze_csv temp_name reader = Ok (Some r) /\
    body = json_dumps r /\ filename r = "spine_upload.csv" /\
    exists row row', In row (load_rows reader) /\ In row' (load_rows reader) /\
                     (600000 <= row_ts row' - row_ts row)%Z.
Proof.
  intro H. apply do_POST_answer in H.
  destruct H as [[_ [H | [H | [H | H]]]] | [n [post_data [boundary [Hread H]]]]];
    try discriminate.
  apply upload_parts_json in H.
  destruct H as [part [content [reader [r [Hin [Hc [Hcontent [Hreader
    [Hr [Hbody Hfile]]]]]]]]]].
  exists n, post_data, boundary, part, content, reader, r.
  repeat (split; [assumption |]).
  pose proof (load_and_analyze_rows _ _ _ Hr) as Hrows. cbn zeta in Hrows.
  destruct Hrows as [Hne Ha]. split.
  - apply analyze_with_metrics in Ha.
    destruct Ha as [cycles [sd [curves [t_last [t_first [_ [_ [_ [_ [_
      Hfields]]]]]]]]]].
    cbn zeta in Hfields. exact (proj1 Hfields).
  - now apply trim_kept_spans_ten_minutes.
Qed.

(** X25: what the answer 400 [No valid file uploaded] stands for.  Every
    part of the body that holds [filename=] was extracted, saved and
    analysed, and none had a row left after the trimming: the answer is
    given to a body without a file and to a readable log that is too short
    alike. *)
Theorem no_valid_file_means_nothing_left (path : string)
        (content_length content_type : option string) (file : option string) :
  do_POST rfile_read csv_reader json_dumps path content_length content_type
  = (Some (ErrorResponse 400 "No valid file uploaded"), file) ->
  exists n post_data boundary,
    rfile_read n = Some post_data /\
    Forall (fun part =>
              contains "filename=" part = true ->
              exists content reader,
                csv_content_of part = Some content /\
                csv_reader content = Some reader /\
                fst (trim (load_rows reader)) = [])
           (split post_data ("--" ++ boundary)).
Proof.
  intro H. apply do_POST_answer in H.
  destruct H as [[_ [H | [H | [H | H]]]] | [n [post_data [boundary [Hread H]]]]];
    try discriminate.
  exists n, post_data, boundary. split; [exact Hread |].
  apply upload_parts_no_valid in H.
  eapply Forall_impl; [| exact H].
  intros part Hpart Hc. destruct (Hpart Hc) as [content [reader [H1 [H2 H3]]]].
  exists content, reader. split; [exact H1 |]. split; [exact H2 |].
  apply load_and_analyze_with_none in H3. destruct H3 as [H3 | H3]; [| exact H3].
  now rewrite H3.
Qed.

(** X26: a well-formed upload of one file is answered with the analysis of
    exactly the content of that file.  The body is the delimiter, the part
    (header lines with [filename=] among them, an empty line, the content,
    a line break), the delimiter again and a tail; the boundary is what
    follows [boundary=] in the content type; the delimiter occurs neither
    in the part nor in the tail.  Then the content is saved, and the answer
    is 200 with the JSON of its analysis, 400 when the analysis gives no
    result, and 500 when the file cannot be read or the analysis raises. *)
Theorem single_file_upload_is_analysed (length_text type_prefix boundary : string)
        (n : Z) (lines : list string) (content tail : string) :
  int_of_string length_text = Some n ->
  rfile_read n
  = Some (("--" ++ encode boundary) ++ file_part lines content
          ++ ("--" ++ encode boundary) ++ tail) ->
  delimits "boundary=" type_prefix ->
  contains "boundary=" boundary = false ->
  Forall header_line lines ->
  contains "filename=" (header_block lines) = true ->
  delimits ("--" ++ encode boundary) (file_part lines content) ->
  contains ("--" ++ encode boundary) tail = false ->
  contains "filename=" tail = false ->
  do_POST rfile_read csv_reader json_dumps "/upload" (Some length_text)
          (Some (type_prefix ++ "boundary=" ++ boundary))
  = match csv_reader content with
    | None => (Some (ServerError SavedFileError), Some content)
    | Some reader =>
        match load_and_analyze_csv temp_name reader with
        | Ok (Some result) =>
            (Some (JsonResponse (json_dumps result)), Some content)
        | Ok None =>
            (Some (ErrorResponse 400 "No valid file uploaded"), Some content)
        | Raise e => (Some (ServerError (AnalysisError e)), Some content)
        end
    end.
Proof.
  intros Hn Hread Hprefix Hboundary Hlines Hname Hpart Htail Htailname.
  assert (Hsep : "boundary=" <> "") by discriminate.
  assert (Hdel : "--" ++ encode boundary <> "") by discriminate.
  rewrite (do_POST_parts length_text _ n _ type_prefix boundary [] Hn Hread).
  - change (("--" ++ encode boundary) ++ file_part lines content
            ++ ("--" ++ encode boundary) ++ tail)
      with ("" ++ ("--" ++ encode boundary) ++ file_part lines content
            ++ ("--" ++ encode boundary) ++ tail).
    rewrite (split_piece _ "" _ Hdel (delimits_nil _)).
    rewrite (split_piece _ _ _ Hdel Hpart).
    rewrite (split_whole _ _ Htail).
    rewrite upload_parts_skip by reflexivity.
    assert (Hc : contains "filename=" (file_part lines content) = true)
      by (unfold file_part; now apply contains_app).
    assert (Hcontent : csv_content_of (file_part lines content) = Some content).
    { unfold csv_content_of, file_part.
      rewrite (after_first_header_block lines (content ++ CRLF) Hlines).
      now rewrite rsplit_head_line. }
    rewrite (upload_parts_file _ _ _ content Hc Hcontent).
    destruct (csv_reader content) as [reader |]; [| reflexivity].
    destruct (load_and_analyze_csv temp_name reader) as [[r |] | e];
      try reflexivity.
    rewrite upload_parts_skip by exact Htailname. reflexivity.
  - apply contains_delimited.
  - rewrite (split_piece _ _ _ Hsep Hprefix).
    now rewrite (split_whole _ _ Hboundary).
Qed.

End HandlerFacts.

Lemma upload_answer_is_of_saved_file_witness :
  exists body file,
    do_POST (fun _ => Some sample_body) (fun _ => Some out_of_order_log)
            filename "/upload" (Some "163")
            (Some "multipart/form-data; boundary=XYZ")
    = (Some (JsonResponse body), file) /\
    body = "spine_upload.csv".
Proof.
  destruct upload_log_result as [r Hr].
  assert (E : do_POST (fun _ => Some sample_body) (fun _ => Some out_of_order_log)
                      filename "/upload" (Some "163")
                      (Some "multipart/form-data; boundary=XYZ")
              = (Some (JsonResponse (filename r)), Some sample_content)).
  { rewrite (do_POST_parts _ _ _ "163" "multipart/form-data; boundary=XYZ" 163
               sample_body "multipart/form-data; " "XYZ" []);
      try (vm_compute; reflexivity).
    assert (Hs : split sample_body ("--" ++ encode "XYZ")
                 = [""; file_part sample_lines sample_content; "--" ++ CRLF])
      by (vm_compute; reflexivity).
    rewrite Hs.
    rewrite upload_parts_skip by reflexivity.
    rewrite (upload_parts_file _ _ _ _ _ sample_content)
      by (vm_compute; reflexivity).
    now rewrite Hr. }
  destruct (upload_answer_is_of_saved_file _ _ _ _ _ _ _ _ E)
    as [n [post_data [boundary [part [content [reader [r' [_ [_ [_ [_ [_ [_ [_
         [Hbody [Hname _]]]]]]]]]]]]]]]].
  exists (filename r), (Some sample_content). split; [exact E |].
  now rewrite Hbody.
Defined.

Lemma no_valid_file_means_nothing_left_witness :
  exists post_data boundary,
    Forall (fun part =>
              contains "filename=" part = true ->
              exists content reader,
                csv_content_of part = Some content /\
                Some eight_minute_log = Some reader /\
                fst (trim (load_rows reader)) = [])
           (split post_data ("--" ++ boundary)).
Proof.
  assert (E : do_POST (fun _ => Some sample_body) (fun _ => Some eight_minute_log)
                      filename "/upload" (Some "163")
                      (Some "multipart/form-data; boundary=XYZ")
              = (Some (ErrorResponse 400 "No valid file uploaded"),
                 Some sample_content))
    by (vm_compute; reflexivity).
  destruct (no_valid_file_means_nothing_left _ _ _ _ _ _ _ E)
    as [n [post_data [boundary [_ H]]]].
  exists post_data, boundary. exact H.
Defined.

Lemma single_file_upload_is_analysed_witness :
  do_POST (fun _ => Some sample_body) (fun _ => Some eight_minute_log)
          filename "/upload" (Some "163")
          (Some ("multipart/form-data; " ++ "boundary=" ++ "XYZ"))
  = (Some (ErrorResponse 400 "No valid file uploaded"), Some sample_content).
Proof.
  rewrite (single_file_upload_is_analysed _ _ _ "163" "multipart/form-data; "
             "XYZ" 163 sample_lines sample_content ("--" ++ CRLF));
    try (vm_compute; reflexivity).
  exact sample_lines_are_header_lines.
Defined.

Local Close Scope string_scope.
